(** * Light-curve templates (pint.templates.lctemplate): a shallow embedding

    The development follows [src/pint/templates/lctemplate.py]:
    the mixture evaluator [LCTemplate.__call__], the bridge scale solver
    [LCBridgeTemplate._get_scales], the evaluation cache, the parameter
    vector manager, the random sampler and [GaussianPrior].

    Numbers.  A Python/numpy float is read as a real number ([R]); the one
    value of the source that is no real number and that the code tests for,
    NaN, is a constructor of [npfloat].  A division by a denominator that is
    zero gives inf or nan in numpy (with a RuntimeWarning): no real number
    stands for that, so the embedding stops the computation there with the
    outcome [NonFinite].  Rounding is not modelled.

    Objects.  Primitives are mutable Python objects that templates share by
    reference: they live in a store ([heap]) and a template holds their
    locations.  [deepcopy] and the constructors of new primitives allocate. *)

From Stdlib Require Import Reals Lra Lia ZArith.
From stdpp Require Import base option list functions gmap.

(** ** Exceptions and the error monad *)

Inductive exn :=
  | ValueError | IndexError | KeyError | TypeError | AttributeError
  | NotImplementedError | AssertionError | ZeroDivisionError | OverflowError
  | NonFinite.  (* not a Python exception: the numpy result holds inf or nan *)

Inductive result (A : Type) : Type :=
  | Ok (a : A)
  | Raise (e : exn).
Arguments Ok {A} a.
Arguments Raise {A} e.

Global Instance result_ret : MRet result := λ A a, Ok a.
Global Instance result_bind : MBind result :=
  λ A B f m, match m with Ok a => f a | Raise e => Raise e end.

(** ** numpy floats, comparisons, casts *)

Inductive npfloat :=
  | nan
  | fin (x : R).

Definition isnan (x : npfloat) : bool :=
  match x with nan => true | fin _ => false end.

Global Instance R_eq_dec : EqDecision R := Req_dec_T.
Global Instance Rlt_decision (a b : R) : Decision (a < b)%R := Rlt_dec a b.
Global Instance Rle_decision (a b : R) : Decision (a <= b)%R := Rle_dec a b.

(** [a / b] on numpy scalars. *)
Definition fdiv (a b : R) : result R :=
  if decide (b = 0%R) then Raise NonFinite else Ok (a / b)%R.

(** [np.mod(x, 1)] and Python's [x % 1] on floats: [x - floor x]. *)
Definition mod1 (x : R) : R := (x - IZR (Int_part x))%R.

(** A C cast of a double to int64 truncates toward zero; NaN and values out
    of range give INT64_MIN (x86-64, where numpy leaves the cast to the
    hardware). *)
Definition int_min : Z := (- 2 ^ 63)%Z.

Definition trunc (x : R) : Z :=
  if decide (0 <= x)%R then Int_part x else (- Int_part (- x))%Z.

Definition astype_int (x : npfloat) : Z :=
  match x with
  | nan => int_min
  | fin r =>
      let z := trunc r in
      if decide (- 2 ^ 63 ≤ z < 2 ^ 63)%Z then z else int_min
  end.

(** Arithmetic on possibly-NaN floats: NaN propagates. *)
Definition np_lift2 (f : R → R → R) (a b : npfloat) : npfloat :=
  match a, b with
  | fin x, fin y => fin (f x y)
  | _, _ => nan
  end.
Definition np_add := np_lift2 Rplus.
Definition np_sub := np_lift2 Rminus.
Definition np_mul := np_lift2 Rmult.

(** [a < b]: every comparison with NaN is False. *)
Definition np_lt (a b : npfloat) : bool :=
  match a, b with
  | fin x, fin y => bool_decide (x < y)%R
  | _, _ => false
  end.

(** ** numpy arrays as lists *)

Definition np_sum (a : list R) : R := foldr Rplus 0%R a.
Definition zeros_like {A} (a : list A) : list R := map (λ _, 0%R) a.
Definition vadd (a b : list R) : list R := zip_with Rplus a b.
Definition of_bool (b : bool) : R := if b then 1%R else 0%R.

(** A weight that multiplies a primitive's values is a scalar or, in the
    bridge template, an array over the phases; [*] broadcasts. *)
Inductive scale :=
  | Scalar (r : R)
  | Arr (a : list R).

Definition scale_mul (s : scale) (v : list R) : list R :=
  match s with
  | Scalar r => map (Rmult r) v
  | Arr a => zip_with Rmult a v
  end.

(** [a / d] for an array [a] and a scalar [d]: an empty array has no entry
    to spoil. *)
Definition arr_div (a : list R) (d : R) : result (list R) :=
  match a with
  | [] => Ok []
  | _ => if decide (d = 0%R) then Raise NonFinite else Ok (map (λ v, v / d)%R a)
  end.

(** [np.linspace(0, 1, num)]. *)
Definition linspace01 (num : Z) : result (list R) :=
  if decide (num < 0)%Z then Raise ValueError
  else Ok (map (λ i : nat, if decide (num = 1)%Z then 0%R
                           else (INR i / IZR (num - 1))%R)
               (seq 0 (Z.to_nat num))).

(** [a[i]] for a Python list or numpy array and an int [i]: negative
    indices count from the end. *)
Definition py_index {A} (a : list A) (i : Z) : result A :=
  let n := Z.of_nat (length a) in
  let j := if decide (i < 0)%Z then (i + n)%Z else i in
  if decide (0 ≤ j < n)%Z then
    match a !! Z.to_nat j with Some x => Ok x | None => Raise IndexError end
  else Raise IndexError.

(** [a[indices]] for an integer index array. *)
Definition np_take {A} (a : list A) (indices : list Z) : result (list A) :=
  mapM (py_index a) indices.

(** [a[mask]] for a boolean mask: the mask must have the length of [a]. *)
Fixpoint select {A} (mask : list bool) (a : list A) : list A :=
  match mask, a with
  | m :: mask, x :: a => if m then x :: select mask a else select mask a
  | _, _ => []
  end.

Definition np_mask {A} (a : list A) (mask : list bool) : result (list A) :=
  if decide (length mask = length a) then Ok (select mask a)
  else Raise IndexError.

Definition count_true (mask : list bool) : nat := length (filter (λ b, b = true) mask).

(** [a[mask] = vals], the entries of [vals] going to the True positions in
    order. *)
Fixpoint scatter {A} (mask : list bool) (vals : list A) (a : list A) : list A :=
  match mask, a with
  | m :: mask, x :: a =>
      if m then
        match vals with
        | v :: vals => v :: scatter mask vals a
        | [] => x :: scatter mask [] a
        end
      else x :: scatter mask vals a
  | _, _ => a
  end.

Definition np_assign_mask {A} (a : list A) (mask : list bool) (vals : list A)
    : result (list A) :=
  if decide (length mask = length a) then
    if decide (length vals = count_true mask) then Ok (scatter mask vals a)
    else
      match vals with
      | [v] => Ok (scatter mask (replicate (count_true mask) v) a)  (* broadcast *)
      | _ => Raise ValueError
      end
  else Raise IndexError.

(** ** External capabilities

    [lcprimitives], [lceprimitives] and [lcnorm] are imported by the module
    and are not part of it: a primitive and a norm map are used through the
    methods the template calls, taken here as the operations of a class.
    A method that mutates its receiver returns the receiver's new state.
    A primitive called on a phase array works entry by entry. *)

(** The primitive classes that [swap_primitive] and the convenience
    constructors name. *)
Inductive ptype := LCGaussian | LCGaussian2 | LCLorentzian | LCLorentzian2.

Class NumpyRandom (G : Type) := {
  (** [np.random.rand(n)] on the process-wide generator state. *)
  np_random_rand : nat → G → list R * G;
}.

Class LCPrimitive (P G : Type) := {
  prim_call : P → R → R → R;                    (* p(phase, log10_ens) *)
  prim_derivative : P → R → R → Z → R;          (* p.derivative(phase, log10_ens, order) *)
  prim_integrate : P → R → R → R → R;           (* p.integrate(x1, x2, log10_ens) *)
  get_location : P → R;
  set_location : P → R → P;
  prim_shift_mode : P → bool;
  prim_set_p0 : P → R → P;                      (* p.p[0] = ph *)
  prim_get_parameters : P → bool → list R;      (* p.get_parameters(free) *)
  prim_set_parameters : P → list R → bool → P * bool;
  prim_random : P → nat → list R → G → list R * G;
  convert_primitive : P → ptype → P;
}.

Class NormMap (NM : Type) := {
  norms_call : NM → R → list R;                 (* norms(log10_ens) *)
  norms_call_vec : NM → list R → list (list R); (* norms(log10_ens) on a vector of
                                                   energies: nnorm x nen, by rows *)
  norms_len : NM → nat;                         (* len(norms) *)
  norms_set_parameters : NM → list R → bool → NM;
  delete_component : NM → Z → NM;               (* returns the new norm map *)
  add_component : NM → R → NM;                  (* returns the new norm map *)
  NormAngles : list R → result NM;              (* the constructor, from amplitudes *)
}.

(** The [norms] argument of the constructors: omitted, a norm map
    ([hasattr(norms, '_make_p')]) or a tuple of amplitudes. *)
Inductive norms_arg (NM : Type) :=
  | NormsNone
  | NormsObj (nm : NM)
  | NormsTuple (amplitudes : list R).
Arguments NormsNone {NM}.
Arguments NormsObj {NM} nm.
Arguments NormsTuple {NM} amplitudes.

(** ** The template object, the store and the method monad *)

Definition loc := nat.

(** What [print] writes. *)
Inductive message :=
  | PhasesWereNaN (count : nat).   (* "%d phases were NaN!" *)

Record LCTemplate (NM : Type) := mkLCTemplate {
  primitives : list loc;
  norms : NM;
  has_bridge : bool;               (* the class: LCTemplate or LCBridgeTemplate *)
  p1p2 : option (loc * loc);       (* self.p1, self.p2, set by LCBridgeTemplate.__init__ *)
  shift_mode : bool;
  _cache : gmap Z (list R);        (* defaultdict(None): a plain dict *)
  _cache_dirty : gmap Z bool;      (* defaultdict(lambda: True) *)
  ncache : Z;
  interpolation : Z;
}.
Arguments mkLCTemplate {NM}.
Arguments primitives {NM}.
Arguments norms {NM}.
Arguments has_bridge {NM}.
Arguments p1p2 {NM}.
Arguments shift_mode {NM}.
Arguments _cache {NM}.
Arguments _cache_dirty {NM}.
Arguments ncache {NM}.
Arguments interpolation {NM}.

Record world (P NM G : Type) := mkWorld {
  self : LCTemplate NM;            (* the receiver of the running method *)
  heap : loc → P;                  (* the primitive objects, by location *)
  next_loc : loc;                  (* no object lives at or above it *)
  np_random : G;                   (* numpy's global generator *)
  stdout : list message;
}.
Arguments mkWorld {P NM G}.
Arguments self {P NM G}.
Arguments heap {P NM G}.
Arguments next_loc {P NM G}.
Arguments np_random {P NM G}.
Arguments stdout {P NM G}.

(** A method: it may change the world, and it returns or raises.  The world
    a raise leaves behind is kept: Python undoes nothing. *)
Definition M (P NM G : Type) (A : Type) : Type :=
  world P NM G → result A * world P NM G.

Global Instance M_ret {P NM G} : MRet (M P NM G) := λ A a w, (Ok a, w).
Global Instance M_bind {P NM G} : MBind (M P NM G) :=
  λ A B f m w,
    match m w with
    | (Ok a, w') => f a w'
    | (Raise e, w') => (Raise e, w')
    end.

(** ** The methods of LCTemplate and LCBridgeTemplate *)

Section methods.
Context {P NM G : Type} `{!NumpyRandom G, !LCPrimitive P G, !NormMap NM}.

#[local] Abbreviation Tmpl := (LCTemplate NM).
#[local] Abbreviation Mth := (M P NM G).

(** *** Attribute assignment *)

Definition with_primitives (t : Tmpl) (ps : list loc) : Tmpl :=
  mkLCTemplate ps (norms t) (has_bridge t) (p1p2 t) (shift_mode t)
    (_cache t) (_cache_dirty t) (ncache t) (interpolation t).
Definition with_norms (t : Tmpl) (nm : NM) : Tmpl :=
  mkLCTemplate (primitives t) nm (has_bridge t) (p1p2 t) (shift_mode t)
    (_cache t) (_cache_dirty t) (ncache t) (interpolation t).
Definition with_p1p2 (t : Tmpl) (pp : option (loc * loc)) : Tmpl :=
  mkLCTemplate (primitives t) (norms t) (has_bridge t) pp (shift_mode t)
    (_cache t) (_cache_dirty t) (ncache t) (interpolation t).
Definition with_cache (t : Tmpl) (c : gmap Z (list R)) : Tmpl :=
  mkLCTemplate (primitives t) (norms t) (has_bridge t) (p1p2 t) (shift_mode t)
    c (_cache_dirty t) (ncache t) (interpolation t).
Definition with_cache_dirty (t : Tmpl) (d : gmap Z bool) : Tmpl :=
  mkLCTemplate (primitives t) (norms t) (has_bridge t) (p1p2 t) (shift_mode t)
    (_cache t) d (ncache t) (interpolation t).
Definition with_cache_properties (t : Tmpl) (n i : Z) : Tmpl :=
  mkLCTemplate (primitives t) (norms t) (has_bridge t) (p1p2 t) (shift_mode t)
    (_cache t) (_cache_dirty t) n i.

(** *** Operations of the monad *)

Definition raise {A} (e : exn) : Mth A := λ w, (Raise e, w).
Definition lift {A} (r : result A) : Mth A := λ w, (r, w).
Definition get_self : Mth Tmpl := λ w, (Ok (self w), w).
Definition put_self (t : Tmpl) : Mth unit :=
  λ w, (Ok (), mkWorld t (heap w) (next_loc w) (np_random w) (stdout w)).
Definition get_heap : Mth (loc → P) := λ w, (Ok (heap w), w).
(** A method of a primitive that mutates it. *)
Definition store (l : loc) (p : P) : Mth unit :=
  λ w, (Ok (), mkWorld (self w) (<[l := p]> (heap w)) (next_loc w)
                 (np_random w) (stdout w)).
(** A new primitive object. *)
Definition alloc (p : P) : Mth loc :=
  λ w, (Ok (next_loc w),
        mkWorld (self w) (<[next_loc w := p]> (heap w)) (S (next_loc w))
          (np_random w) (stdout w)).
Definition deepcopy (l : loc) : Mth loc := h ← get_heap; alloc (h l).
Definition print (m : message) : Mth unit :=
  λ w, (Ok (), mkWorld (self w) (heap w) (next_loc w) (np_random w)
                 (stdout w ++ [m])).
Definition rand (n : nat) : Mth (list R) :=
  λ w, let '(v, g) := np_random_rand n (np_random w) in
       (Ok v, mkWorld (self w) (heap w) (next_loc w) g (stdout w)).
Definition random_of (l : loc) (n : nat) (ens : list R) : Mth (list R) :=
  λ w, let '(v, g) := prim_random (heap w l) n ens (np_random w) in
       (Ok v, mkWorld (self w) (heap w) (next_loc w) g (stdout w)).

(** *** Construction *)

Definition mark_cache_dirty_of (t : Tmpl) : Tmpl :=
  with_cache_dirty t ((λ _, true) <$> _cache_dirty t).

Definition mark_cache_dirty : Mth unit :=
  t ← get_self; put_self (mark_cache_dirty_of t).

Definition set_cache_properties_of (n i : Z) (t : Tmpl) : Tmpl :=
  mark_cache_dirty_of (with_cache_properties t n i).

Definition set_cache_properties (n i : Z) : Mth unit :=
  t ← get_self; put_self (set_cache_properties_of n i t).

(** [_sanity_checks], in the class of the receiver. *)
Definition _sanity_checks (t : Tmpl) : result unit :=
  if has_bridge t then
    if decide (Z.of_nat (length (primitives t)) ≠ Z.of_nat (norms_len (norms t)) - 1)%Z
    then Raise ValueError else Ok ()
  else
    if decide (length (primitives t) ≠ norms_len (norms t))
    then Raise ValueError else Ok ().

(** [LCTemplate.__init__]; [cls] tells that [super().__init__] runs for a
    LCBridgeTemplate, whose [_sanity_checks] is then the one called. *)
Definition __init__ (cls : bool) (h : loc → P) (prims : list loc)
    (nrm : norms_arg NM) : result Tmpl :=
  let shift := existsb (λ l, prim_shift_mode (h l)) prims in
  nm ← match nrm with
       | NormsNone =>
           NormAngles (map (λ x, x / INR (length prims))%R
                         (replicate (length prims) 1%R))
       | NormsObj nm => Ok nm
       | NormsTuple a => NormAngles a
       end;
  let t := mkLCTemplate prims nm cls None shift ∅ ∅ 0 0 in
  _ ← _sanity_checks t;
  Ok (set_cache_properties_of 1000 1 t).

(** [a[i]] with the index brought into range first. *)
Definition py_norm_index (n : nat) (i : Z) : result nat :=
  let j := if decide (i < 0)%Z then (i + Z.of_nat n)%Z else i in
  if decide (0 ≤ j < Z.of_nat n)%Z then Ok (Z.to_nat j) else Raise IndexError.

(** [LCBridgeTemplate.__init__].  With [norms] omitted the source computes
    [len(primitives + 1)]: a list plus an int. *)
Definition LCBridgeTemplate__init__ (h : loc → P) (prims : list loc)
    (nrm : norms_arg NM) : result Tmpl :=
  nrm ← match nrm with
        | NormsNone => Raise TypeError
        | _ => Ok nrm
        end;
  t ← __init__ true h prims nrm;
  a ← py_index (primitives t) (-2);
  b ← py_index (primitives t) (-1);
  Ok (with_p1p2 t (Some (a, b))).

(** *** Evaluation *)

Definition prim_eval (h : loc → P) (l : loc) (phases : list R) (e : R) : list R :=
  map (λ ph, prim_call (h l) ph e) phases.

(** [LCTemplate._get_scales]. *)
Definition LCTemplate_get_scales (t : Tmpl) (phases : list R) (log10_ens : R)
    : list R * list scale * R :=
  let rvals := zeros_like phases in
  let norms := norms_call (norms t) log10_ens in
  (rvals, Scalar <$> norms, np_sum norms).

(** [LCBridgeTemplate._get_scales]. *)
Definition LCBridgeTemplate_get_scales (h : loc → P) (t : Tmpl)
    (phases : list R) (log10_ens : R) : result (list R * list scale * R) :=
  let all_norms := norms_call (norms t) log10_ens in
  nped ← py_index all_norms 0;
  let norms := drop 1 all_norms in
  '(n1, n2) ← match drop (length norms - 2) norms with
              | [n1; n2] => Ok (n1, n2)
              | _ => Raise ValueError
              end;
  '(a, b) ← match p1p2 t with Some pp => Ok pp | None => Raise AttributeError end;
  let p1 := h a in
  let p2 := h b in
  let l1 := get_location p1 in
  let l2 := get_location p2 in
  let delta := ((l2 - l1) + of_bool (bool_decide (l2 < l1)))%R in
  let f11 := prim_call p1 l1 log10_ens in
  let f12 := prim_call p1 l2 log10_ens in
  let f21 := prim_call p2 l1 log10_ens in
  let f22 := prim_call p2 l2 log10_ens in
  let d := (f11 * f22 - f12 * f21)%R in
  let '(i1, i2) :=
    if decide (l2 > l1)%R then
      (prim_integrate p1 l1 l2 log10_ens, prim_integrate p2 l1 l2 log10_ens)
    else
      ((1 - prim_integrate p1 l2 l1 log10_ens)%R,
       (1 - prim_integrate p2 l2 l1 log10_ens)%R) in
  x ← fdiv (i1 * (f22 - f21) + i2 * (f11 - f12)) (d * delta);
  kinv ← fdiv 1 (1 - x);
  let k := (nped * kinv)%R in
  q ← fdiv k (delta * d);
  let dn1 := (q * (f21 - f22))%R in
  let dn2 := (q * (f12 - f11))%R in
  let mask :=
    if decide (l2 > l1)%R then
      map (λ ph, bool_decide (ph >= l1)%R && bool_decide (ph <= l2)%R) phases
    else
      map (λ ph, bool_decide (ph >= l1)%R || bool_decide (ph <= l2)%R) phases in
  ped ← fdiv k delta;
  let rvals := map (λ m, ped * of_bool m)%R mask in
  let norm_list :=
    (Scalar <$> take (length norms - 2) norms)
    ++ [Arr (map (λ m, n1 + dn1 * of_bool m)%R mask);
        Arr (map (λ m, n2 + dn2 * of_bool m)%R mask)] in
  Ok (rvals, norm_list, np_sum all_norms).

(** [self._get_scales], dispatched on the class. *)
Definition _get_scales (h : loc → P) (t : Tmpl) (phases : list R)
    (log10_ens : R) : result (list R * list scale * R) :=
  if has_bridge t then LCBridgeTemplate_get_scales h t phases log10_ens
  else Ok (LCTemplate_get_scales t phases log10_ens).

(** [for n, prim in zip(norms, self.primitives): rvals += n * prim(phases)]. *)
Definition accumulate (h : loc → P) (phases : list R) (log10_ens : R)
    (norms : list scale) (prims : list loc) (rvals : list R) : list R :=
  fold_left (λ acc '(n, l), vadd acc (scale_mul n (prim_eval h l phases log10_ens)))
    (zip norms prims) rvals.

(** [__call__] past the [use_cache] test. *)
Definition call_direct (h : loc → P) (t : Tmpl) (phases : list R)
    (log10_ens : R) (suppress_bg : bool) : result (list R) :=
  '(rvals, norms, norm) ← _get_scales h t phases log10_ens;
  let rvals := accumulate h phases log10_ens norms (primitives t) rvals in
  if suppress_bg then arr_div rvals norm
  else Ok (map (λ v, (1 - norm) + v)%R rvals).

(** [derivative] past the [use_cache] test. *)
Definition derivative_direct (h : loc → P) (t : Tmpl) (phases : list R)
    (log10_ens : R) (order : Z) : list R :=
  fold_left
    (λ acc '(n, l),
       vadd acc (map (λ ph, n * prim_derivative (h l) ph log10_ens order)%R phases))
    (zip (norms_call (norms t) log10_ens) (primitives t))
    (zeros_like phases).

(** [LCTemplate.single_component]. *)
Definition single_component (h : loc → P) (t : Tmpl) (index : Z)
    (phases : list R) (log10_ens : R) (add_bg : bool) : result (list R) :=
  let n := norms_call (norms t) log10_ens in
  l ← py_index (primitives t) index;
  ni ← py_index n index;
  let rvals := map (λ v, v * ni)%R (prim_eval h l phases log10_ens) in
  if add_bg then Ok (map (λ v, v + np_sum n)%R rvals)
  else Ok rvals.

(** *** The evaluation cache *)

(** [set_cache]: the grid is [self(np.linspace(0, 1, ncache + 1))], at the
    default energy 3 and with the background. *)
Definition set_cache (order : Z) : Mth unit :=
  t ← get_self;
  h ← get_heap;
  grid ← lift (linspace01 (ncache t + 1));
  v ← lift (if decide (order = 0)%Z then call_direct h t grid 3 false
            else Ok (derivative_direct h t grid 3 order));
  put_self (with_cache_dirty (with_cache t (<[order := v]> (_cache t)))
              (<[order := false]> (_cache_dirty t))).

(** [self._cache_dirty[order]]: a missing key is created with True. *)
Definition read_dirty (order : Z) : Mth bool :=
  t ← get_self;
  match _cache_dirty t !! order with
  | Some b => mret b
  | None =>
      _ ← put_self (with_cache_dirty t (<[order := true]> (_cache_dirty t)));
      mret true
  end.

(** [self._cache[order]]. *)
Definition read_cache (order : Z) : Mth (list R) :=
  t ← get_self;
  match _cache t !! order with
  | Some c => mret c
  | None => raise KeyError
  end.

Definition get_cache (order : Z) : Mth (list R) :=
  t ← get_self;
  let ncache := ncache t in
  dirty ← read_dirty order;
  _ ← (if (dirty : bool) then set_cache order else mret ());
  c ← read_cache order;
  _ ← (if decide (Z.of_nat (length c) ≠ ncache + 1)%Z then set_cache order
       else mret ());
  read_cache order.

Definition nearest_indices (ncache : Z) (phases : list npfloat) : list Z :=
  map (λ x, astype_int (np_add (np_mul x (fin (IZR ncache))) (fin (1 / 2)))) phases.

Definition eval_cache (phases : list npfloat) (order : Z) : Mth (list npfloat) :=
  t ← get_self;
  let ncache := ncache t in
  let interpolation := interpolation t in
  cached_values ← get_cache order;
  if decide (interpolation = 0)%Z then
    let indices := nearest_indices ncache phases in
    match np_take cached_values indices with
    | Ok v => mret (fin <$> v)
    | Raise IndexError =>
        let nanphases := count_true (isnan <$> phases) in
        if decide (0 < nanphases) then
          _ ← print (PhasesWereNaN nanphases);
          let indices := zip_with (λ x i, if isnan x then 0%Z else i) phases indices in
          v ← lift (np_take cached_values indices);
          mret (fin <$> v)
        else raise IndexError
    | Raise e => raise e
    end
  else if decide (interpolation = 1)%Z then
    let indices := map (λ x, np_mul x (fin (IZR ncache))) phases in
    let indices_lo := astype_int <$> indices in
    let dhi := zip_with (λ i lo, np_sub i (fin (IZR lo))) indices indices_lo in
    let dlo := map (np_sub (fin 1)) dhi in
    lo ← lift (np_take cached_values indices_lo);
    hi ← lift (np_take cached_values ((λ i, i + 1)%Z <$> indices_lo));
    mret (zip_with np_add (zip_with np_mul (fin <$> lo) dlo)
                          (zip_with np_mul (fin <$> hi) dhi))
  else raise NotImplementedError.

(** [__call__]. *)
Definition __call__ (phases : list R) (log10_ens : R)
    (suppress_bg use_cache : bool) : Mth (list npfloat) :=
  if use_cache then eval_cache (fin <$> phases) 0
  else
    t ← get_self;
    h ← get_heap;
    v ← lift (call_direct h t phases log10_ens suppress_bg);
    mret (fin <$> v).

(** *** The parameter vector *)

(** The loop of [set_parameters] over the primitives, from offset [start]
    and with the flag [params_ok] so far. *)
Fixpoint set_parameters_loop (prims : list loc) (p : list R) (free : bool)
    (start : nat) (params_ok : bool) : Mth (nat * bool) :=
  match prims with
  | [] => mret (start, params_ok)
  | l :: prims =>
      h ← get_heap;
      let prim := h l in
      let n := length (prim_get_parameters prim free) in
      let '(prim', ok) := prim_set_parameters prim (take n (drop start p)) free in
      _ ← store l prim';
      set_parameters_loop prims p free (start + n) (ok && params_ok)
  end.

Definition set_parameters (p : list R) (free : bool) : Mth bool :=
  t ← get_self;
  '(start, params_ok) ← set_parameters_loop (primitives t) p free 0 true;
  _ ← put_self (with_norms t (norms_set_parameters (norms t) (drop start p) free));
  _ ← mark_cache_dirty;
  mret params_ok.

(** [for prim in self.primitives: prim.set_location((prim.get_location() + shift) % 1)]. *)
Fixpoint shift_locations (prims : list loc) (shift : R) : Mth unit :=
  match prims with
  | [] => mret ()
  | l :: prims =>
      h ← get_heap;
      let new_location := mod1 (get_location (h l) + shift) in
      _ ← store l (set_location (h l) new_location);
      shift_locations prims shift
  end.

Definition set_overall_phase (ph : R) : Mth unit :=
  _ ← mark_cache_dirty;
  t ← get_self;
  l0 ← lift (py_index (primitives t) 0);
  h ← get_heap;
  if shift_mode t then store l0 (prim_set_p0 (h l0) ph)
  else
    let shift := (ph - get_location (h l0))%R in
    shift_locations (primitives t) shift.

(** The least magnitude that a double operation rounds to an infinity:
    halfway from the largest double, [2^1024 - 2^971], to [2^1024]. *)
Definition overflow_bound : R := IZR (2 ^ 1024 - 2 ^ 970).

(** [align_peak]; [nbin = int(1.0 / dphi) + 1] is computed, and unused.  The
    division raises ZeroDivisionError for a zero [dphi]; where the quotient
    overflows to an infinity, for a [dphi] of magnitude up to about
    5.56e-309, [int] raises OverflowError. *)
Definition align_peak (phi dphi : R) : Mth unit :=
  _ ← mark_cache_dirty;
  _ ← (if decide (dphi = 0%R) then raise ZeroDivisionError
       else if decide (overflow_bound <= Rabs (1 / dphi))%R
            then raise OverflowError
            else mret ());
  t ← get_self;
  l0 ← lift (py_index (primitives t) 0);
  h ← get_heap;
  let shift := (-1 * get_location (h l0))%R in
  shift_locations (primitives t) shift.

(** *** Structural edits *)

Definition swap_primitive (index : Z) (ptype : ptype) : Mth unit :=
  t ← get_self;
  i ← lift (py_norm_index (length (primitives t)) index);
  l ← lift (py_index (primitives t) index);
  h ← get_heap;
  l' ← alloc (convert_primitive (h l) ptype);
  t ← get_self;
  put_self (with_primitives t (<[i := l']> (primitives t))).

(** [[deepcopy(p) for p in ls]]. *)
Fixpoint deepcopy_all (ls : list loc) : Mth (list loc) :=
  match ls with
  | [] => mret []
  | l :: ls => l' ← deepcopy l; ls' ← deepcopy_all ls; mret (l' :: ls')
  end.

(** The primitives that [[... for ip, p in enumerate(prims) if not index == ip]]
    keeps. *)
Definition retained (prims : list loc) (index : Z) : list loc :=
  snd <$> filter (λ '(ip, _), index ≠ Z.of_nat ip) (imap (λ ip l, (ip, l)) prims).

Definition delete_primitive (index : Z) (inplace : bool) : Mth (option Tmpl) :=
  t ← get_self;
  let prims := primitives t in
  if decide (length prims = 1) then raise ValueError
  else
    let index := if decide (index < 0)%Z then (index + Z.of_nat (length prims))%Z
                 else index in
    newprims ← deepcopy_all (retained prims index);
    let newnorms := delete_component (norms t) index in
    if inplace then
      t ← get_self;
      _ ← put_self (with_norms (with_primitives t newprims) newnorms);
      mret None
    else
      h ← get_heap;
      nt ← lift (__init__ false h newprims (NormsObj newnorms));
      mret (Some nt).

Definition add_primitive (prim : loc) (norm : R) (inplace : bool)
    : Mth (option Tmpl) :=
  t ← get_self;
  copies ← deepcopy_all (primitives t);
  let nprims := copies ++ [prim] in
  let nnorms := add_component (norms t) norm in
  if inplace then
    t ← get_self;
    _ ← put_self (with_primitives (with_norms t nnorms) nprims);
    mret None
  else
    h ← get_heap;
    nt ← lift (__init__ false h nprims (NormsObj nnorms));
    mret (Some nt).

(** *** The random sampler *)

(** The [log10_ens] argument of [random]: a scalar, or a vector
    ([hasattr(log10_ens, '__len__')]). *)
Inductive energies :=
  | EnScalar (e : R)
  | EnVector (es : list R).

(** [a.sum(axis=0)] for an array of shape (len rows, n). *)
Definition sum_axis0 (n : nat) (rows : list (list R)) : list R :=
  foldr (zip_with Rplus) (replicate n 0%R) rows.

(** [np.cumsum(rows, axis=0)]. *)
Fixpoint cumsum_from (acc : list npfloat) (rows : list (list npfloat))
    : list (list npfloat) :=
  match rows with
  | [] => []
  | r :: rows => let acc := zip_with np_add acc r in acc :: cumsum_from acc rows
  end.

Definition cumsum_axis0 (rows : list (list npfloat)) : list (list npfloat) :=
  match rows with
  | [] => []
  | r :: rows => r :: cumsum_from r rows
  end.

(** [np.allclose(a, 1)], with numpy's rtol=1e-05 and atol=1e-08. *)
Definition allclose1 (a : list npfloat) : bool :=
  forallb (λ x, match x with
                | fin v => bool_decide (Rabs (v - 1) <= / 100000000 + / 100000 * Rabs 1)%R
                | nan => false
                end) a.

(** [norms / N * nDC], entry by entry: where [N] is zero, [x / N] is inf or
    nan and its product with [nDC = weight * N = 0] is nan. *)
Definition partition_row (row N nDC : list R) : list npfloat :=
  zip_with (λ x '(Nj, d), if decide (Nj = 0%R) then nan else fin (x / Nj * d)%R)
    row (zip N nDC).

(** [for i in np.arange(len(self.primitives))[::-1]: mask = Q < cpp[i]; comps[mask] = i],
    [idx] being the indices still to visit. *)
Fixpoint assign_loop (Q : list R) (cpp : list (list npfloat)) (idx : list nat)
    (comps : list Z) : result (list Z) :=
  match idx with
  | [] => Ok comps
  | i :: idx =>
      row ← py_index cpp (Z.of_nat i);
      let mask := zip_with (λ q c, np_lt (fin q) c) Q row in
      assign_loop Q cpp idx
        (zip_with (λ (m : bool) c, if m then Z.of_nat i else c) mask comps)
  end.

(** [assert(not np.any(np.isnan(rvals)))]; what passes is an array of reals. *)
Definition assert_no_nan (rvals : list npfloat) : result (list R) :=
  mapM (λ x, match x with fin r => Ok r | nan => Raise AssertionError end) rvals.

(** [for iprim, prim in enumerate(self.primitives): ...]. *)
Fixpoint sample_loop (iprims : list (nat * loc)) (comps : list Z)
    (log10_ens : list R) (rvals : list npfloat) : Mth (list npfloat) :=
  match iprims with
  | [] => mret rvals
  | (iprim, l) :: iprims =>
      let mask := (λ c, bool_decide (c = Z.of_nat iprim)) <$> comps in
      v ← random_of l (count_true mask) (select mask log10_ens);
      rvals ← lift (np_assign_mask rvals mask (fin <$> v));
      sample_loop iprims comps log10_ens rvals
  end.

Definition random (n : nat) (weights : option (list R)) (log10_ens : energies)
    (return_partition : bool) : Mth (list R * option (list Z)) :=
  t ← get_self;
  let nprims := length (primitives t) in
  if decide (nprims = 0) then
    v ← rand n;
    mret (v, if return_partition then Some [Z.of_nat n] else None)
  else
    weights ← match weights with
              | None => mret (replicate n 1%R)
              | Some ws => if decide (length ws ≠ n) then raise ValueError else mret ws
              end;
    log10_ens ← match log10_ens with
                | EnVector es => if decide (length es ≠ n) then raise ValueError
                                 else mret es
                | EnScalar e => mret (replicate n e)
                end;
    let norms := norms_call_vec (norms t) log10_ens in
    let N := sum_axis0 n norms in
    let nDC := zip_with Rmult weights N in
    let pDC := map (λ x, 1 - x)%R nDC in
    let partition_probs := map (λ row, partition_row row N nDC) norms ++ [fin <$> pDC] in
    let cpp := cumsum_axis0 partition_probs in
    last_row ← lift (py_index cpp (-1));
    _ ← (if allclose1 last_row then mret () else raise AssertionError);
    let comps := replicate n (Z.of_nat nprims) in
    Q ← rand n;
    comps ← lift (assign_loop Q cpp (reverse (seq 0 nprims)) comps);
    let rvals := replicate n nan in
    rvals ← sample_loop (imap (λ i l, (i, l)) (primitives t)) comps log10_ens rvals;
    let mask := (λ c, bool_decide (c = Z.of_nat nprims)) <$> comps in
    v ← rand (count_true mask);
    rvals ← lift (np_assign_mask rvals mask (fin <$> v));
    rvals ← lift (assert_no_nan rvals);
    mret (rvals, if return_partition then Some comps else None).

(** [LCBridgeTemplate.random]. *)
Definition LCBridgeTemplate_random (n : nat) (weights : option (list R))
    (return_partition : bool) : Mth (list R * option (list Z)) :=
  raise NotImplementedError.

End methods.

(** ** GaussianPrior *)

Module GaussianPrior.

(** [mod] is a keyword of the number notations: the attribute is [mod_]. *)
Record t := mk {
  x0 : list R;
  s0 : list R;
  mod_ : list bool;
  mask : list bool;
}.

(** [np.where(c, a, b)] on arrays of one shape. *)
Definition np_where (c : list bool) (a b : list R) : result (list R) :=
  if decide (length c = length a ∧ length a = length b) then
    Ok (zip_with (λ (ci : bool) '(ai, bi), if ci then ai else bi) c (zip a b))
  else Raise ValueError.

(** [num / den] on arrays of one shape. *)
Definition vdiv (num den : list R) : result (list R) :=
  if decide (length num = length den) then
    if decide (Exists (λ d, d = 0%R) den) then Raise NonFinite
    else Ok (zip_with Rdiv num den)
  else Raise ValueError.

Definition vsub (a b : list R) : result (list R) :=
  if decide (length a = length b) then Ok (zip_with Rminus a b)
  else Raise ValueError.

Definition __init__ (locations widths : list R) (mod_ : list bool)
    (mask : option (list bool)) : result t :=
  x0 ← np_where mod_ (mod1 <$> locations) locations;
  let s0 := map (λ w, w * sqrt 2)%R widths in
  match mask with
  | None => Ok (mk x0 s0 mod_ (replicate (length locations) true))
  | Some mask =>
      x0 ← np_mask x0 mask;
      s0 ← np_mask s0 mask;
      mod_ ← np_mask mod_ mask;
      Ok (mk x0 s0 mod_ mask)
  end.

Definition gradient (self : t) (parameters : list R) : result (list R) :=
  if negb (existsb (λ b : bool, b) (mask self)) then Ok (zeros_like parameters)
  else
    parameters ← np_mask parameters (mask self);
    parameters ← np_where (mod_ self) (mod1 <$> parameters) parameters;
    let rvals := replicate (length (mask self)) 0%R in
    diff ← vsub parameters (x0 self);
    vals ← vdiv (map (Rmult 2) diff) (map (λ s, s ^ 2)%R (s0 self));
    np_assign_mask rvals (mask self) vals.

End GaussianPrior.


(** * More of the module

    The rest of the methods that the template classes and the prior define
    on top of what primitives and norm maps offer. *)

From stdpp Require Import sorting.

(** ** More of the external interface *)

Class LCPrimitiveMore (P : Type) := {
  get_location_error : P → R * R;   (* p.get_location(error=True): (value, error) *)
  (* p.get_gauss_prior_parameters(): locations, widths, mods, enables *)
  get_gauss_prior_parameters : P → list R * list R * list bool * list bool;
  new_primitive : ptype → list R → P;           (* LCGaussian(p=[...]) and the like *)
}.

Class NormMapMore (NM : Type) := {
  norms_copy : NM → NM;                               (* norms.copy() *)
  norms_call0 : NM → list R;                          (* norms() *)
  (* norms.get_parameters(free); None for the call without argument *)
  norms_get_parameters : NM → option bool → list R;
  reorder_components : NM → list nat → NM;            (* returns the new norm map *)
}.

(** ** numpy, continued *)

(** [np.concatenate(arrays)] of one-dimensional arrays: an empty sequence
    is refused. *)
Definition np_concatenate {A} (arrays : list (list A)) : result (list A) :=
  match arrays with
  | [] => Raise ValueError
  | _ => Ok (concat arrays)
  end.

(** [a * b] on one-dimensional arrays: equal lengths, or one of them of
    length 1, which is broadcast. *)
Definition np_mul_arrays (a b : list R) : result (list R) :=
  if decide (length a = length b) then Ok (zip_with Rmult a b)
  else match a, b with
       | [x], _ => Ok (map (Rmult x) b)
       | _, [y] => Ok (map (λ x, x * y)%R a)
       | _, _ => Raise ValueError
       end.

(** [np.argsort(keys)].  numpy's default sort is not stable: where keys are
    equal the order of their indices is numpy's choice, here that of a
    merge sort; on distinct keys there is one answer. *)
Definition argsort (keys : list R) : list nat :=
  snd <$> merge_sort (λ a b : R * nat, a.1 <= b.1)%R (zip keys (seq 0 (length keys))).

(** [min(xs)] of Python: the first of the smallest; an empty sequence is
    refused. *)
Definition py_min (xs : list R) : result R :=
  match xs with
  | [] => Raise ValueError
  | x :: xs => Ok (fold_left (λ m y, if decide (y < m)%R then y else m) xs x)
  end.

Section more_methods.
Context {P NM G : Type}
  `{!NumpyRandom G, !LCPrimitive P G, !NormMap NM,
    !LCPrimitiveMore P, !NormMapMore NM}.

#[local] Abbreviation Tmpl := (LCTemplate NM).
#[local] Abbreviation Mth := (M P NM G).

(** *** Items and copies *)

(** What [template[index]] gives: a primitive, or the norm map. *)
Inductive item :=
  | ItemPrim (l : loc)
  | ItemNorms (nm : NM).

(** [__getitem__]. *)
Definition __getitem__ (t : Tmpl) (index : Z) : result item :=
  let n := Z.of_nat (length (primitives t)) in
  let index := if decide (index < 0)%Z then (index + (n + 1))%Z else index in
  if decide (index = n) then Ok (ItemNorms (norms t))
  else l ← py_index (primitives t) index; Ok (ItemPrim l).

(** [copy]: [self.__class__(prims, self.norms.copy())]. *)
Definition copy : Mth Tmpl :=
  t ← get_self;
  prims ← deepcopy_all (primitives t);
  h ← get_heap;
  let nrm := NormsObj (norms_copy (norms t)) in
  lift (if has_bridge t then LCBridgeTemplate__init__ h prims nrm
        else __init__ false h prims nrm).

(** *** Parameters and priors *)

(** [get_parameters]. *)
Definition get_parameters (h : loc → P) (t : Tmpl) (free : bool)
    : result (list R) :=
  ps ← np_concatenate (map (λ l, prim_get_parameters (h l) free) (primitives t));
  Ok (ps ++ norms_get_parameters (norms t) (Some free)).

(** [get_gaussian_prior]: the prior parameters of the primitives, then
    zeros and False for the parameters of the norms. *)
Definition get_gaussian_prior (h : loc → P) (t : Tmpl)
    : result GaussianPrior.t :=
  let ps := map (λ l, get_gauss_prior_parameters (h l)) (primitives t) in
  let locs := map (λ '(l, _, _, _), l) ps in
  let widths := map (λ '(_, w, _, _), w) ps in
  let mods := map (λ '(_, _, m, _), m) ps in
  let enables := map (λ '(_, _, _, e), e) ps in
  let t0 := zeros_like (norms_get_parameters (norms t) None) in
  let f0 := map (λ _, false) t0 in
  locs ← np_concatenate locs;
  widths ← np_concatenate widths;
  mods ← np_concatenate mods;
  enables ← np_concatenate enables;
  GaussianPrior.__init__ (locs ++ t0) (widths ++ t0) (mods ++ f0)
    (Some (enables ++ f0)).

(** *** Locations and amplitudes *)

(** [get_location]. *)
Definition LCTemplate_get_location (h : loc → P) (t : Tmpl) : result R :=
  l ← py_index (primitives t) 0; Ok (get_location (h l)).

(** [get_amplitudes]. *)
Definition get_amplitudes (h : loc → P) (t : Tmpl) (log10_ens : R)
    : result (list R) :=
  let ampls := map (λ l, prim_call (h l) (get_location (h l)) log10_ens)
                 (primitives t) in
  np_mul_arrays (norms_call (norms t) log10_ens) ampls.

(** The loop of [Delta]: [prim0] ends at the first primitive of smallest
    location, [prim1] at one of largest location. *)
Definition Delta_loop (h : loc → P) (prims : list loc) (prim0 prim1 : loc)
    : loc * loc :=
  fold_left
    (λ '(prim0, prim1) p,
       let prim0 := if decide (get_location (h p) < get_location (h prim0))%R
                    then p else prim0 in
       let prim1 := if decide (get_location (h p) > get_location (h prim1))%R
                    then p else prim1 in
       (prim0, prim1))
    prims (prim0, prim1).

(** [Delta]. *)
Definition Delta (h : loc → P) (t : Tmpl) (delta : bool) : result (R * R) :=
  if decide (length (primitives t) = 1) then Ok ((-1)%R, 0%R)
  else
    prim0 ← py_index (primitives t) 0;
    prim1 ← py_index (primitives t) (-1);
    let '(prim0, prim1) := Delta_loop h (primitives t) prim0 prim1 in
    let '(p1, e1) := get_location_error (h prim0) in
    let '(p2, e2) := get_location_error (h prim1) in
    if delta then Ok (p1, e1)
    else Ok ((p2 - p1)%R, sqrt (e1 ^ 2 + e2 ^ 2)).

(** *** Integrals and derivatives *)

(** [integrate], for one energy. *)
Definition integrate (h : loc → P) (t : Tmpl) (phi1 phi2 log10_ens : R)
    (suppress_bg : bool) : result R :=
  let norms := norms_call (norms t) log10_ens in
  let tot := np_sum norms in
  let dphi := (phi2 - phi1)%R in
  let rvals :=
    fold_left (λ acc '(n, l), (acc + n * prim_integrate (h l) phi1 phi2 log10_ens)%R)
      (zip norms (primitives t)) 0%R in
  if suppress_bg then fdiv rvals tot
  else Ok ((1 - tot) * dphi + rvals)%R.

(** [cdf]. *)
Definition cdf (h : loc → P) (t : Tmpl) (x log10_ens : R) : result R :=
  integrate h t 0 x log10_ens false.

(** [derivative]. *)
Definition derivative (phases : list R) (log10_ens : R) (order : Z)
    (use_cache : bool) : Mth (list npfloat) :=
  if use_cache then eval_cache (fin <$> phases) order
  else
    t ← get_self;
    h ← get_heap;
    mret (fin <$> derivative_direct h t phases log10_ens order).

(** [LCBridgeTemplate.single_component]. *)
Definition LCBridgeTemplate_single_component (h : loc → P) (t : Tmpl)
    (index : Z) (phases : list R) (log10_ens : R) : result (list R) :=
  '(rvals, norms, norm) ← _get_scales h t phases log10_ens;
  if decide (index < Z.of_nat (length (primitives t)))%Z then
    n ← py_index norms index;
    l ← py_index (primitives t) index;
    Ok (vadd rvals (scale_mul n (prim_eval h l phases log10_ens)))
  else Ok rvals.

(** *** Reordering *)

(** [order_primitives]. *)
Definition order_primitives (order : Z) : Mth unit :=
  t ← get_self;
  h ← get_heap;
  indices ←
    (if decide (order = 0)%Z then
       mret (argsort (map (λ l, get_location (h l)) (primitives t)))
     else if decide (order = 1)%Z then
       a ← lift (get_amplitudes h t 3);
       mret (reverse (argsort a))
     else if decide (order = 2)%Z then
       mret (reverse (argsort (norms_call0 (norms t))))
     else raise NotImplementedError);
  prims ← lift (mapM (λ i : nat, py_index (primitives t) (Z.of_nat i)) indices);
  put_self (with_norms (with_primitives t prims)
              (reorder_components (norms t) indices)).

(** *** Convenience constructors *)

(** [get_gauss2]; [skew] is a number, False being 0. *)
Definition get_gauss2 (pulse_frac x1 x2 ratio width1 width2 : R)
    (lorentzian : bool) (bridge_frac skew : R) : Mth Tmpl :=
  s ← lift (if decide (1 + ratio = 0)%R then Raise ZeroDivisionError
            else Ok (pulse_frac / (1 + ratio))%R);
  let n1 := (ratio * (1 - bridge_frac) * s)%R in
  let n2 := (1 * (1 - bridge_frac) * s)%R in
  let '(prim, p1, p2) :=
    if decide (skew ≠ 0%R) then
      (if lorentzian then LCLorentzian2 else LCGaussian2,
       [width1; width1 * (1 + skew); x1]%R,
       [width2 * (1 + skew); width2; x2]%R)
    else if lorentzian then
      (LCLorentzian, [width1 * (2 * PI); x1]%R, [width2 * (2 * PI); x2]%R)
    else (LCGaussian, [width1; x1], [width2; x2]) in
  if decide (bridge_frac > 0)%R then
    let nb := (bridge_frac * pulse_frac)%R in
    b ← alloc (new_primitive LCGaussian [1 / 10; (x2 + x1) / 2]%R);
    a ← alloc (new_primitive prim p1);
    c ← alloc (new_primitive prim p2);
    h ← get_heap;
    lift (__init__ false h [a; b; c] (NormsTuple [n1; nb; n2]))
  else
    a ← alloc (new_primitive prim p1);
    c ← alloc (new_primitive prim p2);
    h ← get_heap;
    lift (__init__ false h [a; c] (NormsTuple [n1; n2])).

(** [get_gauss1]. *)
Definition get_gauss1 (pulse_frac x1 width1 : R) : Mth Tmpl :=
  a ← alloc (new_primitive LCGaussian [width1; x1]);
  h ← get_heap;
  lift (__init__ false h [a] (NormsTuple [pulse_frac])).

(** [get_2pb]. *)
Definition get_2pb (pulse_frac : R) (lorentzian : bool) : Mth Tmpl :=
  let prim := if lorentzian then LCLorentzian else LCGaussian in
  p1 ← alloc (new_primitive prim [3 / 100; 1 / 10]%R);
  b ← alloc (new_primitive LCGaussian [15 / 100; 3 / 10]%R);
  p2 ← alloc (new_primitive prim [3 / 100; 55 / 100]%R);
  h ← get_heap;
  lift (__init__ false h [p1; b; p2]
          (NormsTuple [3 / 10 * pulse_frac; 4 / 10 * pulse_frac;
                       3 / 10 * pulse_frac]%R)).

End more_methods.

Arguments item : clear implicits.
Arguments ItemPrim {NM} l.
Arguments ItemNorms {NM} nm.

(** ** GaussianPrior, continued *)

Module GaussianPriorMore.
Import GaussianPrior.

(** [__len__]: the number of parameters with a prior. *)
Definition __len__ (self : t) : nat := count_true (mask self).

(** [__call__]: the penalty. *)
Definition __call__ (self : t) (parameters : list R) : result R :=
  if negb (existsb (λ b : bool, b) (mask self)) then Ok 0%R
  else
    parameters ← np_mask parameters (mask self);
    parameters ← np_where (mod_ self) (mod1 <$> parameters) parameters;
    diff ← vsub parameters (x0 self);
    q ← vdiv diff (s0 self);
    Ok (np_sum (map (λ v, v ^ 2)%R q)).

End GaussianPriorMore.
(** ** What the specification writes, as definitions to compare with *)

(** [sum_i w_i * primitive_i(phase, energy)], the weights and the primitives
    paired by position. *)
Definition weighted_sum {P G} `{!LCPrimitive P G} (h : loc → P) (ws : list R)
    (prims : list loc) (ph e : R) : R :=
  np_sum (zip_with (λ w l, w * prim_call (h l) ph e)%R ws prims).

(** A cache lookup with its default: is this derivative order dirty? *)
Definition is_dirty {NM} (t : LCTemplate NM) (order : Z) : bool :=
  default true (_cache_dirty t !! order).


(** The slice of the flattened parameter vector [p] that each primitive
    gets: primitive 0's parameters first, then primitive 1's, and so on,
    each slice as long as the primitive's own parameter vector. *)
Fixpoint param_slices {P G} `{!LCPrimitive P G} (h : loc → P) (prims : list loc)
    (p : list R) (free : bool) (start : nat) : list (list R) :=
  match prims with
  | [] => []
  | l :: prims =>
      let n := length (prim_get_parameters (h l) free) in
      take n (drop start p) :: param_slices h prims p free (start + n)
  end.

(** How many entries of the vector the primitives take together. *)
Fixpoint params_len {P G} `{!LCPrimitive P G} (h : loc → P) (prims : list loc)
    (free : bool) : nat :=
  match prims with
  | [] => 0
  | l :: prims => length (prim_get_parameters (h l) free) + params_len h prims free
  end.

(** An index that numpy accepts on an array of [n] entries. *)
Definition in_range (n : nat) (i : Z) : Prop :=
  (- Z.of_nat n ≤ i < Z.of_nat n)%Z.

(** A grid marked clean is there: what the constructor establishes and the
    methods keep. *)
Definition cache_wf {NM} (t : LCTemplate NM) : Prop :=
  ∀ order, _cache_dirty t !! order = Some false → is_Some (_cache t !! order).

(** The grid that [set_cache] computes. *)
Definition grid_values {P NM G} `{!LCPrimitive P G, !NormMap NM}
    (h : loc → P) (t : LCTemplate NM) (order : Z) : result (list R) :=
  grid ← linspace01 (ncache t + 1);
  if decide (order = 0)%Z then call_direct h t grid 3 false
  else Ok (derivative_direct h t grid 3 order).

(** The world after one more line on the standard output. *)
Definition printed {P NM G} (w : world P NM G) (m : message) : world P NM G :=
  mkWorld (self w) (heap w) (next_loc w) (np_random w) (stdout w ++ [m]).

(** The index array of the retry: 0 where the phase is NaN. *)
Definition remapped (phases : list npfloat) (indices : list Z) : list Z :=
  zip_with (λ x i, if isnan x then 0%Z else i) phases indices.

(** [copies] are new objects of the store, equal in content to the objects
    [kept], and no object that existed has changed. *)
Definition deep_copies {P NM G} (w w' : world P NM G) (kept copies : list loc) : Prop :=
  copies = seq (next_loc w) (length kept)
  ∧ (∀ i l, kept !! i = Some l → heap w' (next_loc w + i) = heap w l)
  ∧ (∀ l, l < next_loc w → heap w' l = heap w l).

(** The index that [delete_primitive] works with, negative indices counted
    from the end. *)
Definition normalized (n : nat) (index : Z) : Z :=
  if decide (index < 0)%Z then (index + Z.of_nat n)%Z else index.

(** The weighted sum where the weight of a primitive may vary with the
    phase: [sum_i f_i(phase) * primitive_i(phase, energy)]. *)
Definition mixture {P G} `{!LCPrimitive P G} (h : loc → P) (fs : list (R → R))
    (prims : list loc) (ph e : R) : R :=
  np_sum (zip_with (λ f l, f ph * prim_call (h l) ph e)%R fs prims).

(** The scale [s], a scalar or an array over [phases], is the function [f]
    of the phase. *)
Definition scale_is (phases : list R) (s : scale) (f : R → R) : Prop :=
  match s with
  | Scalar c => ∀ ph, f ph = c
  | Arr a => a = map f phases
  end.

(** The interval mask of the bridge, both ends included; the interval
    wraps when [l2] does not follow [l1]. *)
Definition bridge_mask (l1 l2 ph : R) : bool :=
  if decide (l2 > l1)%R then bool_decide (ph >= l1)%R && bool_decide (ph <= l2)%R
  else bool_decide (ph >= l1)%R || bool_decide (ph <= l2)%R.

(** The geometry of the bridge between the primitives at [a] and [b]
    (p1 and p2), at energy [e]: the interval length, the determinant
    [d = f11*f22 - f12*f21] of the boundary values, the term
    [i1*(f22-f21) + i2*(f11-f12)] of the integrals, the pedestal scale [k]
    and the rescale deltas [dn1], [dn2]. *)
Section geometry.
Context {P G : Type} `{!LCPrimitive P G}.
Variables (h : loc → P) (a b : loc) (e : R).

Definition interval_length : R :=
  let l1 := get_location (h a) in
  let l2 := get_location (h b) in
  ((l2 - l1) + of_bool (bool_decide (l2 < l1)))%R.

Definition determinant : R :=
  let l1 := get_location (h a) in
  let l2 := get_location (h b) in
  (prim_call (h a) l1 e * prim_call (h b) l2 e
   - prim_call (h a) l2 e * prim_call (h b) l1 e)%R.

Definition integral_term : R :=
  let l1 := get_location (h a) in
  let l2 := get_location (h b) in
  let i1 := if decide (l2 > l1)%R then prim_integrate (h a) l1 l2 e
            else (1 - prim_integrate (h a) l2 l1 e)%R in
  let i2 := if decide (l2 > l1)%R then prim_integrate (h b) l1 l2 e
            else (1 - prim_integrate (h b) l2 l1 e)%R in
  (i1 * (prim_call (h b) l2 e - prim_call (h b) l1 e)
   + i2 * (prim_call (h a) l1 e - prim_call (h a) l2 e))%R.

(** The denominator of [k]: [1 - (i1*(f22-f21) + i2*(f11-f12)) / (d*delta)]. *)
Definition pedestal_denominator : R :=
  (1 - integral_term / (determinant * interval_length))%R.

Definition pedestal_scale (nped : R) : R :=
  (nped * (1 / pedestal_denominator))%R.

Definition rescale1 (nped : R) : R :=
  let l1 := get_location (h a) in
  let l2 := get_location (h b) in
  (pedestal_scale nped / (interval_length * determinant)
   * (prim_call (h b) l1 e - prim_call (h b) l2 e))%R.

Definition rescale2 (nped : R) : R :=
  let l1 := get_location (h a) in
  let l2 := get_location (h b) in
  (pedestal_scale nped / (interval_length * determinant)
   * (prim_call (h a) l2 e - prim_call (h a) l1 e))%R.

(** What the bridge adds to the mixture inside the interval: the pedestal
    and the rescaled parts of p1 and p2. *)
Definition bridge_correction (nped ph : R) : R :=
  (pedestal_scale nped / interval_length
   + rescale1 nped * prim_call (h a) ph e
   + rescale2 nped * prim_call (h b) ph e)%R.

End geometry.

(** Wrapping modulo 1, where the periodic flag is set. *)
Definition wrap (periodic : bool) (x : R) : R := if periodic then mod1 x else x.

(** The entry of the gradient of the prior for one parameter, as the code
    computes it: the stored width is [width * sqrt 2]. *)
Definition gradient_entry (enabled periodic : bool) (param location width : R) : R :=
  if enabled then
    (2 * (wrap periodic param - wrap periodic location) / (width * sqrt 2) ^ 2)%R
  else 0%R.

(** The wrapped entries of an array, before the mask selects. *)
Definition wrapped (mods : list bool) (a : list R) : list R :=
  zip_with (λ (ci : bool) '(ai, bi), if ci then ai else bi) mods
    (zip (mod1 <$> a) a).

(** ** The random sampler, as the specification reads it *)

(** The weights and the energies of the photons, with their defaults. *)
Definition weights_of (n : nat) (weights : option (list R)) : list R :=
  default (replicate n 1%R) weights.


(** An array given by its entries. *)
Definition tab {A} (n : nat) (f : nat → A) : list A := map f (seq 0 n).







(** ** More of the module, as a reader states it *)

(** Linear interpolation on a grid of [n + 1] points over a turn: the two
    neighbours of [x * n], weighted by the distance to the other one. *)
Definition lerp (grid : list R) (n : Z) (x : R) : R :=
  let lo := Z.to_nat (Int_part (x * IZR n)) in
  let d := (x * IZR n - IZR (Int_part (x * IZR n)))%R in
  (nth lo grid 0 * (1 - d) + nth (S lo) grid 0 * d)%R.

(** A method that changes nothing but the state of the random generator. *)
Definition only_draws {P NM G A} (m : M P NM G A) : Prop :=
  ∀ w, self (m w).2 = self w ∧ heap (m w).2 = heap w
       ∧ next_loc (m w).2 = next_loc w ∧ stdout (m w).2 = stdout w.

(** The integrals of p1 and p2 over the bridge interval, which wraps when
    [l2] does not follow [l1]. *)
Definition bridge_integral {P G} `{!LCPrimitive P G} (h : loc → P) (a b : loc)
    (e : R) (l : loc) : R :=
  let l1 := get_location (h a) in
  let l2 := get_location (h b) in
  if decide (l2 > l1)%R then prim_integrate (h l) l1 l2 e
  else (1 - prim_integrate (h l) l2 l1 e)%R.

(** [sum_i w_i * d^order primitive_i / dphase^order], the weights and the
    primitives paired by position. *)
Definition weighted_derivative {P G} `{!LCPrimitive P G} (h : loc → P)
    (ws : list R) (prims : list loc) (ph e : R) (order : Z) : R :=
  np_sum (zip_with (λ w l, w * prim_derivative (h l) ph e order)%R ws prims).

(** [sum_i w_i * integral of primitive_i over [a, b]]. *)
Definition weighted_integral {P G} `{!LCPrimitive P G} (h : loc → P)
    (ws : list R) (prims : list loc) (a b e : R) : R :=
  np_sum (zip_with (λ w l, w * prim_integrate (h l) a b e)%R ws prims).

(** The index that [template[index]] reads in the list of primitives:
    a negative index has [len + 1] added, and Python counts what is still
    negative from the end of the list. *)
Definition item_index (n index : Z) : Z :=
  if decide (0 ≤ index)%Z then index
  else if decide (- (n + 1) ≤ index)%Z then (index + (n + 1))%Z
  else (index + (n + 1) + n)%Z.

(** The terms of the penalty of the prior, one per parameter:
    [((wrapped_param - target) / (width * sqrt 2)) ^ 2]. *)
Definition penalty_terms (mods : list bool) (params locations widths : list R)
    : list R :=
  map (λ q, q ^ 2)%R
    (zip_with Rdiv
       (zip_with Rminus (wrapped mods params) (wrapped mods locations))
       (map (λ w, w * sqrt 2)%R widths)).
(** ** A concrete instance for the examples

    Polynomial light curves: [1 + slope (x - 1/2) + curv ((x - 1/2)^2 - 1/12)]
    integrates to 1 over a turn; [integrate] is its exact integral.  The
    norm map holds its weights as they are.  The generator returns 1/2. *)

Module Fixture.

Record Poly := mkPoly { slope : R; curv : R; location : R }.

Definition poly_call (p : Poly) (x e : R) : R :=
  (1 + slope p * (x - 1 / 2) + curv p * ((x - 1 / 2) ^ 2 - 1 / 12))%R.

Definition poly_integrate (p : Poly) (a b e : R) : R :=
  ((b - a)
   + slope p * (((b - 1 / 2) ^ 2 - (a - 1 / 2) ^ 2) / 2)
   + curv p * (((b - 1 / 2) ^ 3 - (a - 1 / 2) ^ 3) / 3 - (b - a) / 12))%R.

Definition poly_derivative (p : Poly) (x e : R) (order : Z) : R :=
  if decide (order = 1)%Z then (slope p + 2 * curv p * (x - 1 / 2))%R
  else if decide (order = 2)%Z then (2 * curv p)%R
  else 0%R.

Definition poly_set_parameters (p : Poly) (v : list R) (free : bool) : Poly * bool :=
  match v with
  | [s; c; x] => (mkPoly s c (mod1 x), bool_decide (0 <= c)%R)
  | _ => (p, false)
  end.

Global Instance poly_prim : LCPrimitive Poly unit := {|
  prim_call := poly_call;
  prim_derivative := poly_derivative;
  prim_integrate := poly_integrate;
  get_location := location;
  set_location := λ p x, mkPoly (slope p) (curv p) x;
  prim_shift_mode := λ _, false;
  prim_set_p0 := λ p v, mkPoly v (curv p) (location p);
  prim_get_parameters := λ p _, [slope p; curv p; location p];
  prim_set_parameters := poly_set_parameters;
  prim_random := λ p n _ g, (replicate n (location p), g);
  convert_primitive := λ p _, p;
|}.

(** Dropping a weight rescales the others so that the total is kept. *)
Definition weights_delete (nm : list R) (i : Z) : list R :=
  let rest := delete (Z.to_nat i) nm in
  map (λ x, x * np_sum nm / np_sum rest)%R rest.

Global Instance weights_norm : NormMap (list R) := {|
  norms_call := λ nm _, nm;
  norms_call_vec := λ nm es, map (λ x, replicate (length es) x) nm;
  norms_len := length;
  norms_set_parameters := λ nm v _, if decide (length v = length nm) then v else nm;
  delete_component := weights_delete;
  add_component := λ nm x, map (λ y, y * (1 - x))%R nm ++ [x];
  NormAngles := Ok;
|}.

Global Instance half_rand : NumpyRandom unit := {|
  np_random_rand := λ n g, (replicate n (1 / 2)%R, g);
|}.

(** Two primitive objects, at locations 0 and 1 of the store. *)
Definition heap2 (a b : Poly) : loc → Poly :=
  λ l, match l with 0 => a | _ => b end.

Definition template (bridge : bool) (nm : list R) : LCTemplate (list R) :=
  mkLCTemplate [0; 1] nm bridge (if bridge then Some (0, 1) else None)
    false ∅ ∅ 4 0.

Definition world2 (t : LCTemplate (list R)) (a b : Poly) : world Poly (list R) unit :=
  mkWorld t (heap2 a b) 2 () [].

(** A parabola peaking at phase 0 and a line, linked by a bridge. *)
Definition parabola : Poly := mkPoly 0 12 0.
Definition line : Poly := mkPoly 1 0 (1 / 2).
(** Two lines of opposite slopes. *)
Definition rising : Poly := mkPoly 1 0 (1 / 4).
Definition falling : Poly := mkPoly (-1) 0 (3 / 4).

Definition quarter3 : list R := [1 / 4; 1 / 4; 1 / 4]%R.
Definition quarter2 : list R := [1 / 4; 1 / 4]%R.
Definition uneven : list R := [1 / 4; 1 / 8]%R.

End Fixture.

(** ** The concrete instance, continued *)

Module FixtureMore.
Import Fixture.

(** The location is known to 1/100; the prior of a polynomial primitive
    is on its location, periodic, of width 1/10. *)
Global Instance poly_more : LCPrimitiveMore Poly := {|
  get_location_error := λ p, (location p, (1 / 100)%R);
  get_gauss_prior_parameters := λ p, ([location p], [(1 / 10)%R], [true], [true]);
  new_primitive := λ _ p, mkPoly 0 0 (default 0%R (last p));
|}.

Global Instance weights_more : NormMapMore (list R) := {|
  norms_copy := λ nm, nm;
  norms_call0 := λ nm, nm;
  norms_get_parameters := λ nm _, nm;
  reorder_components := λ nm indices, map (λ i, nth i nm 0%R) indices;
|}.

(** The template of the examples with linear interpolation. *)
Definition template_linear (nm : list R) : LCTemplate (list R) :=
  mkLCTemplate [0; 1] nm false None false ∅ ∅ 4 1.

End FixtureMore.

(** * Properties *)

(** ** Running a method *)

Ltac mrun :=
  cbv beta iota zeta delta
    [mbind mret M_bind M_ret result_bind result_ret
     get_self get_heap put_self lift raise store alloc print];
  cbn [self heap next_loc np_random stdout fst snd
       primitives norms has_bridge p1p2 shift_mode _cache _cache_dirty ncache
       interpolation with_primitives with_norms with_p1p2 with_cache
       with_cache_dirty with_cache_properties].

(** Running a computation in the error monad. *)
Ltac rrun := cbv beta iota delta [mbind mret result_bind result_ret].

Section properties.
Context {P NM G : Type} `{!NumpyRandom G, !LCPrimitive P G, !NormMap NM}.

#[local] Abbreviation Tmpl := (LCTemplate NM).
#[local] Abbreviation Mth := (M P NM G).
Implicit Types (w : world P NM G) (t : LCTemplate NM) (h : loc → P).

Lemma deepcopy_run (l : loc) w :
  deepcopy l w
  = (Ok (next_loc w),
     mkWorld (self w) (<[next_loc w:=heap w l]> (heap w)) (S (next_loc w))
       (np_random w) (stdout w)).
Proof. reflexivity. Qed.

(** ** Arrays *)

Lemma vadd_map {A} (f g : A → R) (l : list A) :
  vadd (map f l) (map g l) = map (λ x, f x + g x)%R l.
Proof. unfold vadd. induction l as [|x l IH]; simpl; [done|]. by rewrite IH. Qed.

Lemma lookup_map {A B} (f : A → B) (l : list A) (i : nat) :
  map f l !! i = f <$> l !! i.
Proof. apply list_lookup_fmap. Qed.

Lemma np_sum_cons (x : R) (l : list R) : np_sum (x :: l) = (x + np_sum l)%R.
Proof. reflexivity. Qed.

(** The accumulation loop of [__call__] with scalar weights computes the
    weighted sum at every phase, on top of what [rvals] held. *)
Lemma accumulate_scalars h (phases : list R) (e : R) (ws : list R) :
  ∀ (prims : list loc) (r0 : R → R),
    accumulate h phases e (Scalar <$> ws) prims (map r0 phases)
    = map (λ ph, r0 ph + weighted_sum h ws prims ph e)%R phases.
Proof.
  unfold accumulate, weighted_sum.
  induction ws as [|a ws IH]; intros prims r0.
  - simpl. apply map_ext. intros ph. simpl. lra.
  - destruct prims as [|l prims].
    + simpl. apply map_ext. intros ph. simpl. lra.
    + cbn [fmap list_fmap zip zip_with fold_left scale_mul]. unfold prim_eval.
      rewrite map_map, vadd_map.
      change (zip_with pair (list_fmap R scale Scalar ws) prims)
        with (zip (Scalar <$> ws) prims).
      rewrite (IH prims (λ ph, r0 ph + a * prim_call (h l) ph e)%R).
      apply map_ext. intros ph. rewrite np_sum_cons. lra.
Qed.

(** C1.  On a standard template [__call__] with [use_cache=False] returns,
    at every phase, the weighted sum of the primitives plus the background
    [1 - total], where the weights are [norms(log10_ens)] and [total] is
    their sum; with [suppress_bg=True] it returns the same weighted sum
    divided by [total] instead, and no background term. *)
Theorem C1_call_weighted_sum w (phases : list R) (e : R) :
  has_bridge (self w) = false →
  let ws := norms_call (norms (self w)) e in
  let total := np_sum ws in
  let wsum := λ ph, weighted_sum (heap w) ws (primitives (self w)) ph e in
  __call__ phases e false false w
    = (Ok (fin <$> map (λ ph, wsum ph + (1 - total))%R phases), w)
  ∧ (total ≠ 0%R →
     __call__ phases e true false w
       = (Ok (fin <$> map (λ ph, wsum ph / total)%R phases), w)).
Proof.
  intros Hstd ws total wsum.
  assert (Hacc : accumulate (heap w) phases e (Scalar <$> ws) (primitives (self w))
                   (zeros_like phases) = map wsum phases).
  { unfold zeros_like. rewrite accumulate_scalars. apply map_ext. intros ph.
    unfold wsum. lra. }
  split.
  - unfold __call__, call_direct, _get_scales, LCTemplate_get_scales.
    mrun. rewrite Hstd. fold ws. rewrite Hacc.
    assert (E : map (λ v, 1 - np_sum ws + v)%R (map wsum phases)
                = map (λ ph, wsum ph + (1 - total))%R phases).
    { rewrite map_map. apply map_ext. intros ph. unfold total. lra. }
    by rewrite E.
  - intros Htot.
    unfold __call__, call_direct, _get_scales, LCTemplate_get_scales.
    mrun. rewrite Hstd. fold ws. rewrite Hacc. fold total.
    unfold arr_div. destruct phases as [|ph phases]; [done|].
    cbn [map]. destruct (decide (total = 0%R)) as [|_]; [done|].
    by rewrite map_map.
Qed.


(** ** Single components *)

Lemma py_norm_index_nat (n i : nat) :
  i < n → py_norm_index n (Z.of_nat i) = Ok i.
Proof.
  intros Hi. unfold py_norm_index.
  destruct (decide (Z.of_nat i < 0)%Z) as [|_]; [lia|].
  destruct (decide (0 ≤ Z.of_nat i < Z.of_nat n)%Z) as [_|]; [|lia].
  by rewrite Nat2Z.id.
Qed.

Lemma py_index_nat {A} (a : list A) (i : nat) (x : A) :
  a !! i = Some x → py_index a (Z.of_nat i) = Ok x.
Proof.
  intros Hx. pose proof (lookup_lt_Some _ _ _ Hx) as Hi. unfold py_index.
  destruct (decide (Z.of_nat i < 0)%Z) as [|_]; [lia|].
  destruct (decide (0 ≤ Z.of_nat i < Z.of_nat (length a))%Z) as [_|]; [|lia].
  by rewrite Nat2Z.id, Hx.
Qed.

(** What [single_component] returns: the weighted primitive, and with
    [add_bg] the sum of the weights on top of it. *)
Lemma single_component_value h t (i : nat) (l : loc) (wi : R)
    (phases : list R) (e : R) (add_bg : bool) :
  primitives t !! i = Some l →
  norms_call (norms t) e !! i = Some wi →
  single_component h t (Z.of_nat i) phases e add_bg
  = Ok (map (λ ph, prim_call (h l) ph e * wi
                   + (if add_bg then np_sum (norms_call (norms t) e) else 0))%R
          phases).
Proof.
  intros Hl Hw. unfold single_component.
  rewrite (py_index_nat _ _ _ Hl), (py_index_nat _ _ _ Hw).
  cbn. unfold prim_eval. destruct add_bg; rewrite !map_map; f_equal;
    apply map_ext; intros ph; lra.
Qed.


(** ** Construction *)

Lemma mark_cache_dirty_of_dirty t (order : Z) :
  is_dirty (mark_cache_dirty_of t) order = true.
Proof.
  unfold is_dirty, mark_cache_dirty_of. cbn. rewrite lookup_fmap.
  by destruct (_cache_dirty t !! order).
Qed.

(** With a norm map at hand, construction fails with ValueError exactly
    when the count invariant of the class is violated. *)
Lemma init_validates (cls : bool) h (prims : list loc) (nm : NM) :
  __init__ cls h prims (NormsObj nm) = Raise ValueError
  ↔ if cls then (Z.of_nat (length prims) ≠ Z.of_nat (norms_len nm) - 1)%Z
    else length prims ≠ norms_len nm.
Proof.
  unfold __init__, _sanity_checks. cbn.
  destruct cls; case_decide; cbn; split; try done.
Qed.

Lemma init_ok (cls : bool) h (prims : list loc) (nm : NM) :
  (if cls then (Z.of_nat (length prims) = Z.of_nat (norms_len nm) - 1)%Z
   else length prims = norms_len nm) →
  __init__ cls h prims (NormsObj nm)
  = Ok (mkLCTemplate prims nm cls None
          (existsb (λ l, prim_shift_mode (h l)) prims) ∅ ∅ 1000 1).
Proof.
  intros Hn. unfold __init__, _sanity_checks. cbn.
  destruct cls; case_decide; try done; cbn;
    unfold set_cache_properties_of, mark_cache_dirty_of, with_cache_properties,
      with_cache_dirty; cbn; by rewrite fmap_empty.
Qed.

(** The standard template with [norms] omitted: [n] equal weights [1/n]
    go to the norm map. *)
Lemma init_default_uniform h (prims : list loc) (nm : NM) :
  NormAngles (map (λ x, x / INR (length prims))%R (replicate (length prims) 1%R))
    = Ok nm →
  norms_len nm = length prims →
  __init__ false h prims NormsNone
  = Ok (mkLCTemplate prims nm false None
          (existsb (λ l, prim_shift_mode (h l)) prims) ∅ ∅ 1000 1).
Proof.
  intros Hnm Hlen. rewrite <- (init_ok false h prims nm) by done.
  unfold __init__. by rewrite Hnm.
Qed.

(** C6 (the bridge constructor with [norms] omitted).  The default weights
    are computed as [np.ones(len(primitives) + 1) / (len(primitives + 1))]:
    the closing parenthesis is misplaced, [primitives + 1] adds an int to a
    list, and the constructor raises TypeError for every primitive list
    instead of installing [n + 1] equal weights. *)
Theorem C6_bridge_default_norms_raise h (prims : list loc) :
  LCBridgeTemplate__init__ h prims NormsNone = Raise TypeError.
Proof. reflexivity. Qed.

(** ** The parameter vector *)

Lemma param_slices_ext h h' (prims : list loc) (p : list R) free start :
  (∀ l, l ∈ prims → h l = h' l) →
  param_slices h prims p free start = param_slices h' prims p free start.
Proof.
  revert start. induction prims as [|l prims IH]; intros start Hh; [done|].
  cbn. rewrite (Hh l) by set_solver. f_equal. apply IH. intros; apply Hh; set_solver.
Qed.

Lemma params_len_ext h h' (prims : list loc) free :
  (∀ l, l ∈ prims → h l = h' l) →
  params_len h prims free = params_len h' prims free.
Proof.
  induction prims as [|l prims IH]; intros Hh; [done|].
  cbn. rewrite (Hh l) by set_solver. f_equal. apply IH. intros; apply Hh; set_solver.
Qed.

(** The loop over the primitives never raises; it writes every primitive's
    slice into it, whatever the flags say, and leaves the rest of the world
    alone.  The flag it returns is the conjunction of the flags of the
    calls. *)
Lemma set_parameters_loop_spec (p : list R) (free : bool) (prims : list loc) :
  ∀ w (start : nat) (ok : bool),
    NoDup prims →
    ∃ w' (b : bool),
      set_parameters_loop prims p free start ok w
        = (Ok ((start + params_len (heap w) prims free)%nat, b), w')
      ∧ (b = true ↔
           ok = true ∧
           ∀ i l sl, prims !! i = Some l →
                     param_slices (heap w) prims p free start !! i = Some sl →
                     (prim_set_parameters (heap w l) sl free).2 = true)
      ∧ self w' = self w ∧ next_loc w' = next_loc w
      ∧ np_random w' = np_random w ∧ stdout w' = stdout w
      ∧ (∀ l, l ∉ prims → heap w' l = heap w l)
      ∧ (∀ i l sl, prims !! i = Some l →
                   param_slices (heap w) prims p free start !! i = Some sl →
                   heap w' l = (prim_set_parameters (heap w l) sl free).1).
Proof.
  induction prims as [|l prims IH]; intros w start ok Hnd.
  - exists w, ok. cbn. rewrite Nat.add_0_r. repeat split; try done.
    + by intros [? _].
  - apply NoDup_cons in Hnd as [Hl Hnd].
    cbn [set_parameters_loop params_len param_slices]. mrun.
    destruct (prim_set_parameters (heap w l)
                (take (length (prim_get_parameters (heap w l) free)) (drop start p))
                free) as [prim' ok1] eqn:Hset.
    set (w1 := mkWorld (self w) (<[l:=prim']> (heap w)) (next_loc w)
                 (np_random w) (stdout w)).
    destruct (IH w1 (start + length (prim_get_parameters (heap w l) free))%nat
                (ok1 && ok) Hnd)
      as (w' & b & Hrun & Hb & Hself & Hnext & Hrng & Hout & Hframe & Hwritten).
    assert (Hagree : ∀ l', l' ∈ prims → heap w1 l' = heap w l').
    { intros l' Hl'. unfold w1. cbn. apply fn_lookup_insert_ne. by intros ->. }
    rewrite (params_len_ext _ _ _ _ Hagree) in Hrun.
    rewrite (param_slices_ext _ _ _ _ _ _ Hagree) in Hb, Hwritten.
    exists w', b. split; [|split; [|repeat split]].
    + rewrite Hrun. do 3 f_equal. lia.
    + rewrite Hb. split.
      * intros [Hok Hall]. apply andb_true_iff in Hok as [Hok1 Hok].
        split; [done|]. intros [|i] l' sl Hl' Hsl.
        -- injection Hl' as <-. injection Hsl as <-. by rewrite Hset.
        -- rewrite <- (Hagree l') by (eapply list_elem_of_lookup_2; exact Hl').
           exact (Hall i l' sl Hl' Hsl).
      * intros [Hok Hall]. split.
        -- apply andb_true_iff. split; [|done].
           specialize (Hall 0%nat l _ eq_refl eq_refl). by rewrite Hset in Hall.
        -- intros i l' sl Hl' Hsl.
           rewrite (Hagree l') by (eapply list_elem_of_lookup_2; exact Hl').
           exact (Hall (S i) l' sl Hl' Hsl).
    + done.
    + done.
    + done.
    + done.
    + intros l' Hl'. apply not_elem_of_cons in Hl' as [Hne Hl'].
      rewrite Hframe by done. unfold w1. cbn. by apply fn_lookup_insert_ne.
    + intros [|i] l' sl Hl' Hsl.
      * injection Hl' as <-. injection Hsl as <-. rewrite Hframe by done.
        unfold w1. cbn. rewrite fn_lookup_insert. by rewrite Hset.
      * rewrite (Hwritten i l' sl Hl' Hsl).
        f_equal. f_equal. apply Hagree. eapply list_elem_of_lookup_2. exact Hl'.
Qed.

(** C9.  [set_parameters(p)] never raises and returns True exactly when
    the [set_parameters] call of every primitive returned True.  Whatever
    the flags, every primitive holds its slice of [p] afterwards and the
    norm map the rest of [p] (nothing is rolled back), and every derivative
    order of the cache is dirty. *)
Theorem C9_set_parameters_flag_and_state w (p : list R) (free : bool) :
  NoDup (primitives (self w)) →
  let prims := primitives (self w) in
  let slices := param_slices (heap w) prims p free 0 in
  ∃ w' (b : bool),
    set_parameters p free w = (Ok b, w')
    ∧ (b = true ↔
         ∀ i l sl, prims !! i = Some l → slices !! i = Some sl →
                   (prim_set_parameters (heap w l) sl free).2 = true)
    ∧ (∀ i l sl, prims !! i = Some l → slices !! i = Some sl →
                 heap w' l = (prim_set_parameters (heap w l) sl free).1)
    ∧ norms (self w')
      = norms_set_parameters (norms (self w))
          (drop (params_len (heap w) prims free) p) free
    ∧ primitives (self w') = prims
    ∧ ∀ order, is_dirty (self w') order = true.
Proof.
  intros Hnd prims slices.
  destruct (set_parameters_loop_spec p free prims w 0%nat true Hnd)
    as (w1 & b & Hrun & Hb & Hself & Hnext & Hrng & Hout & Hframe & Hwritten).
  unfold set_parameters, mark_cache_dirty. mrun. fold prims. rewrite Hrun.
  eexists _, b. split; [reflexivity|]. cbn [self heap].
  repeat split.
  - intros Hbt. by apply Hb.
  - intros Hall. by apply Hb.
  - done.
  - intros order. apply mark_cache_dirty_of_dirty.
Qed.

(** ** Cache invalidation *)

Lemma set_parameters_loop_self (p : list R) (free : bool) (prims : list loc) :
  ∀ w (start : nat) (ok : bool),
    ∃ r w', set_parameters_loop prims p free start ok w = (Ok r, w')
            ∧ self w' = self w.
Proof.
  induction prims as [|l prims IH]; intros w start ok; [by eexists _, w|].
  cbn [set_parameters_loop]. mrun.
  destruct (prim_set_parameters _ _ _) as [prim' ok1].
  destruct (IH (mkWorld (self w) (<[l:=prim']> (heap w)) (next_loc w)
                  (np_random w) (stdout w))
               (start + length (prim_get_parameters (heap w l) free))%nat
               (ok1 && ok)) as (r & w' & -> & Hself).
  by eexists _, w'.
Qed.

Lemma shift_locations_self (shift : R) (prims : list loc) :
  ∀ w, ∃ w', shift_locations prims shift w = (Ok (), w') ∧ self w' = self w.
Proof.
  induction prims as [|l prims IH]; intros w; [by exists w|].
  cbn [shift_locations]. mrun.
  destruct (IH (mkWorld (self w)
                  (<[l:=set_location (heap w l) (mod1 (get_location (heap w l) + shift))]>
                     (heap w))
                  (next_loc w) (np_random w) (stdout w))) as (w' & -> & Hself).
  by exists w'.
Qed.

(** [set_parameters] leaves every derivative order dirty. *)
Lemma set_parameters_dirty w (p : list R) (free : bool) (order : Z) :
  is_dirty (self (set_parameters p free w).2) order = true.
Proof.
  unfold set_parameters, mark_cache_dirty. mrun.
  destruct (set_parameters_loop_self p free (primitives (self w)) w 0%nat true)
    as ([start b] & w1 & -> & Hself).
  cbn. apply mark_cache_dirty_of_dirty.
Qed.

(** [set_overall_phase] leaves every derivative order dirty, also when it
    raises. *)
Lemma set_overall_phase_dirty w (ph : R) (order : Z) :
  is_dirty (self (set_overall_phase ph w).2) order = true.
Proof.
  unfold set_overall_phase, mark_cache_dirty. mrun.
  destruct (py_index _ 0) as [l0|err]; cbn [self snd];
    [|apply mark_cache_dirty_of_dirty].
  destruct (shift_mode _); cbn [self snd]; [apply mark_cache_dirty_of_dirty|].
  match goal with
  | |- context [shift_locations ?ps ?s ?w0] =>
      destruct (shift_locations_self s ps w0) as (w' & -> & Hself)
  end.
  cbn [snd]. rewrite Hself. cbn [self]. apply mark_cache_dirty_of_dirty.
Qed.

(** [align_peak] leaves every derivative order dirty, also when it raises. *)
Lemma align_peak_dirty w (phi dphi : R) (order : Z) :
  is_dirty (self (align_peak phi dphi w).2) order = true.
Proof.
  unfold align_peak, mark_cache_dirty. mrun.
  destruct (decide (dphi = 0%R)); cbn [self snd];
    [apply mark_cache_dirty_of_dirty|].
  destruct (decide (overflow_bound <= Rabs (1 / dphi))%R); cbn [self snd];
    [apply mark_cache_dirty_of_dirty|].
  destruct (py_index _ 0) as [l0|err]; cbn [self snd];
    [|apply mark_cache_dirty_of_dirty].
  match goal with
  | |- context [shift_locations ?ps ?s ?w0] =>
      destruct (shift_locations_self s ps w0) as (w' & -> & Hself)
  end.
  cbn [snd]. rewrite Hself. cbn [self]. apply mark_cache_dirty_of_dirty.
Qed.

(** Copying a list of primitives allocates one new object per entry, above
    every object that was there, and changes nothing else. *)
Lemma deepcopy_list_spec (ls : list loc) :
  ∀ w, Forall (λ l, l < next_loc w) ls →
    ∃ w', deepcopy_all ls w = (Ok (seq (next_loc w) (length ls)), w')
          ∧ self w' = self w
          ∧ next_loc w' = next_loc w + length ls
          ∧ np_random w' = np_random w ∧ stdout w' = stdout w
          ∧ (∀ l, l < next_loc w → heap w' l = heap w l)
          ∧ (∀ i l, ls !! i = Some l → heap w' (next_loc w + i) = heap w l).
Proof.
  induction ls as [|l ls IH]; intros w Hwf.
  - exists w. cbn. rewrite Nat.add_0_r. repeat split; try done.
  - apply Forall_cons in Hwf as [Hl Hwf].
    cbn [deepcopy_all]. mrun. rewrite deepcopy_run.
    set (w1 := mkWorld (self w) (<[next_loc w:=heap w l]> (heap w)) (S (next_loc w))
                 (np_random w) (stdout w)).
    destruct (IH w1) as (w' & Hrun & Hself & Hnext & Hrng & Hout & Hframe & Hcopy).
    { eapply Forall_impl; [exact Hwf|]. cbn. lia. }
    rewrite Hrun.
    exists w'. cbn [length seq]. repeat split; try done.
    + cbn in Hnext. lia.
    + intros l' Hl'. rewrite Hframe by (cbn; lia). unfold w1. cbn.
      apply fn_lookup_insert_ne. lia.
    + intros [|i] l' Hi.
      * injection Hi as <-. rewrite Nat.add_0_r, Hframe by (cbn; lia).
        unfold w1. cbn. apply fn_lookup_insert.
      * cbn in Hi. replace (next_loc w + S i) with (next_loc w1 + i) by (cbn; lia).
        rewrite (Hcopy i l' Hi). unfold w1. cbn. apply fn_lookup_insert_ne.
        pose proof (Forall_lookup_1 _ _ _ _ Hwf Hi) as Hlt. cbn in Hlt. lia.
Qed.

(** Copying never raises and never touches the receiver. *)
Lemma deepcopy_list_self (ls : list loc) :
  ∀ w, ∃ ls' w', deepcopy_all ls w = (Ok ls', w') ∧ self w' = self w.
Proof.
  induction ls as [|l ls IH]; intros w; [by eexists _, w|].
  cbn [deepcopy_all]. mrun. rewrite deepcopy_run.
  destruct (IH (mkWorld (self w) (<[next_loc w:=heap w l]> (heap w)) (S (next_loc w))
                  (np_random w) (stdout w))) as (ls' & w' & -> & Hself).
  by eexists _, w'.
Qed.

(** The structural edits made in place never mark the cache dirty: the
    flags and the grids are the ones from before the edit. *)
Lemma swap_primitive_keeps_cache w (index : Z) (ty : ptype) :
  _cache_dirty (self (swap_primitive index ty w).2) = _cache_dirty (self w)
  ∧ _cache (self (swap_primitive index ty w).2) = _cache (self w).
Proof.
  unfold swap_primitive. mrun.
  destruct (py_norm_index _ _) as [i|]; [|done].
  by destruct (py_index _ _) as [l|].
Qed.

Lemma delete_primitive_inplace_keeps_cache w (index : Z) :
  _cache_dirty (self (delete_primitive index true w).2) = _cache_dirty (self w)
  ∧ _cache (self (delete_primitive index true w).2) = _cache (self w).
Proof.
  unfold delete_primitive. mrun.
  destruct (decide (length (primitives (self w)) = 1)); [done|].
  match goal with
  | |- context [deepcopy_all ?ls w] =>
      destruct (deepcopy_list_self ls w) as (ls' & w' & -> & Hself)
  end.
  cbn. by rewrite Hself.
Qed.

Lemma add_primitive_inplace_keeps_cache w (prim : loc) (norm : R) :
  _cache_dirty (self (add_primitive prim norm true w).2) = _cache_dirty (self w)
  ∧ _cache (self (add_primitive prim norm true w).2) = _cache (self w).
Proof.
  unfold add_primitive. mrun.
  destruct (deepcopy_list_self (primitives (self w)) w) as (ls' & w' & -> & Hself).
  cbn. by rewrite Hself.
Qed.

(** ** Indexing *)

Lemma py_index_in_range {A} (a : list A) (i : Z) :
  in_range (length a) i → ∃ x, py_index a i = Ok x.
Proof.
  unfold in_range, py_index. intros Hi.
  destruct (decide (i < 0)%Z).
  - destruct (decide (0 ≤ i + Z.of_nat (length a) < Z.of_nat (length a))%Z); [|lia].
    destruct (lookup_lt_is_Some_2 a (Z.to_nat (i + Z.of_nat (length a)))) as [x Hx];
      [lia|].
    exists x. by rewrite Hx.
  - destruct (decide (0 ≤ i < Z.of_nat (length a))%Z); [|lia].
    destruct (lookup_lt_is_Some_2 a (Z.to_nat i)) as [x Hx]; [lia|].
    exists x. by rewrite Hx.
Qed.

Lemma py_index_out_of_range {A} (a : list A) (i : Z) :
  ¬ in_range (length a) i → py_index a i = Raise IndexError.
Proof.
  unfold in_range, py_index. intros Hi.
  destruct (decide (i < 0)%Z); case_decide; try done; lia.
Qed.

Lemma py_index_raises {A} (a : list A) (i : Z) (e : exn) :
  py_index a i = Raise e → e = IndexError.
Proof.
  unfold py_index. case_decide; [|congruence].
  destruct (a !! _); congruence.
Qed.

Lemma py_index_zero {A} (a : list A) (x : A) :
  a !! 0%nat = Some x → py_index a 0 = Ok x.
Proof. apply (py_index_nat a 0). Qed.

Lemma np_take_cons {A} (a : list A) (i : Z) (idx : list Z) :
  np_take a (i :: idx)
  = match py_index a i with
    | Ok x => match np_take a idx with Ok v => Ok (x :: v) | Raise e => Raise e end
    | Raise e => Raise e
    end.
Proof. reflexivity. Qed.

(** A lookup by an index array raises nothing but IndexError. *)
Lemma np_take_raises {A} (a : list A) (idx : list Z) (e : exn) :
  np_take a idx = Raise e → e = IndexError.
Proof.
  induction idx as [|i idx IH]; [done|]. rewrite np_take_cons.
  destruct (py_index a i) eqn:Hi; [|intros [= <-]; by eapply py_index_raises].
  destruct (np_take a idx); [done|]. intros [= <-]. by apply IH.
Qed.

(** It succeeds when every index is in range, entry by entry. *)
Lemma np_take_in_range {A} (a : list A) (idx : list Z) :
  Forall (in_range (length a)) idx →
  ∃ v, np_take a idx = Ok v
       ∧ length v = length idx
       ∧ ∀ k i, idx !! k = Some i → ∃ x, v !! k = Some x ∧ py_index a i = Ok x.
Proof.
  induction idx as [|i idx IH]; intros Hall.
  - exists []. by repeat split.
  - apply Forall_cons in Hall as [Hi Hall].
    destruct (py_index_in_range a i Hi) as [x Hx].
    destruct (IH Hall) as (v & Hv & Hlen & Hat).
    exists (x :: v). rewrite np_take_cons, Hx, Hv. repeat split.
    + cbn. by rewrite Hlen.
    + intros [|k] j Hk; cbn in Hk.
      * injection Hk as <-. by exists x.
      * by apply Hat.
Qed.

(** It raises when some index is out of range. *)
Lemma np_take_out_of_range {A} (a : list A) (idx : list Z) :
  Exists (λ i, ¬ in_range (length a) i) idx →
  np_take a idx = Raise IndexError.
Proof.
  induction idx as [|i idx IH]; intros Hex; [by apply Exists_nil in Hex|].
  rewrite np_take_cons. destruct (py_index a i) eqn:Hi.
  - apply Exists_cons in Hex as [Hex|Hex].
    + by rewrite (py_index_out_of_range a i Hex) in Hi.
    + by rewrite (IH Hex).
  - by rewrite (py_index_raises _ _ _ Hi).
Qed.

(** ** Casts *)

Lemma trunc_nonneg (r : R) (z : Z) :
  (IZR z <= r < IZR z + 1)%R → (0 <= r)%R → trunc r = z.
Proof.
  intros Hz Hr. unfold trunc. destruct (decide (0 <= r)%R); [|done].
  symmetry. apply Int_part_spec. lra.
Qed.

Lemma int_min_out_of_range (n : nat) :
  (Z.of_nat n < 2 ^ 63)%Z → ¬ in_range n int_min.
Proof. unfold in_range, int_min. lia. Qed.

(** ** The evaluation cache *)

Lemma linspace01_ok (num : Z) :
  (0 ≤ num)%Z → ∃ v, linspace01 num = Ok v ∧ length v = Z.to_nat num.
Proof.
  intros Hnum. unfold linspace01. destruct (decide (num < 0)%Z); [lia|].
  eexists. split; [reflexivity|]. by rewrite length_map, length_seq.
Qed.

Lemma call_direct_standard h t (phases : list R) (e : R) :
  has_bridge t = false →
  call_direct h t phases e false
  = Ok (map (λ ph, weighted_sum h (norms_call (norms t) e) (primitives t) ph e
                   + (1 - np_sum (norms_call (norms t) e)))%R phases).
Proof.
  intros Hstd. unfold call_direct, _get_scales, LCTemplate_get_scales.
  rewrite Hstd. cbn. unfold zeros_like. rewrite accumulate_scalars, map_map.
  f_equal. apply map_ext. intros ph. lra.
Qed.

Lemma length_vadd (a b : list R) :
  length a = length b → length (vadd a b) = length a.
Proof. intros Hab. unfold vadd. rewrite length_zip_with. lia. Qed.

Lemma derivative_direct_length h t (phases : list R) (e : R) (order : Z) :
  length (derivative_direct h t phases e order) = length phases.
Proof.
  unfold derivative_direct.
  assert (Hfold : ∀ pairs acc, length acc = length phases →
            length (fold_left
                      (λ acc '(n, l),
                         vadd acc (map (λ ph, n * prim_derivative (h l) ph e order)%R
                                     phases)) pairs acc) = length phases).
  { induction pairs as [|[n l] pairs IH]; intros acc Hacc; [done|].
    cbn. apply IH. rewrite length_vadd; [done|]. by rewrite length_map. }
  apply Hfold. unfold zeros_like. by rewrite length_map.
Qed.

Lemma grid_values_standard h t (order : Z) :
  has_bridge t = false → (0 ≤ ncache t + 1)%Z →
  ∃ v, grid_values h t order = Ok v ∧ Z.of_nat (length v) = (ncache t + 1)%Z.
Proof.
  intros Hstd Hn. unfold grid_values.
  destruct (linspace01_ok _ Hn) as (grid & -> & Hlen). cbn.
  destruct (decide (order = 0)%Z).
  - rewrite call_direct_standard by done. eexists. split; [reflexivity|].
    rewrite length_map, Hlen. lia.
  - eexists. split; [reflexivity|]. rewrite derivative_direct_length, Hlen. lia.
Qed.

Lemma set_cache_run w (order : Z) :
  set_cache order w
  = match grid_values (heap w) (self w) order with
    | Ok v =>
        (Ok (),
         mkWorld
           (with_cache_dirty (with_cache (self w) (<[order:=v]> (_cache (self w))))
              (<[order:=false]> (_cache_dirty (self w))))
           (heap w) (next_loc w) (np_random w) (stdout w))
    | Raise e => (Raise e, w)
    end.
Proof.
  unfold set_cache, grid_values. mrun.
  destruct (linspace01 _) as [grid|]; [|done].
  destruct (decide (order = 0)%Z); [|done].
  by destruct (call_direct _ _ _ _ _).
Qed.

(** A clean grid of the right length is served as it is. *)
Lemma get_cache_clean w (order : Z) (c : list R) :
  _cache_dirty (self w) !! order = Some false →
  _cache (self w) !! order = Some c →
  Z.of_nat (length c) = (ncache (self w) + 1)%Z →
  get_cache order w = (Ok c, w).
Proof.
  intros Hd Hc Hlen. unfold get_cache, read_dirty, read_cache. mrun.
  rewrite Hd. mrun. rewrite Hc. mrun.
  destruct (decide _) as [Hne|_]; [done|]. mrun. by rewrite Hc.
Qed.

(** The first request for an order computes its grid. *)
Lemma get_cache_fresh w (order : Z) (v : list R) :
  _cache_dirty (self w) !! order = None →
  grid_values (heap w) (self w) order = Ok v →
  Z.of_nat (length v) = (ncache (self w) + 1)%Z →
  get_cache order w
  = (Ok v,
     mkWorld
       (with_cache_dirty (with_cache (self w) (<[order:=v]> (_cache (self w))))
          (<[order:=false]> (<[order:=true]> (_cache_dirty (self w)))))
       (heap w) (next_loc w) (np_random w) (stdout w)).
Proof.
  intros Hd Hv Hlen. unfold get_cache, read_dirty, read_cache. mrun.
  rewrite Hd. mrun. rewrite set_cache_run. mrun.
  change (grid_values (heap w)
            (with_cache_dirty (self w) (<[order:=true]> (_cache_dirty (self w))))
            order) with (grid_values (heap w) (self w) order).
  rewrite Hv. mrun. rewrite lookup_insert_eq. mrun.
  destruct (decide _) as [Hne|_]; [done|]. mrun. by rewrite lookup_insert_eq.
Qed.

(** On a standard template [get_cache] returns a grid of [ncache + 1]
    entries, marks the order clean and changes nothing but the cache. *)
Lemma get_cache_standard w (order : Z) :
  has_bridge (self w) = false → (0 ≤ ncache (self w))%Z → cache_wf (self w) →
  ∃ grid w1,
    get_cache order w = (Ok grid, w1)
    ∧ Z.of_nat (length grid) = (ncache (self w) + 1)%Z
    ∧ _cache (self w1) !! order = Some grid
    ∧ _cache_dirty (self w1) !! order = Some false
    ∧ heap w1 = heap w ∧ next_loc w1 = next_loc w
    ∧ np_random w1 = np_random w ∧ stdout w1 = stdout w
    ∧ primitives (self w1) = primitives (self w)
    ∧ norms (self w1) = norms (self w)
    ∧ ncache (self w1) = ncache (self w)
    ∧ interpolation (self w1) = interpolation (self w).
Proof.
  intros Hstd Hn Hwf.
  assert (Hset : ∀ w0, has_bridge (self w0) = false →
            ncache (self w0) = ncache (self w) →
            ∃ v, set_cache order w0
                 = (Ok (),
                    mkWorld
                      (with_cache_dirty
                         (with_cache (self w0) (<[order:=v]> (_cache (self w0))))
                         (<[order:=false]> (_cache_dirty (self w0))))
                      (heap w0) (next_loc w0) (np_random w0) (stdout w0))
                 ∧ Z.of_nat (length v) = (ncache (self w) + 1)%Z).
  { intros w0 Hstd0 Hn0. rewrite set_cache_run.
    destruct (grid_values_standard (heap w0) (self w0) order Hstd0) as (v & -> & Hlen);
      [lia|].
    exists v. split; [done|]. by rewrite <- Hn0. }
  unfold get_cache, read_dirty, read_cache. mrun.
  destruct (_cache_dirty (self w) !! order) as [[|]|] eqn:Hd; mrun.
  - (* dirty *)
    destruct (Hset w Hstd eq_refl) as (v & -> & Hlen). mrun.
    rewrite lookup_insert_eq. mrun.
    destruct (decide _) as [Hne|_]; [done|]. mrun. rewrite lookup_insert_eq.
    eexists v, _. split; [reflexivity|]. cbn.
    rewrite !lookup_insert_eq. by repeat split.
  - (* clean *)
    destruct (Hwf order Hd) as [c Hc]. rewrite Hc. mrun.
    destruct (decide _) as [Hne|He].
    + destruct (Hset w Hstd eq_refl) as (v & -> & Hlen). mrun.
      rewrite lookup_insert_eq.
      eexists v, _. split; [reflexivity|]. cbn.
      rewrite !lookup_insert_eq. by repeat split.
    + mrun. rewrite Hc.
      eexists c, w. split; [reflexivity|]. repeat split; try done. lia.
  - (* never asked for: the defaultdict answers True *)
    match goal with
    | |- context [set_cache order ?w0] =>
        destruct (Hset w0 Hstd eq_refl) as (v & -> & Hlen)
    end.
    mrun. rewrite lookup_insert_eq. mrun.
    destruct (decide _) as [Hne|_]; [done|]. mrun. rewrite lookup_insert_eq.
    eexists v, _. split; [reflexivity|]. cbn.
    rewrite !lookup_insert_eq. by repeat split.
Qed.

Lemma count_true_cons (b : bool) (mask : list bool) :
  count_true (b :: mask) = (if b then 1 else 0) + count_true mask.
Proof.
  unfold count_true. rewrite filter_cons. destruct b; cbn.
  - destruct (decide _); [done|congruence].
  - destruct (decide _); [congruence|done].
Qed.

Lemma count_nan_pos (phases : list npfloat) :
  0 < count_true (isnan <$> phases) → ∃ k, phases !! k = Some nan.
Proof.
  induction phases as [|x phases IH]; [cbn; lia|].
  rewrite fmap_cons, count_true_cons. destruct x as [|x]; cbn.
  - intros _. by exists 0%nat.
  - intros Hpos. destruct (IH Hpos) as [k Hk]. by exists (S k).
Qed.

(** The nearest-point branch of [eval_cache], once the grid is known. *)
Lemma eval_cache_nearest_run w (phases : list npfloat) (order : Z)
    (grid : list R) w1 :
  interpolation (self w) = 0%Z →
  get_cache order w = (Ok grid, w1) →
  let indices := nearest_indices (ncache (self w)) phases in
  let nanphases := count_true (isnan <$> phases) in
  eval_cache phases order w
  = match np_take grid indices with
    | Ok v => (Ok (fin <$> v), w1)
    | Raise _ =>
        if decide (0 < nanphases) then
          match np_take grid (remapped phases indices) with
          | Ok v => (Ok (fin <$> v), printed w1 (PhasesWereNaN nanphases))
          | Raise e => (Raise e, printed w1 (PhasesWereNaN nanphases))
          end
        else (Raise IndexError, w1)
    end.
Proof.
  intros Hint Hget indices nanphases. unfold eval_cache. mrun.
  rewrite Hget, Hint. mrun. fold indices. fold nanphases.
  destruct (decide (0 = 0)%Z) as [_|]; [|done].
  destruct (np_take grid indices) as [v|e] eqn:Htake; [done|].
  rewrite (np_take_raises _ _ _ Htake).
  destruct (decide (0 < nanphases)); [|done]. mrun.
  fold (remapped phases indices).
  by destruct (np_take grid (remapped phases indices)).
Qed.

Lemma nearest_indices_lookup (n : Z) (phases : list npfloat) (k : nat) :
  nearest_indices n phases !! k
  = (λ x, astype_int (np_add (np_mul x (fin (IZR n))) (fin (1 / 2)))) <$> phases !! k.
Proof. unfold nearest_indices. apply list_lookup_fmap. Qed.

Lemma remapped_lookup (phases : list npfloat) (indices : list Z) (k : nat) :
  remapped phases indices !! k
  = match phases !! k, indices !! k with
    | Some x, Some i => Some (if isnan x then 0%Z else i)
    | _, _ => None
    end.
Proof.
  unfold remapped. rewrite lookup_zip_with.
  destruct (phases !! k); [|done]. by destruct (indices !! k).
Qed.

(** With a NaN among the phases, the first lookup fails: the cast of NaN is
    INT64_MIN, which indexes no array. *)
Lemma nearest_first_lookup_fails (n : Z) (phases : list npfloat) (grid : list R) :
  (Z.of_nat (length grid) < 2 ^ 63)%Z →
  0 < count_true (isnan <$> phases) →
  np_take grid (nearest_indices n phases) = Raise IndexError.
Proof.
  intros Hlen Hnan. apply np_take_out_of_range.
  destruct (count_nan_pos phases Hnan) as [k Hk].
  apply Exists_exists. exists int_min. split.
  - apply list_elem_of_lookup. exists k. by rewrite nearest_indices_lookup, Hk.
  - by apply int_min_out_of_range.
Qed.

(** NaN phases and, besides, a phase that indexes outside the grid: the
    retry raises. *)
Lemma eval_cache_nan_and_out_of_range w (phases : list npfloat) (order : Z)
    (grid : list R) w1 (k : nat) (x : R) :
  interpolation (self w) = 0%Z →
  get_cache order w = (Ok grid, w1) →
  (Z.of_nat (length grid) < 2 ^ 63)%Z →
  0 < count_true (isnan <$> phases) →
  phases !! k = Some (fin x) →
  ¬ in_range (length grid)
      (astype_int (fin (x * IZR (ncache (self w)) + 1 / 2))) →
  eval_cache phases order w
  = (Raise IndexError,
     printed w1 (PhasesWereNaN (count_true (isnan <$> phases)))).
Proof.
  intros Hint Hget Hlen Hnan Hk Hout.
  rewrite (eval_cache_nearest_run w phases order grid w1 Hint Hget). cbn zeta.
  rewrite nearest_first_lookup_fails by done.
  destruct (decide _) as [_|]; [|done].
  rewrite np_take_out_of_range; [done|].
  apply Exists_exists. eexists. split; [|exact Hout].
  apply list_elem_of_lookup. exists k.
  by rewrite remapped_lookup, nearest_indices_lookup, Hk.
Qed.

(** C8 (as amended).  Nearest-point [eval_cache] on a standard template.
    When the phases hold NaN and every other phase indexes inside the grid,
    the call does not raise: the first lookup fails, the count of NaN is
    printed, the NaN positions read [grid[0]] and the others their own
    entry.  When the phases hold no NaN and some index is outside the grid,
    IndexError is raised. *)
Theorem C8_eval_cache_nearest_nan w (phases : list npfloat) (order : Z) :
  has_bridge (self w) = false →
  cache_wf (self w) →
  (0 ≤ ncache (self w) < 2 ^ 63 - 1)%Z →
  interpolation (self w) = 0%Z →
  let indices := nearest_indices (ncache (self w)) phases in
  let nanphases := count_true (isnan <$> phases) in
  ∃ grid w1,
    get_cache order w = (Ok grid, w1)
    ∧ (0 < nanphases →
       (∀ k x i, phases !! k = Some (fin x) → indices !! k = Some i →
                 in_range (length grid) i) →
       ∃ vals,
         eval_cache phases order w
           = (Ok (fin <$> vals), printed w1 (PhasesWereNaN nanphases))
         ∧ length vals = length phases
         ∧ (∀ k, phases !! k = Some nan → vals !! k = grid !! 0%nat)
         ∧ (∀ k x i, phases !! k = Some (fin x) → indices !! k = Some i →
                     ∃ v, vals !! k = Some v ∧ py_index grid i = Ok v))
    ∧ (nanphases = 0 →
       Exists (λ i, ¬ in_range (length grid) i) indices →
       eval_cache phases order w = (Raise IndexError, w1)).
Proof.
  intros Hstd Hwf Hn Hint indices nanphases.
  destruct (get_cache_standard w order Hstd ltac:(lia) Hwf)
    as (grid & w1 & Hget & Hlen & _).
  exists grid, w1. split; [done|].
  pose proof (eval_cache_nearest_run w phases order grid w1 Hint Hget) as Hrun.
  cbn zeta in Hrun. fold indices nanphases in Hrun.
  split.
  - intros Hnan Hin. rewrite Hrun.
    unfold indices. rewrite nearest_first_lookup_fails by (done || lia).
    destruct (decide _) as [_|]; [|done].
    destruct (lookup_lt_is_Some_2 grid 0%nat) as [g0 Hg0]; [lia|].
    destruct (np_take_in_range grid (remapped phases indices)) as (vals & Hvals & Hl & Hat).
    { apply Forall_lookup. intros k i Hk. rewrite remapped_lookup in Hk.
      destruct (phases !! k) as [[|x]|] eqn:Hx; [| |done];
        destruct (indices !! k) as [j|] eqn:Hj; try done; injection Hk as <-; cbn.
      - unfold in_range. lia.
      - by eapply Hin. }
    fold indices. rewrite Hvals. exists vals. split; [done|].
    assert (Hlen_idx : length (remapped phases indices) = length phases).
    { unfold remapped, indices, nearest_indices.
      rewrite length_zip_with, length_map. lia. }
    split; [by rewrite Hl|]. split.
    + intros k Hk.
      destruct (Hat k 0%Z) as (v & Hv & Hpy).
      { rewrite remapped_lookup, Hk. unfold indices.
        by rewrite nearest_indices_lookup, Hk. }
      rewrite Hv, Hg0. rewrite (py_index_zero grid g0 Hg0) in Hpy. congruence.
    + intros k x i Hk Hi. apply (Hat k i).
      by rewrite remapped_lookup, Hk, Hi.
  - intros Hnone Hex. rewrite Hrun.
    rewrite np_take_out_of_range by done. rewrite Hnone.
    by destruct (decide (0 < 0)); [lia|].
Qed.

(** ** Structural edits *)

Lemma retained_from (k : nat) (idx : Z) (prims : list loc) :
  snd <$> filter (λ '(ip, _), idx ≠ Z.of_nat ip) (imap (λ ip l, ((k + ip)%nat, l)) prims)
  = if decide (Z.of_nat k ≤ idx < Z.of_nat (k + length prims))%Z
    then delete (Z.to_nat idx - k)%nat prims else prims.
Proof.
  revert k. induction prims as [|x prims IH]; intros k.
  { cbn. by case_decide. }
  rewrite imap_cons, filter_cons.
  rewrite (imap_ext _ (λ ip l, ((S k + ip)%nat, l))) by (intros; cbn; f_equal; lia).
  specialize (IH (S k)). cbn [length].
  destruct (decide (idx ≠ Z.of_nat (k + 0))) as [Hne|Heq].
  - rewrite fmap_cons. cbn [snd]. rewrite IH.
    destruct (decide (Z.of_nat (S k) ≤ idx < Z.of_nat (S k + length prims))%Z).
    + destruct (decide _); [|lia].
      replace (Z.to_nat idx - k)%nat with (S (Z.to_nat idx - S k)) by lia. done.
    + destruct (decide _); [lia|done].
  - apply dec_stable in Heq. rewrite IH.
    destruct (decide (Z.of_nat (S k) ≤ idx < Z.of_nat (S k + length prims))%Z); [lia|].
    destruct (decide _); [|lia].
    replace (Z.to_nat idx - k)%nat with 0%nat by lia. done.
Qed.

(** With the index of a primitive, the comprehension keeps every primitive
    but that one. *)
Lemma retained_delete (prims : list loc) (idx : Z) :
  (0 ≤ idx < Z.of_nat (length prims))%Z →
  retained prims idx = delete (Z.to_nat idx) prims.
Proof.
  intros Hidx. unfold retained.
  rewrite (imap_ext _ (λ ip l, ((0 + ip)%nat, l))) by done.
  rewrite retained_from. destruct (decide _); [|lia]. f_equal. lia.
Qed.

Lemma normalized_in_range (n : nat) (index : Z) :
  in_range n index → (0 ≤ normalized n index < Z.of_nat n)%Z.
Proof. unfold in_range, normalized. case_decide; lia. Qed.

Lemma elem_of_delete (i : nat) (l : loc) (prims : list loc) :
  l ∈ delete i prims → l ∈ prims.
Proof.
  revert i. induction prims as [|x prims IH]; intros [|i]; cbn; try done.
  - by right.
  - intros [->|Hl]%elem_of_cons; [by left|]. right. by eapply IH.
Qed.

(** Evaluation reads the store at the primitives of the template only. *)
Lemma accumulate_ext h h' (phases : list R) (e : R) (prims : list loc) :
  (∀ l, l ∈ prims → h l = h' l) →
  ∀ (ns : list scale) (rvals : list R),
    accumulate h phases e ns prims rvals = accumulate h' phases e ns prims rvals.
Proof.
  unfold accumulate. induction prims as [|l prims IH]; intros Hh ns rvals.
  - by destruct ns.
  - destruct ns as [|n ns]; [done|]. cbn [zip_with fold_left].
    replace (prim_eval h l phases e) with (prim_eval h' l phases e)
      by (unfold prim_eval; rewrite (Hh l) by (by left); done).
    apply IH. intros; apply Hh. by right.
Qed.

Lemma call_direct_standard_ext h h' t (phases : list R) (e : R) (sbg : bool) :
  has_bridge t = false →
  (∀ l, l ∈ primitives t → h l = h' l) →
  call_direct h t phases e sbg = call_direct h' t phases e sbg.
Proof.
  intros Hstd Hh. unfold call_direct, _get_scales. rewrite Hstd. cbn.
  by rewrite (accumulate_ext h h' phases e (primitives t) Hh).
Qed.

(** [delete_primitive(index)] on a standard template, not in place. *)
Lemma delete_primitive_new w (index : Z) :
  has_bridge (self w) = false →
  2 ≤ length (primitives (self w)) →
  in_range (length (primitives (self w))) index →
  length (primitives (self w)) = norms_len (norms (self w)) →
  norms_len (delete_component (norms (self w))
               (normalized (length (primitives (self w))) index))
    = norms_len (norms (self w)) - 1 →
  Forall (λ l, l < next_loc w) (primitives (self w)) →
  let idx := normalized (length (primitives (self w))) index in
  let kept := delete (Z.to_nat idx) (primitives (self w)) in
  ∃ nt w',
    delete_primitive index false w = (Ok (Some nt), w')
    ∧ self w' = self w
    ∧ deep_copies w w' kept (primitives nt)
    ∧ norms nt = delete_component (norms (self w)) idx
    ∧ has_bridge nt = false
    ∧ (∀ order, is_dirty nt order = true).
Proof.
  intros Hstd Hlen Hin Hcount Hdel Hwf idx kept.
  pose proof (normalized_in_range _ _ Hin) as Hidx. fold idx in Hidx.
  unfold delete_primitive. mrun.
  destruct (decide (length (primitives (self w)) = 1)); [lia|].
  fold (normalized (length (primitives (self w))) index). fold idx.
  rewrite retained_delete by done. fold kept.
  destruct (deepcopy_list_spec kept w)
    as (w' & Hrun & Hself & Hnext & Hrng & Hout & Hframe & Hcopy).
  { apply Forall_forall. intros l Hl.
    eapply (proj1 (Forall_forall _ _) Hwf), elem_of_delete, Hl. }
  rewrite Hrun. mrun.
  rewrite init_ok; last first.
  { rewrite length_seq. unfold idx. rewrite Hdel. fold idx. unfold kept.
    rewrite length_delete; [lia|].
    apply lookup_lt_is_Some_2. lia. }
  eexists _, w'. split; [reflexivity|]. cbn. repeat split; try done.
Qed.

(** Not in place, the new template is a LCTemplate whatever the receiver
    is: when the retained primitives and the new norm map do not match in
    number, its constructor raises. *)
Lemma delete_primitive_new_mismatch w (index : Z) :
  length (primitives (self w)) ≠ 1 →
  in_range (length (primitives (self w))) index →
  Forall (λ l, l < next_loc w) (primitives (self w)) →
  norms_len (delete_component (norms (self w))
               (normalized (length (primitives (self w))) index))
    ≠ length (primitives (self w)) - 1 →
  (delete_primitive index false w).1 = Raise ValueError.
Proof.
  intros Hlen Hin Hwf Hne.
  pose proof (normalized_in_range _ _ Hin) as Hidx.
  unfold delete_primitive. mrun.
  destruct (decide (length (primitives (self w)) = 1)); [done|].
  fold (normalized (length (primitives (self w))) index).
  rewrite retained_delete by done.
  destruct (deepcopy_list_spec
              (delete (Z.to_nat (normalized (length (primitives (self w))) index))
                 (primitives (self w))) w)
    as (w' & Hrun & _).
  { apply Forall_forall. intros l Hl.
    eapply (proj1 (Forall_forall _ _) Hwf), elem_of_delete, Hl. }
  rewrite Hrun. mrun.
  rewrite (proj2 (init_validates false _ _ _)); [done|].
  rewrite length_seq, length_delete by (apply lookup_lt_is_Some_2; lia). lia.
Qed.

(** [delete_primitive(index, inplace=True)]: the receiver gets the copies
    and the new norm map, and None is returned. *)
Lemma delete_primitive_inplace w (index : Z) :
  in_range (length (primitives (self w))) index →
  length (primitives (self w)) ≠ 1 →
  Forall (λ l, l < next_loc w) (primitives (self w)) →
  let idx := normalized (length (primitives (self w))) index in
  let kept := delete (Z.to_nat idx) (primitives (self w)) in
  ∃ w',
    delete_primitive index true w = (Ok None, w')
    ∧ deep_copies w w' kept (primitives (self w'))
    ∧ norms (self w') = delete_component (norms (self w)) idx
    ∧ self w'
      = with_norms (with_primitives (self w) (seq (next_loc w) (length kept)))
          (delete_component (norms (self w)) idx).
Proof.
  intros Hin Hlen Hwf idx kept.
  pose proof (normalized_in_range _ _ Hin) as Hidx. fold idx in Hidx.
  unfold delete_primitive. mrun.
  destruct (decide (length (primitives (self w)) = 1)); [done|].
  fold (normalized (length (primitives (self w))) index). fold idx.
  rewrite retained_delete by done. fold kept.
  destruct (deepcopy_list_spec kept w)
    as (w' & Hrun & Hself & Hnext & Hrng & Hout & Hframe & Hcopy).
  { apply Forall_forall. intros l Hl.
    eapply (proj1 (Forall_forall _ _) Hwf), elem_of_delete, Hl. }
  rewrite Hrun. mrun. eexists. split; [reflexivity|]. cbn.
  rewrite Hself. by repeat split.
Qed.

(** [add_primitive(prim)] on a standard template, not in place. *)
Lemma add_primitive_new w (prim : loc) (norm : R) :
  has_bridge (self w) = false →
  length (primitives (self w)) = norms_len (norms (self w)) →
  norms_len (add_component (norms (self w)) norm) = norms_len (norms (self w)) + 1 →
  Forall (λ l, l < next_loc w) (primitives (self w)) →
  ∃ nt copies w',
    add_primitive prim norm false w = (Ok (Some nt), w')
    ∧ self w' = self w
    ∧ primitives nt = copies ++ [prim]
    ∧ deep_copies w w' (primitives (self w)) copies
    ∧ norms nt = add_component (norms (self w)) norm
    ∧ has_bridge nt = false
    ∧ (∀ order, is_dirty nt order = true).
Proof.
  intros Hstd Hcount Hadd Hwf. unfold add_primitive. mrun.
  destruct (deepcopy_list_spec (primitives (self w)) w Hwf)
    as (w' & Hrun & Hself & Hnext & Hrng & Hout & Hframe & Hcopy).
  rewrite Hrun. mrun.
  rewrite init_ok; last first.
  { rewrite length_app, length_seq, Hadd. cbn. lia. }
  eexists _, _, w'. split; [reflexivity|]. cbn. repeat split; try done.
Qed.

Lemma add_primitive_inplace w (prim : loc) (norm : R) :
  Forall (λ l, l < next_loc w) (primitives (self w)) →
  ∃ copies w',
    add_primitive prim norm true w = (Ok None, w')
    ∧ primitives (self w') = copies ++ [prim]
    ∧ deep_copies w w' (primitives (self w)) copies
    ∧ norms (self w') = add_component (norms (self w)) norm.
Proof.
  intros Hwf. unfold add_primitive. mrun.
  destruct (deepcopy_list_spec (primitives (self w)) w Hwf)
    as (w' & Hrun & Hself & Hnext & Hrng & Hout & Hframe & Hcopy).
  rewrite Hrun. mrun. eexists _, _. split; [reflexivity|]. cbn.
  rewrite Hself. by repeat split.
Qed.

(** An object store that still holds the old objects evaluates the old
    template as before, whatever became of the new objects. *)
Lemma evaluation_frame w (h' : loc → P) (phases : list R) (e : R) (sbg : bool) :
  has_bridge (self w) = false →
  Forall (λ l, l < next_loc w) (primitives (self w)) →
  (∀ l, l < next_loc w → h' l = heap w l) →
  call_direct h' (self w) phases e sbg = call_direct (heap w) (self w) phases e sbg.
Proof.
  intros Hstd Hwf Hh. apply call_direct_standard_ext; [done|].
  intros l Hl. apply Hh. by apply (proj1 (Forall_forall _ _) Hwf).
Qed.

(** What C10 states holds on standard templates.  With at least two
    primitives and an index of one of them, [delete_primitive(index)] not
    in place
    returns a new standard template whose primitives are new objects, deep
    copies of the retained ones, with the norm map that [delete_component]
    returned; the receiver and every object that existed are unchanged, so
    the receiver evaluates as before in every store that still holds them.
    In place, the receiver gets the copies and the new norm map and None is
    returned.  [add_primitive(prim)] does the same with copies of all the
    primitives followed by [prim]. *)
Lemma structural_edits_copy_standard w (index : Z) (prim : loc) (norm : R) :
  has_bridge (self w) = false →
  2 ≤ length (primitives (self w)) →
  in_range (length (primitives (self w))) index →
  length (primitives (self w)) = norms_len (norms (self w)) →
  norms_len (delete_component (norms (self w))
               (normalized (length (primitives (self w))) index))
    = norms_len (norms (self w)) - 1 →
  norms_len (add_component (norms (self w)) norm) = norms_len (norms (self w)) + 1 →
  Forall (λ l, l < next_loc w) (primitives (self w)) →
  let prims := primitives (self w) in
  let idx := normalized (length prims) index in
  let kept := delete (Z.to_nat idx) prims in
  let unaffected := λ w' : world P NM G,
    self w' = self w
    ∧ ∀ h' phases e sbg,
        (∀ l, l < next_loc w → h' l = heap w l) →
        call_direct h' (self w') phases e sbg
        = call_direct (heap w) (self w) phases e sbg in
  (∃ nt w',
     delete_primitive index false w = (Ok (Some nt), w')
     ∧ has_bridge nt = false
     ∧ deep_copies w w' kept (primitives nt)
     ∧ norms nt = delete_component (norms (self w)) idx
     ∧ unaffected w')
  ∧ (∃ w',
       delete_primitive index true w = (Ok None, w')
       ∧ deep_copies w w' kept (primitives (self w'))
       ∧ norms (self w') = delete_component (norms (self w)) idx)
  ∧ (∃ nt copies w',
       add_primitive prim norm false w = (Ok (Some nt), w')
       ∧ has_bridge nt = false
       ∧ primitives nt = copies ++ [prim]
       ∧ deep_copies w w' prims copies
       ∧ norms nt = add_component (norms (self w)) norm
       ∧ unaffected w')
  ∧ (∃ copies w',
       add_primitive prim norm true w = (Ok None, w')
       ∧ primitives (self w') = copies ++ [prim]
       ∧ deep_copies w w' prims copies
       ∧ norms (self w') = add_component (norms (self w)) norm).
Proof.
  intros Hstd Hlen Hin Hcount Hdel Hadd Hwf prims idx kept unaffected.
  assert (Hframe : ∀ w', self w' = self w → unaffected w').
  { intros w' Hself. split; [done|]. intros h' phases e sbg Hh. rewrite Hself.
    by apply evaluation_frame. }
  split; [|split; [|split]].
  - destruct (delete_primitive_new w index Hstd Hlen Hin Hcount Hdel Hwf)
      as (nt & w' & Hrun & Hself & Hcopies & Hnorms & Hcls & _).
    exists nt, w'. do 4 (split; [done|]). by apply Hframe.
  - destruct (delete_primitive_inplace w index Hin ltac:(lia) Hwf)
      as (w' & Hrun & Hcopies & Hnorms & _).
    by exists w'.
  - destruct (add_primitive_new w prim norm Hstd Hcount Hadd Hwf)
      as (nt & copies & w' & Hrun & Hself & Hprims & Hcopies & Hnorms & Hcls & _).
    exists nt, copies, w'. do 5 (split; [done|]). by apply Hframe.
  - by apply add_primitive_inplace.
Qed.

(** [add_primitive(prim, norm)] not in place, where the new norm map does
    not hold one norm per primitive of the new list: the constructor
    [LCTemplate(nprims, nnorms)] raises ValueError, and the receiver is as
    it was. *)
Lemma add_primitive_new_mismatch w (prim : loc) (norm : R) :
  Forall (λ l, l < next_loc w) (primitives (self w)) →
  norms_len (add_component (norms (self w)) norm)
    ≠ length (primitives (self w)) + 1 →
  (add_primitive prim norm false w).1 = Raise ValueError
  ∧ self (add_primitive prim norm false w).2 = self w.
Proof.
  intros Hwf Hne. unfold add_primitive. mrun.
  destruct (deepcopy_list_spec (primitives (self w)) w Hwf)
    as (w' & Hrun & Hself & _).
  rewrite Hrun. mrun.
  rewrite (proj2 (init_validates false _ _ _)); [done|].
  rewrite length_app, length_seq. cbn. lia.
Qed.

(** C10.  On a bridge template, which holds one norm more than primitives,
    [delete_primitive(index)] and [add_primitive(prim)] with
    [inplace=False] return no template.  Both end with
    [return LCTemplate(newprims, newnorms)], the base class whatever the
    class of the receiver: the new lists still differ by one in length,
    and the count check of LCTemplate raises ValueError. *)
Theorem C10_bridge_edits_raise w (index : Z) (prim : loc) (norm : R) :
  has_bridge (self w) = true →
  2 ≤ length (primitives (self w)) →
  in_range (length (primitives (self w))) index →
  length (primitives (self w)) + 1 = norms_len (norms (self w)) →
  norms_len (delete_component (norms (self w))
               (normalized (length (primitives (self w))) index))
    = norms_len (norms (self w)) - 1 →
  norms_len (add_component (norms (self w)) norm) = norms_len (norms (self w)) + 1 →
  Forall (λ l, l < next_loc w) (primitives (self w)) →
  _sanity_checks (self w) = Ok ()
  ∧ (delete_primitive index false w).1 = Raise ValueError
  ∧ (add_primitive prim norm false w).1 = Raise ValueError.
Proof.
  intros Hcls Hlen Hin Hcount Hdel Hadd Hwf. split; [|split].
  - unfold _sanity_checks. rewrite Hcls.
    destruct (decide _) as [Hne|_]; [lia|done].
  - apply delete_primitive_new_mismatch; [lia|done|done|lia].
  - apply add_primitive_new_mismatch; [done|lia].
Qed.

(** ** The bridge *)

Lemma scale_mul_is (phases : list R) (s : scale) (f g : R → R) :
  scale_is phases s f →
  scale_mul s (map g phases) = map (λ ph, f ph * g ph)%R phases.
Proof.
  destruct s as [c|a]; cbn; intros Hs.
  - rewrite map_map. apply map_ext. intros ph. by rewrite Hs.
  - subst a. induction phases as [|ph phases IH]; cbn; [done|]. by rewrite IH.
Qed.

(** The accumulation loop with scales that vary with the phase. *)
Lemma accumulate_pointwise h (phases : list R) (e : R) (ss : list scale)
    (fs : list (R → R)) :
  Forall2 (scale_is phases) ss fs →
  ∀ (prims : list loc) (r0 : R → R),
    accumulate h phases e ss prims (map r0 phases)
    = map (λ ph, r0 ph + mixture h fs prims ph e)%R phases.
Proof.
  unfold accumulate, mixture.
  induction 1 as [|s f ss fs Hs _ IH]; intros prims r0.
  - cbn. apply map_ext. intros ph. cbn. lra.
  - destruct prims as [|l prims].
    + cbn. apply map_ext. intros ph. cbn. lra.
    + cbn [zip_with fold_left]. unfold prim_eval.
      rewrite (scale_mul_is phases s f _ Hs), vadd_map.
      rewrite (IH prims (λ ph, r0 ph + f ph * prim_call (h l) ph e)%R).
      apply map_ext. intros ph. rewrite np_sum_cons. lra.
Qed.

Lemma np_sum_app (a b : list R) : np_sum (a ++ b) = (np_sum a + np_sum b)%R.
Proof.
  induction a as [|x a IH].
  - rewrite app_nil_l. change (np_sum []) with 0%R. lra.
  - cbn [app]. rewrite !np_sum_cons, IH. lra.
Qed.

Lemma mixture_app h (fs1 fs2 : list (R → R)) (ps1 ps2 : list loc) (ph e : R) :
  length fs1 = length ps1 →
  mixture h (fs1 ++ fs2) (ps1 ++ ps2) ph e
  = (mixture h fs1 ps1 ph e + mixture h fs2 ps2 ph e)%R.
Proof.
  intros Hlen. unfold mixture. by rewrite zip_with_app, np_sum_app.
Qed.

Lemma weighted_sum_app h (ws1 ws2 : list R) (ps1 ps2 : list loc) (ph e : R) :
  length ws1 = length ps1 →
  weighted_sum h (ws1 ++ ws2) (ps1 ++ ps2) ph e
  = (weighted_sum h ws1 ps1 ph e + weighted_sum h ws2 ps2 ph e)%R.
Proof.
  intros Hlen. unfold weighted_sum. by rewrite zip_with_app, np_sum_app.
Qed.

Lemma mixture_const h (ws : list R) (prims : list loc) (ph e : R) :
  mixture h ((λ c _, c) <$> ws) prims ph e = weighted_sum h ws prims ph e.
Proof.
  unfold mixture, weighted_sum. revert prims.
  induction ws as [|c ws IH]; intros [|l prims]; cbn; try done. by rewrite IH.
Qed.

Lemma fdiv_ok (a b : R) : b ≠ 0%R → fdiv a b = Ok (a / b)%R.
Proof. intros Hb. unfold fdiv. by destruct (decide (b = 0%R)). Qed.


Lemma bridge_mask_map (l1 l2 : R) (phases : list R) :
  (if decide (l2 > l1)%R
   then map (λ ph, bool_decide (ph >= l1)%R && bool_decide (ph <= l2)%R) phases
   else map (λ ph, bool_decide (ph >= l1)%R || bool_decide (ph <= l2)%R) phases)
  = map (bridge_mask l1 l2) phases.
Proof.
  unfold bridge_mask. destruct (decide (l2 > l1)%R); apply map_ext; intros ph; done.
Qed.


(** The scales that the bridge solver returns, when no denominator is zero. *)
Lemma bridge_get_scales_run h t (phases : list R) (e : R) (a b : loc)
    (nped n1 n2 : R) (wfront : list R) :
  p1p2 t = Some (a, b) →
  norms_call (norms t) e = nped :: wfront ++ [n1; n2] →
  determinant h a b e ≠ 0%R →
  interval_length h a b ≠ 0%R →
  pedestal_denominator h a b e ≠ 0%R →
  let mask := bridge_mask (get_location (h a)) (get_location (h b)) in
  LCBridgeTemplate_get_scales h t phases e
  = Ok (map (λ ph, pedestal_scale h a b e nped / interval_length h a b
                   * of_bool (mask ph))%R phases,
        (Scalar <$> wfront)
        ++ [Arr (map (λ ph, n1 + rescale1 h a b e nped * of_bool (mask ph))%R phases);
            Arr (map (λ ph, n2 + rescale2 h a b e nped * of_bool (mask ph))%R phases)],
        np_sum (nped :: wfront ++ [n1; n2])).
Proof.
  intros Hpp Hnorms Hd Hdelta Hden mask.
  unfold LCBridgeTemplate_get_scales. rewrite Hnorms, Hpp. cbv zeta.
  rewrite (py_index_zero _ nped) by done.
  cbn [drop]. rewrite !drop_0.
  assert (Hlen : length (wfront ++ [n1; n2]) - 2 = length wfront).
  { rewrite length_app. cbn. lia. }
  rewrite Hlen, drop_app_length, take_app_length.
  mrun. rewrite bridge_mask_map. fold mask.
  unfold rescale1, rescale2, pedestal_scale, pedestal_denominator, integral_term,
    determinant, interval_length in *.
  cbv zeta in *.
  set (l1 := get_location (h a)) in *. set (l2 := get_location (h b)) in *.
  destruct (decide (l2 > l1)%R) as [Hgt|Hle];
    rewrite fdiv_ok by (by apply Rmult_integral_contrapositive_currified);
    rewrite fdiv_ok by done; cbn beta iota;
    rewrite fdiv_ok by (by apply Rmult_integral_contrapositive_currified);
    rewrite fdiv_ok by done; cbn beta iota;
    by rewrite !map_map.
Qed.



(** The curve of a bridge template: the plain mixture with its background,
    plus the bridge correction inside the interval. *)
Lemma bridge_call_direct h t (phases : list R) (e : R) (a b : loc)
    (front : list loc) (nped n1 n2 : R) (wfront : list R) :
  has_bridge t = true →
  p1p2 t = Some (a, b) →
  primitives t = front ++ [a; b] →
  norms_call (norms t) e = nped :: wfront ++ [n1; n2] →
  length wfront = length front →
  determinant h a b e ≠ 0%R →
  interval_length h a b ≠ 0%R →
  pedestal_denominator h a b e ≠ 0%R →
  call_direct h t phases e false
  = Ok (map (λ ph,
          (1 - np_sum (norms_call (norms t) e))
          + weighted_sum h (drop 1 (norms_call (norms t) e)) (primitives t) ph e
          + of_bool (bridge_mask (get_location (h a)) (get_location (h b)) ph)
            * bridge_correction h a b e nped ph)%R phases).
Proof.
  intros Hbridge Hpp Hprims Hnorms Hfront Hd Hdelta Hden.
  unfold call_direct, _get_scales. rewrite Hbridge.
  rewrite (bridge_get_scales_run h t phases e a b nped n1 n2 wfront) by done.
  mrun. rewrite Hprims.
  set (mask := bridge_mask (get_location (h a)) (get_location (h b))).
  rewrite (accumulate_pointwise h phases e _
             (((λ c _, c) <$> wfront)
              ++ [λ ph, (n1 + rescale1 h a b e nped * of_bool (mask ph))%R;
                  λ ph, (n2 + rescale2 h a b e nped * of_bool (mask ph))%R])).
  - rewrite map_map. f_equal. apply map_ext. intros ph.
    rewrite Hnorms. cbn [drop]. rewrite drop_0.
    rewrite mixture_app by (by rewrite length_fmap).
    rewrite weighted_sum_app by done.
    rewrite mixture_const. unfold mixture, weighted_sum, bridge_correction.
    cbn [zip_with]. rewrite !np_sum_cons. change (np_sum []) with 0%R.
    destruct (mask ph); cbn [of_bool]; lra.
  - apply Forall2_app.
    + clear. induction wfront as [|c wfront IH]; [constructor|].
      rewrite !fmap_cons. constructor; [done|]. apply IH.
    + repeat constructor.
Qed.


(** ** Boolean masks *)

Lemma select_map {A B} (f : A → B) (mask : list bool) (a : list A) :
  select mask (map f a) = map f (select mask a).
Proof.
  revert a. induction mask as [|m mask IH]; intros [|x a]; cbn; try done.
  destruct m; cbn; by rewrite IH.
Qed.

Lemma select_zip_with {A B C} (f : A → B → C) (mask : list bool)
    (a : list A) (b : list B) :
  select mask (zip_with f a b) = zip_with f (select mask a) (select mask b).
Proof.
  revert a b. induction mask as [|m mask IH]; intros a b.
  - by destruct (zip_with f a b), a, b.
  - destruct a as [|x a]; [done|]. destruct b as [|y b].
    + cbn. destruct m; cbn; [done|]. by destruct (select mask a).
    + cbn. destruct m; cbn; by rewrite IH.
Qed.

Lemma select_length {A} (mask : list bool) (a : list A) :
  length mask = length a → length (select mask a) = count_true mask.
Proof.
  revert a. induction mask as [|m mask IH]; intros [|x a] Hlen;
    cbn [select length] in *; try done.
  rewrite count_true_cons. destruct m; cbn [length]; rewrite IH by lia; done.
Qed.

Lemma select_all {A} (a : list A) : select (replicate (length a) true) a = a.
Proof. induction a as [|x a IH]; cbn; [done|]. by rewrite IH. Qed.

Lemma elem_of_select {A} (mask : list bool) (a : list A) (x : A) :
  x ∈ select mask a → ∃ i, mask !! i = Some true ∧ a !! i = Some x.
Proof.
  revert a. induction mask as [|m mask IH]; intros [|y a]; cbn;
    try (by intros ?%elem_of_nil).
  destruct m.
  - intros [->|Hx]%elem_of_cons; [by exists 0%nat|].
    destruct (IH a Hx) as (i & ? & ?). by exists (S i).
  - intros Hx. destruct (IH a Hx) as (i & ? & ?). by exists (S i).
Qed.

(** ** The random sampler *)

Lemma tab_length {A} (n : nat) (f : nat → A) : length (tab n f) = n.
Proof. unfold tab. by rewrite length_map, length_seq. Qed.

Lemma tab_lookup {A} (n : nat) (f : nat → A) (j : nat) :
  j < n → tab n f !! j = Some (f j).
Proof.
  intros Hj. unfold tab. rewrite lookup_map.
  by rewrite (proj2 (lookup_seq 0 n j j)).
Qed.

Lemma tab_lookup_Some {A} (n : nat) (f : nat → A) (j : nat) (x : A) :
  tab n f !! j = Some x → j < n ∧ x = f j.
Proof.
  intros Hx. assert (Hj : j < n).
  { apply lookup_lt_Some in Hx. by rewrite tab_length in Hx. }
  rewrite tab_lookup in Hx by done. split; [done|congruence].
Qed.

Lemma tab_ext {A} (n : nat) (f g : nat → A) :
  (∀ j, j < n → f j = g j) → tab n f = tab n g.
Proof.
  intros Hfg. unfold tab. apply map_ext_in. intros j Hj.
  apply Hfg. apply in_seq in Hj. lia.
Qed.

Lemma tab_eta {A} (d : A) (v : list A) : v = tab (length v) (λ j, nth j v d).
Proof.
  apply list_eq. intros j. destruct (decide (j < length v)) as [Hj|Hj].
  - rewrite tab_lookup by done.
    destruct (nth_lookup_or_length v j d) as [->|]; [done|lia].
  - rewrite !lookup_ge_None_2; [done|rewrite tab_length; lia|lia].
Qed.





(** A rectangular array is the table of its entries. *)
Lemma matrix_eta (n : nat) (rows : list (list R)) :
  Forall (λ row, length row = n) rows →
  rows = tab (length rows) (λ k, tab n (λ j, nth j (nth k rows []) 0%R)).
Proof.
  intros Hrect. rewrite (tab_eta [] rows) at 1. apply tab_ext. intros k Hk.
  destruct (nth_lookup_or_length rows k []) as [Hrow|]; [|lia].
  rewrite (tab_eta 0%R (nth k rows [])) at 1.
  by rewrite (proj1 (Forall_lookup _ _) Hrect k _ Hrow).
Qed.


















(** *** Assignment through a mask *)











End properties.

(** ** GaussianPrior *)

Section gaussian_prior.

(** Writing back what the mask selected: the selected entries return to
    their places and the others are zero. *)
Lemma scatter_select (mask : list bool) (xs : list R) :
  length mask = length xs →
  scatter mask (select mask xs) (replicate (length mask) 0%R)
  = zip_with (λ (m : bool) x, if m then x else 0%R) mask xs.
Proof.
  revert xs. induction mask as [|m mask IH]; intros [|x xs] Hlen; cbn in *; try done.
  destruct m; cbn; by rewrite IH by lia.
Qed.

Lemma existsb_false_select {A} (mask : list bool) (a : list A) :
  existsb (λ b : bool, b) mask = false → select mask a = [].
Proof.
  revert a. induction mask as [|m mask IH]; intros [|x a]; cbn; try done.
  destruct m; [done|]. apply IH.
Qed.

Lemma existsb_false_lookup (mask : list bool) (i : nat) (m : bool) :
  existsb (λ b : bool, b) mask = false → mask !! i = Some m → m = false.
Proof.
  revert i. induction mask as [|m' mask IH]; intros [|i]; cbn; try done.
  - destruct m'; [done|]. by intros _ [= <-].
  - destruct m'; [done|]. apply IH.
Qed.

Lemma np_where_ok (c : list bool) (a b : list R) :
  length c = length a → length a = length b →
  GaussianPrior.np_where c a b
  = Ok (zip_with (λ (ci : bool) '(ai, bi), if ci then ai else bi) c (zip a b)).
Proof.
  intros Hc Ha. unfold GaussianPrior.np_where. by destruct (decide _) as [|[]].
Qed.

Lemma np_mask_ok {A} (a : list A) (mask : list bool) :
  length mask = length a → np_mask a mask = Ok (select mask a).
Proof. intros Hlen. unfold np_mask. by destruct (decide _). Qed.

Lemma wrapped_lookup (mods : list bool) (a : list R) (i : nat) (m : bool) (x : R) :
  mods !! i = Some m → a !! i = Some x → wrapped mods a !! i = Some (wrap m x).
Proof.
  intros Hm Hx. unfold wrapped.
  rewrite lookup_zip_with, Hm. cbn.
  rewrite lookup_zip_with, list_lookup_fmap, Hx. cbn. by destruct m.
Qed.

Lemma wrapped_length (mods : list bool) (a : list R) :
  length mods = length a → length (wrapped mods a) = length a.
Proof.
  intros Hlen. unfold wrapped.
  rewrite length_zip_with, length_zip_with, length_fmap. lia.
Qed.

Lemma select_wrapped (mask mods : list bool) (a : list R) :
  zip_with (λ (ci : bool) '(ai, bi), if ci then ai else bi) (select mask mods)
    (zip (mod1 <$> select mask a) (select mask a))
  = select mask (wrapped mods a).
Proof.
  unfold wrapped. rewrite !select_zip_with. f_equal. f_equal.
  symmetry. apply select_map.
Qed.


Lemma sqrt2_sq : (sqrt 2 * sqrt 2 = 2)%R.
Proof. apply sqrt_sqrt. lra. Qed.

(** With the stored width [width * sqrt 2], the factor 2 cancels. *)
Lemma gradient_entry_enabled (periodic : bool) (param location width : R) :
  width ≠ 0%R →
  gradient_entry true periodic param location width
  = ((wrap periodic param - wrap periodic location) / width ^ 2)%R.
Proof.
  intros Hw. unfold gradient_entry.
  replace ((width * sqrt 2) ^ 2)%R with (2 * width ^ 2)%R
    by (cbn [pow]; rewrite !Rmult_1_r;
        replace (width * sqrt 2 * (width * sqrt 2))%R
          with (width * width * (sqrt 2 * sqrt 2))%R by ring;
        rewrite sqrt2_sq; ring).
  field. done.
Qed.

(** The constructor, with the mask made explicit: the stored arrays are
    the selected entries of the (wrapped) locations, of the widths times
    [sqrt 2] and of the periodic flags. *)
Lemma gaussian_prior_init (locations widths : list R) (mods : list bool)
    (mask : option (list bool)) :
  let enabled := default (replicate (length locations) true) mask in
  length widths = length locations →
  length mods = length locations →
  length enabled = length locations →
  GaussianPrior.__init__ locations widths mods mask
  = Ok (GaussianPrior.mk
          (select enabled (wrapped mods locations))
          (select enabled (map (λ w, w * sqrt 2)%R widths))
          (select enabled mods)
          enabled).
Proof.
  intros enabled Hw Hm He. unfold GaussianPrior.__init__.
  rewrite np_where_ok by (by rewrite ?length_fmap).
  fold (wrapped mods locations).
  pose proof (wrapped_length mods locations Hm) as Hx.
  cbn. destruct mask as [mask|]; cbn in enabled.
  - subst enabled.
    rewrite np_mask_ok by congruence. cbn.
    rewrite np_mask_ok by (rewrite length_map; congruence). cbn.
    rewrite np_mask_ok by congruence. done.
  - subst enabled. f_equal. f_equal.
    + rewrite <- Hx at 1. by rewrite select_all.
    + rewrite <- Hw. rewrite <- (length_map (λ w, (w * sqrt 2)%R)). by rewrite select_all.
    + rewrite <- Hm. by rewrite select_all.
Qed.

(** What [gradient] returns, entry by entry. *)
Lemma gradient_entries (locations widths params : list R) (mods : list bool)
    (mask : option (list bool)) :
  let enabled := default (replicate (length locations) true) mask in
  length widths = length locations →
  length mods = length locations →
  length enabled = length locations →
  length params = length locations →
  (∀ i w, enabled !! i = Some true → widths !! i = Some w → w ≠ 0%R) →
  ∃ gp g,
    GaussianPrior.__init__ locations widths mods mask = Ok gp
    ∧ GaussianPrior.gradient gp params = Ok g
    ∧ length g = length params
    ∧ ∀ i en m p x w,
        enabled !! i = Some en → mods !! i = Some m → params !! i = Some p →
        locations !! i = Some x → widths !! i = Some w →
        g !! i = Some (gradient_entry en m p x w)
        ∧ (en = true →
           gradient_entry en m p x w = ((wrap m p - wrap m x) / w ^ 2)%R).
Proof.
  intros enabled Hw Hm He Hp Hnz.
  exists (GaussianPrior.mk
            (select enabled (wrapped mods locations))
            (select enabled (map (λ w, w * sqrt 2)%R widths))
            (select enabled mods)
            enabled).
  cut (∃ g,
         GaussianPrior.gradient
           (GaussianPrior.mk
              (select enabled (wrapped mods locations))
              (select enabled (map (λ w, w * sqrt 2)%R widths))
              (select enabled mods)
              enabled) params = Ok g
         ∧ length g = length params
         ∧ ∀ i en m p x w,
             enabled !! i = Some en → mods !! i = Some m → params !! i = Some p →
             locations !! i = Some x → widths !! i = Some w →
             g !! i = Some (gradient_entry en m p x w)
             ∧ (en = true →
                gradient_entry en m p x w = ((wrap m p - wrap m x) / w ^ 2)%R)).
  { intros (g & Hg & Hrest). exists g. split; [by apply gaussian_prior_init|done]. }
  unfold GaussianPrior.gradient. cbn [GaussianPrior.mask GaussianPrior.x0
    GaussianPrior.s0 GaussianPrior.mod_].
  set (X0 := wrapped mods locations).
  set (S0 := map (λ w, (w * sqrt 2)%R) widths).
  set (WP := wrapped mods params).
  set (FULL := zip_with Rdiv (map (Rmult 2) (zip_with Rminus WP X0))
                 (map (λ s, (s ^ 2)%R) S0)).
  assert (Hentry : ∀ i en m p x w,
            enabled !! i = Some en → mods !! i = Some m → params !! i = Some p →
            locations !! i = Some x → widths !! i = Some w →
            FULL !! i = Some (gradient_entry true m p x w)).
  { intros i en m p x w Hen Hmi Hpi Hxi Hwi. unfold FULL, gradient_entry.
    rewrite lookup_zip_with, !lookup_map, lookup_zip_with.
    unfold WP, X0, S0.
    rewrite (wrapped_lookup _ _ _ _ _ Hmi Hpi), (wrapped_lookup _ _ _ _ _ Hmi Hxi).
    cbn. by rewrite !lookup_map, Hwi. }
  assert (Hsimpl : ∀ i en m p x w,
            enabled !! i = Some en → widths !! i = Some w → en = true →
            gradient_entry en m p x w = ((wrap m p - wrap m x) / w ^ 2)%R).
  { intros i en m p x w Hen Hwi ->. apply gradient_entry_enabled. by eapply Hnz. }
  destruct (existsb (λ b : bool, b) enabled) eqn:Hany; cbn [negb]; eexists.
  - (* some entry is enabled *)
    rewrite np_mask_ok by congruence. rrun.
    rewrite np_where_ok; last first.
    { by rewrite length_fmap. }
    { rewrite length_fmap, !select_length by congruence. done. }
    rewrite select_wrapped. fold WP. rrun.
    unfold GaussianPrior.vsub.
    destruct (decide _) as [_|Hne]; last first.
    { exfalso. apply Hne. rewrite !select_length; [done|..]; unfold X0, WP;
        rewrite wrapped_length; congruence. }
    rrun. rewrite <- select_zip_with, <- !select_map.
    unfold GaussianPrior.vdiv.
    destruct (decide _) as [_|Hne]; last first.
    { exfalso. apply Hne. rewrite !select_length; [done|..].
      - unfold S0. rewrite !length_map. congruence.
      - unfold X0, WP. rewrite length_map, length_zip_with, !wrapped_length; [lia|congruence..]. }
    destruct (decide _) as [Hex|_].
    { exfalso. apply Exists_exists in Hex as (s & Hs & ->).
      apply elem_of_select in Hs as (i & Hi & Hsi).
      unfold S0 in Hsi. rewrite !lookup_map in Hsi.
      destruct (widths !! i) as [w|] eqn:Hwi; [|done]. cbn in Hsi.
      injection Hsi as Hsi. apply (Hnz i w Hi Hwi).
      assert (Hsq : (2 * (w * w) = 0)%R).
      { rewrite <- Hsi. cbn [pow]. rewrite Rmult_1_r.
        replace (w * sqrt 2 * (w * sqrt 2))%R
          with (w * w * (sqrt 2 * sqrt 2))%R by ring.
        rewrite sqrt2_sq. ring. }
      nra. }
    rrun. rewrite <- select_zip_with. fold FULL.
    assert (HlenF : length FULL = length locations).
    { unfold FULL, WP, X0, S0.
      rewrite length_zip_with, !length_map, length_zip_with, !wrapped_length;
        [lia|congruence..]. }
    unfold np_assign_mask.
    rewrite length_replicate. destruct (decide _) as [_|]; [|done].
    rewrite select_length by congruence.
    destruct (decide _) as [_|]; [|done].
    rewrite scatter_select by congruence.
    split; [reflexivity|]. split.
    { rewrite length_zip_with. lia. }
    intros i en m p x w Hen Hmi Hpi Hxi Hwi. split; [|by eapply Hsimpl].
    rewrite lookup_zip_with, Hen. cbn [mbind option_bind].
    rewrite (Hentry i en m p x w) by done.
    cbn [mbind option_bind]. by destruct en.
  - (* no entry is enabled *)
    split; [reflexivity|]. split.
    { unfold zeros_like. by rewrite length_map. }
    intros i en m p x w Hen Hmi Hpi Hxi Hwi. split; [|by eapply Hsimpl].
    rewrite (existsb_false_lookup enabled i en Hany Hen).
    unfold zeros_like. by rewrite lookup_map, Hpi.
Qed.

(** C5 (as amended).  [GaussianPrior.gradient] returns, on every enabled
    entry of nonzero width, [2*(wrapped_param - target)/(width*sqrt 2)^2],
    which is [(wrapped_param - target)/width^2], and zero on every other
    entry; the parameter is wrapped modulo 1 exactly where the periodic
    flag is set, and the target is the location wrapped in the same way. *)
Theorem C5_gradient_entries (locations widths params : list R) (mods : list bool)
    (mask : option (list bool)) :
  let enabled := default (replicate (length locations) true) mask in
  length widths = length locations →
  length mods = length locations →
  length enabled = length locations →
  length params = length locations →
  (∀ i w, enabled !! i = Some true → widths !! i = Some w → w ≠ 0%R) →
  ∃ gp g,
    GaussianPrior.__init__ locations widths mods mask = Ok gp
    ∧ GaussianPrior.gradient gp params = Ok g
    ∧ length g = length params
    ∧ ∀ i en m p x w,
        enabled !! i = Some en → mods !! i = Some m → params !! i = Some p →
        locations !! i = Some x → widths !! i = Some w →
        g !! i = Some (gradient_entry en m p x w)
        ∧ (en = true →
           gradient_entry en m p x w = ((wrap m p - wrap m x) / w ^ 2)%R).
Proof. apply gradient_entries. Qed.

End gaussian_prior.

(** * The properties on concrete templates *)

Section examples.
Import Fixture.

(** The reals of the fixture compare by [lra]. *)
Ltac rdecide :=
  repeat match goal with
    | |- context [decide (?a = ?b :> R)] => destruct (decide (a = b :> R)); [try lra|try lra]
    | |- context [decide (?a > ?b)%R] => destruct (decide (a > b)%R); [try lra|try lra]
    | |- context [decide (?a <= ?b)%R] => destruct (decide (a <= b)%R); [try lra|try lra]
    | |- context [bool_decide (?a < ?b)%R] =>
        first [rewrite (bool_decide_eq_true_2 (a < b)%R) by lra
              |rewrite (bool_decide_eq_false_2 (a < b)%R) by lra]
    end.

(** The primitives of the fixture, evaluated. *)
Ltac fixture :=
  unfold heap2, parabola, line, rising, falling, quarter2, quarter3, uneven;
  cbn;
  unfold poly_call, poly_integrate;
  cbn.

(** C1, on two polynomial primitives with weights 1/4 and 1/4. *)
Lemma C1_call_weighted_sum_witness :
  let w := world2 (template false quarter2) parabola line in
  has_bridge (self w) = false
  ∧ __call__ [0%R] 3 false false w
    = (Ok (fin <$> map (λ ph,
             weighted_sum (heap w) (norms_call (norms (self w)) 3)
               (primitives (self w)) ph 3
             + (1 - np_sum (norms_call (norms (self w)) 3)))%R [0%R]), w).
Proof.
  split; [reflexivity|].
  exact (proj1 (C1_call_weighted_sum
                  (world2 (template false quarter2) parabola line) [0%R] 3 eq_refl)).
Defined.

(** C3.  With [add_bg=True], [single_component] adds [n.sum()], the total
    of the weights, where the background is [1 - n.sum()]: on weights 1/4
    and 1/8 the first component at phase 1/2 comes with 3/8 on top, not
    with the background 5/8. *)
Theorem C3_single_component_add_bg_adds_total :
  let h := heap2 parabola line in
  let t := template false uneven in
  single_component h t 0 [(1 / 2)%R] 3 true = Ok [(3 / 8)%R]
  ∧ (prim_call (h 0%nat) (1 / 2) 3 * (1 / 4)
     + (1 - np_sum (norms_call (norms t) 3)) = 5 / 8)%R
  ∧ single_component h t 0 [(1 / 2)%R] 3 false = Ok [0%R].
Proof.
  cbv zeta. split; [|split].
  - rewrite (single_component_value _ _ 0%nat 0%nat (1 / 4)%R) by reflexivity.
    cbn. do 2 f_equal. fixture. lra.
  - cbn. fixture. lra.
  - rewrite (single_component_value _ _ 0%nat 0%nat (1 / 4)%R) by reflexivity.
    cbn. do 2 f_equal. fixture. lra.
Qed.

(** C5, on one enabled, non-periodic parameter of width 1. *)
Lemma C5_gradient_entries_witness :
  ∃ gp g,
    GaussianPrior.__init__ [0%R] [1%R] [false] None = Ok gp
    ∧ GaussianPrior.gradient gp [1%R] = Ok g
    ∧ length g = 1.
Proof.
  destruct (C5_gradient_entries [0%R] [1%R] [1%R] [false] None
              eq_refl eq_refl eq_refl eq_refl)
    as (gp & g & Hinit & Hgrad & Hlen & _).
  - intros [|i] w Hen Hw; cbn in Hw; [|done]. injection Hw as <-. lra.
  - by exists gp, g.
Defined.

(** C5 as stated fails: with target 0 and width 1 the gradient at the
    parameter 1 is 1, where [2*(param - target)/width^2] is 2. *)
Lemma C5_factor_two_counterexample :
  ∃ gp g,
    GaussianPrior.__init__ [0%R] [1%R] [false] None = Ok gp
    ∧ GaussianPrior.gradient gp [1%R] = Ok g
    ∧ g !! 0%nat = Some 1%R
    ∧ (2 * (wrap false 1 - wrap false 0) / 1 ^ 2 = 2)%R.
Proof.
  destruct (gradient_entries [0%R] [1%R] [1%R] [false] None
              eq_refl eq_refl eq_refl eq_refl)
    as (gp & g & Hinit & Hgrad & Hlen & Hat).
  - intros [|i] w Hen Hw; cbn in Hw; [|done]. injection Hw as <-. lra.
  - exists gp, g. do 2 (split; [done|]). split.
    + destruct (Hat 0%nat true false 1%R 0%R 1%R eq_refl eq_refl eq_refl eq_refl eq_refl)
        as [Hg Hval].
      rewrite Hg, (Hval eq_refl). f_equal. cbn. field.
    + cbn. field.
Qed.

(** C9, on two distinct primitives. *)
Lemma C9_set_parameters_witness :
  ∃ w' b,
    set_parameters [1; 2; 1 / 4; 1; 2; 3 / 4; 1 / 8; 1 / 8]%R true
      (world2 (template false quarter2) parabola line) = (Ok b, w').
Proof.
  destruct (C9_set_parameters_flag_and_state
              (world2 (template false quarter2) parabola line)
              [1; 2; 1 / 4; 1; 2; 3 / 4; 1 / 8; 1 / 8]%R true)
    as (w' & b & Hrun & _).
  - cbn. apply NoDup_cons. split; [by intros [=]%list_elem_of_singleton|].
    apply NoDup_singleton.
  - by exists w', b.
Defined.


(** On a standard template of two primitives: deleting the first and
    adding the object at location 0 again. *)
Lemma structural_edits_copy_standard_example :
  let w := world2 (template false quarter2) parabola line in
  ∃ nt w',
    delete_primitive 0 false w = (Ok (Some nt), w')
    ∧ has_bridge nt = false
    ∧ deep_copies w w' [1] (primitives nt)
    ∧ self w' = self w.
Proof.
  cbv zeta.
  destruct (structural_edits_copy_standard
              (world2 (template false quarter2) parabola line) 0 0 (1 / 10)%R)
    as [(nt & w' & Hrun & Hcls & Hcopies & _ & Hself & _) _].
  - reflexivity.
  - cbn. lia.
  - cbn. unfold in_range. lia.
  - reflexivity.
  - reflexivity.
  - reflexivity.
  - cbn. repeat constructor.
  - by exists nt, w'.
Defined.

(** C10, on a bridge template of two primitives and three weights:
    deleting the first primitive leaves one primitive and two weights,
    adding one gives three primitives and four weights, and [LCTemplate]
    takes neither. *)
Lemma C10_bridge_edits_raise_witness :
  let t := template true quarter3 in
  let w := world2 t parabola line in
  has_bridge t = true
  ∧ length (primitives t) = 2
  ∧ _sanity_checks t = Ok ()
  ∧ (delete_primitive 0 false w).1 = Raise ValueError
  ∧ (add_primitive 0 (1 / 10) false w).1 = Raise ValueError.
Proof.
  cbv zeta. do 2 (split; [reflexivity|]).
  apply (C10_bridge_edits_raise
           (world2 (template true quarter3) parabola line) 0 0 (1 / 10)%R).
  - reflexivity.
  - cbn. lia.
  - cbn. unfold in_range. lia.
  - reflexivity.
  - reflexivity.
  - reflexivity.
  - cbn. repeat constructor.
Defined.

(** C8, on a standard template with a grid of five points. *)
Lemma C8_eval_cache_nearest_nan_witness :
  let w := world2 (template false quarter2) parabola line in
  ∃ grid w1, get_cache 0 w = (Ok grid, w1).
Proof.
  cbv zeta.
  destruct (C8_eval_cache_nearest_nan
              (world2 (template false quarter2) parabola line) [nan] 0)
    as (grid & w1 & Hget & _).
  - reflexivity.
  - intros order Hd. cbn in Hd. by rewrite lookup_empty in Hd.
  - cbn. lia.
  - reflexivity.
  - by exists grid, w1.
Defined.

(** C8 as stated fails: phases that hold NaN and, besides, a phase far
    outside the grid raise IndexError from the retry. *)
Lemma C8_nan_and_out_of_range_counterexample :
  let w := world2 (template false quarter2) parabola line in
  isnan <$> [nan; fin 5] = [true; false]
  ∧ (eval_cache [nan; fin 5] 0 w).1 = Raise IndexError.
Proof.
  cbv zeta. split; [reflexivity|].
  destruct (get_cache_standard (world2 (template false quarter2) parabola line) 0)
    as (grid & w1 & Hget & Hlen & _).
  - reflexivity.
  - cbn. lia.
  - intros order Hd. cbn in Hd. by rewrite lookup_empty in Hd.
  - cbn in Hlen.
    rewrite (eval_cache_nan_and_out_of_range _ _ 0 grid w1 1%nat 5%R);
      [reflexivity|reflexivity|exact Hget|lia| |reflexivity|].
    + rewrite fmap_cons, count_true_cons. cbn. lia.
    + cbn [world2 self template ncache astype_int].
      rewrite (trunc_nonneg _ 20) by lra.
      destruct (decide _) as [_|Hne]; [|exfalso; apply Hne; lia].
      unfold in_range. lia.
Qed.


(** The geometry of the bridge between the parabola and the line. *)
Lemma parabola_line_geometry :
  determinant (heap2 parabola line) 0 1 3 = 3%R
  ∧ interval_length (heap2 parabola line) 0 1 = (1 / 2)%R
  ∧ integral_term (heap2 parabola line) 0 1 3 = (11 / 8)%R.
Proof.
  unfold determinant, interval_length, integral_term. fixture.
  rdecide. cbn. repeat split; lra.
Qed.




(** C4.  A template of the parabola and the line with weights 1/4 and 1/8:
    the grid of order 0 is computed, then the line is deleted in place.
    [delete_primitive] does not call [mark_cache_dirty]: order 0 is still
    clean, and the cache answers 23/16 at phase 0, the value of the
    template before the deletion, where the template now evaluates to 7/4. *)
Theorem C4_inplace_delete_serves_stale_grid :
  let w0 := world2 (template false uneven) parabola line in
  ∃ grid w1 w2,
    get_cache 0 w0 = (Ok grid, w1)
    ∧ delete_primitive 1 true w1 = (Ok None, w2)
    ∧ is_dirty (self w2) 0 = false
    ∧ eval_cache [fin 0] 0 w2 = (Ok [fin (23 / 16)], w2)
    ∧ call_direct (heap w2) (self w2) [0%R] 3 false = Ok [(7 / 4)%R].
Proof.
  cbv zeta.
  set (w0 := world2 (template false uneven) parabola line).
  (* the grid *)
  destruct (grid_values_standard (heap w0) (self w0) 0 eq_refl ltac:(cbn; lia))
    as (grid & Hgrid & Hlen).
  assert (Hgrid0 : grid !! 0%nat = Some (23 / 16)%R).
  { unfold grid_values in Hgrid. cbn [w0 world2 self template ncache] in Hgrid.
    unfold linspace01 in Hgrid.
    destruct (decide (4 + 1 < 0)%Z) as [|_]; [lia|]. cbv beta iota delta [mbind mret result_bind result_ret] in Hgrid.
    destruct (decide (0 = 0)%Z) as [_|]; [|done].
    rewrite call_direct_standard in Hgrid by reflexivity.
    injection Hgrid as <-. cbn [Z.to_nat Z.add Pos.to_nat Pos.iter_op Pos.add
      Pos.succ Init.Nat.add seq map lookup list_lookup].
    f_equal. destruct (decide (4 + 1 = 1)%Z) as [|_]; [lia|].
    unfold weighted_sum. fixture. lra. }
  pose proof (get_cache_fresh w0 0 grid (lookup_empty _) Hgrid Hlen) as Hget.
  set (w1 := mkWorld
               (with_cache_dirty (with_cache (self w0) (<[0%Z:=grid]> (_cache (self w0))))
                  (<[0%Z:=false]> (<[0%Z:=true]> (_cache_dirty (self w0)))))
               (heap w0) (next_loc w0) (np_random w0) (stdout w0)) in *.
  (* the deletion *)
  destruct (delete_primitive_inplace w1 1) as (w2 & Hdel & Hcopies & Hnorms & Hself).
  { cbn. unfold in_range. lia. }
  { cbn. lia. }
  { cbn. repeat constructor. }
  cbn [w1 w0 world2 self template primitives norms next_loc with_cache with_cache_dirty
       length normalized Z.to_nat delete list_delete] in Hself, Hcopies, Hnorms.
  exists grid, w1, w2. split; [exact Hget|]. split; [exact Hdel|].
  assert (Hdirty : _cache_dirty (self w2) !! 0%Z = Some false).
  { rewrite Hself. cbn. apply lookup_insert_eq. }
  assert (Hcache : _cache (self w2) !! 0%Z = Some grid).
  { rewrite Hself. cbn. apply lookup_insert_eq. }
  split; [by unfold is_dirty; rewrite Hdirty|]. split.
  - (* the cache still serves the old grid *)
    assert (Hclean : get_cache 0 w2 = (Ok grid, w2)).
    { apply get_cache_clean; [done|done|]. rewrite Hself. cbn. exact Hlen. }
    rewrite (eval_cache_nearest_run w2 [fin 0] 0 grid w2) by (by rewrite ?Hself).
    cbv zeta. rewrite Hself at 1. cbn [ncache with_norms with_primitives nearest_indices
      map np_mul np_add np_lift2 astype_int].
    rewrite (trunc_nonneg _ 0) by lra.
    destruct (decide _) as [_|Hne]; [|exfalso; apply Hne; lia].
    rewrite np_take_cons, (py_index_zero grid _ Hgrid0). reflexivity.
  - (* the template itself has changed *)
    destruct Hcopies as (Hprims & Hcopy & _).
    rewrite call_direct_standard by (by rewrite Hself).
    rewrite Hself. cbn [norms primitives with_norms with_primitives map].
    pose proof (Hcopy 0%nat 0%nat eq_refl) as Hobj. cbn in Hobj.
    change (normalized 2 1) with 1%Z.
    change (delete (Z.to_nat 1) [0%nat; 1%nat]) with [0%nat].
    change (delete_component uneven 1)
      with [(1 / 4 * np_sum uneven / np_sum [(1 / 4)%R])%R].
    unfold weighted_sum. cbn. rewrite Hobj.
    do 2 f_equal. fixture. field.
Qed.


(** The same run, evaluated: the thresholds are 1/4 and 3/4, both photons
    go to the second primitive, which draws at its location 3/4, and the
    background bucket stays empty. *)
Lemma random_two_photons :
  let w := world2 (template false [1 / 4; 1 / 2]%R) rising falling in
  random 2 None (EnScalar 3) true w
  = (Ok ([3 / 4; 3 / 4]%R, Some [1%Z; 1%Z]), w).
Proof.
  cbv zeta. unfold random.
  unfold mbind at 1, M_bind at 1, get_self at 1.
  cbn [self world2 template primitives norms length].
  destruct (decide (2 = 0)) as [|_]; [lia|].
  unfold mbind at 1, M_bind at 1, mret at 1, M_ret at 1.
  unfold mbind at 1, M_bind at 1, mret at 1, M_ret at 1.
  cbn [norms_call_vec weights_norm map replicate length sum_axis0 foldr zip_with].
  match goal with
  | |- context [cumsum_axis0 ?pp] =>
      assert (Hcpp : cumsum_axis0 pp
                     = [[fin (1 / 4); fin (1 / 4)];
                        [fin (3 / 4); fin (3 / 4)];
                        [fin 1; fin 1]]%R)
  end.
  { unfold partition_row. cbn [zip zip_with app fmap list_fmap map].
    destruct (decide ((1 / 4 + (1 / 2 + 0))%R = 0%R)) as [|_]; [lra|].
    cbn [cumsum_axis0 cumsum_from zip_with np_add np_lift2].
    repeat f_equal; field. }
  rewrite Hcpp. clear Hcpp.
  unfold mbind at 1, M_bind at 1, lift at 1.
  change (py_index [[fin (1 / 4); fin (1 / 4)]; [fin (3 / 4); fin (3 / 4)];
                    [fin 1; fin 1]]%R (-1))
    with (Ok [fin 1; fin 1] : result (list npfloat)).
  cbv beta iota.
  assert (Hclose : allclose1 [fin 1; fin 1] = true).
  { unfold allclose1. cbn [forallb]. replace (1 - 1)%R with 0%R by lra.
    rewrite Rabs_R0, Rabs_R1. by rewrite bool_decide_eq_true_2 by lra. }
  rewrite Hclose. clear Hclose.
  unfold mbind at 1, M_bind at 1, mret at 1, M_ret at 1.
  unfold mbind at 1, M_bind at 1, rand at 1.
  cbn [np_random_rand half_rand np_random world2 replicate self heap next_loc stdout].
  unfold mbind at 1, M_bind at 1, lift at 1.
  cbn [reverse rev_append seq assign_loop].
  rewrite (py_index_nat _ 1 [fin (3 / 4); fin (3 / 4)]%R) by reflexivity.
  rewrite (py_index_nat _ 0 [fin (1 / 4); fin (1 / 4)]%R) by reflexivity.
  rrun. cbn [zip_with np_lt]. rdecide. cbn [Z.of_nat Pos.of_succ_nat].
  cbn [imap sample_loop fmap list_fmap].
  repeat match goal with
    | |- context [bool_decide (?a = ?b :> Z)] =>
        first [rewrite (bool_decide_eq_true_2 (a = b)) by lia
              |rewrite (bool_decide_eq_false_2 (a = b)) by lia]
    end.
  cbv beta iota zeta delta [mbind mret M_bind M_ret lift random_of rand compose].
  cbn [count_true select filter list_filter length heap self next_loc np_random stdout].
  reflexivity.
Qed.


End examples.

(** * More of the module: constructors, cache, phase shifts, edits *)

Section more_properties.
Context {P NM G : Type} `{!NumpyRandom G, !LCPrimitive P G, !NormMap NM}.
Implicit Types (w : world P NM G) (t : LCTemplate NM) (h : loc → P).

(** ** Construction of a bridge template *)

Lemma py_index_from_end {A} (front : list A) (x : A) (back : list A) :
  py_index (front ++ x :: back) (- Z.of_nat (S (length back))) = Ok x.
Proof.
  unfold py_index. rewrite length_app. cbn [length].
  destruct (decide (- Z.of_nat (S (length back)) < 0)%Z) as [_|]; [|lia].
  destruct (decide _) as [_|]; [|lia].
  replace (Z.to_nat (- Z.of_nat (S (length back))
                     + Z.of_nat (length front + S (length back))))
    with (length front + 0) by lia.
  by rewrite lookup_app_r, Nat.add_0_r, Nat.sub_diag by lia.
Qed.

Lemma py_index_short {A} (a : list A) (k : Z) :
  (Z.of_nat (length a) < k)%Z → py_index a (- k) = Raise IndexError.
Proof.
  intros Hk. unfold py_index.
  destruct (decide (- k < 0)%Z) as [_|]; [|lia].
  destruct (decide _) as [|_]; [lia|done].
Qed.

(** A list of two elements at least ends with two elements. *)
Lemma last_two_split {A} (l : list A) :
  2 ≤ length l → ∃ front a b, l = front ++ [a; b].
Proof.
  intros Hl. destruct (reverse l) as [|b [|a r]] eqn:Hr;
    pose proof (f_equal length Hr) as Hn; rewrite length_reverse in Hn;
    cbn in Hn; [lia|lia|].
  apply (f_equal reverse) in Hr. rewrite reverse_involutive in Hr.
  exists (reverse r), a, b. by rewrite Hr, !reverse_cons, <- app_assoc.
Qed.

(** With the counts right and two primitives at the end of the list, the
    bridge constructor returns, and p1 and p2 are these two. *)
Lemma bridge_init_last_two h (front : list loc) (a b : loc) (nm : NM) :
  length (front ++ [a; b]) + 1 = norms_len nm →
  LCBridgeTemplate__init__ h (front ++ [a; b]) (NormsObj nm)
  = Ok (mkLCTemplate (front ++ [a; b]) nm true (Some (a, b))
          (existsb (λ l, prim_shift_mode (h l)) (front ++ [a; b])) ∅ ∅ 1000 1).
Proof.
  intros Hlen. unfold LCBridgeTemplate__init__. rrun.
  rewrite (init_ok true h (front ++ [a; b]) nm) by lia.
  cbn [primitives]. unfold with_p1p2. cbn.
  pose proof (py_index_from_end front a [b]) as H2.
  pose proof (py_index_from_end (front ++ [a]) b []) as H1.
  rewrite <- app_assoc in H1.
  change (py_index (front ++ [a; b]) (-2) = Ok a) in H2.
  change (py_index (front ++ [a; b]) (-1) = Ok b) in H1.
  by rewrite H2, H1.
Qed.

(** X1.  [LCBridgeTemplate(primitives, norms)] with a norm map raises
    ValueError when [len(primitives) != len(norms) - 1]; past that check,
    it raises IndexError at [self.primitives[-2]] when there are fewer than
    two primitives; otherwise it returns a bridge template whose p1 and p2
    are the last two primitives, with an empty cache and the default cache
    properties. *)
Theorem bridge_init_outcomes h (prims : list loc) (nm : NM) :
  LCBridgeTemplate__init__ h prims (NormsObj nm)
  = if decide (Z.of_nat (length prims) ≠ Z.of_nat (norms_len nm) - 1)%Z
    then Raise ValueError
    else match reverse prims with
         | b :: a :: _ =>
             Ok (mkLCTemplate prims nm true (Some (a, b))
                   (existsb (λ l, prim_shift_mode (h l)) prims) ∅ ∅ 1000 1)
         | _ => Raise IndexError
         end.
Proof.
  destruct (decide _) as [Hne|Heq].
  - unfold LCBridgeTemplate__init__. rrun.
    by rewrite (proj2 (init_validates true h prims nm) Hne).
  - assert (Hc : (Z.of_nat (length prims) = Z.of_nat (norms_len nm) - 1)%Z) by lia.
    pose proof (init_ok true h prims nm Hc) as Hinit. clear Hc.
    destruct (reverse prims) as [|b [|a r]] eqn:Hr;
      apply (f_equal reverse) in Hr; rewrite reverse_involutive in Hr; subst prims.
    + unfold LCBridgeTemplate__init__. rrun. by rewrite Hinit.
    + unfold LCBridgeTemplate__init__. rrun. by rewrite Hinit.
    + clear Hinit. rewrite !reverse_cons, <- app_assoc in *. cbn [app] in *.
      apply bridge_init_last_two. lia.
Qed.


(** ** The evaluation cache *)

(** A dirty order is recomputed from the primitives and the norms as they
    are now. *)
Lemma get_cache_dirty w (order : Z) :
  has_bridge (self w) = false → (0 ≤ ncache (self w))%Z →
  is_dirty (self w) order = true →
  ∃ v w1,
    get_cache order w = (Ok v, w1)
    ∧ grid_values (heap w) (self w) order = Ok v
    ∧ Z.of_nat (length v) = (ncache (self w) + 1)%Z
    ∧ _cache (self w1) !! order = Some v
    ∧ _cache_dirty (self w1) !! order = Some false
    ∧ heap w1 = heap w
    ∧ has_bridge (self w1) = false
    ∧ ncache (self w1) = ncache (self w)
    ∧ interpolation (self w1) = interpolation (self w).
Proof.
  intros Hstd Hn Hd.
  destruct (grid_values_standard (heap w) (self w) order Hstd) as (v & Hv & Hlen);
    [lia|].
  exists v. unfold get_cache, read_dirty, read_cache. mrun.
  unfold is_dirty in Hd.
  destruct (_cache_dirty (self w) !! order) as [[|]|] eqn:Hdo; [|done|]; mrun.
  - rewrite set_cache_run, Hv. mrun. rewrite lookup_insert_eq. mrun.
    destruct (decide _) as [Hne|_]; [done|]. mrun. rewrite lookup_insert_eq.
    eexists. split; [reflexivity|]. cbn. rewrite !lookup_insert_eq. by repeat split.
  - rewrite set_cache_run. mrun.
    change (grid_values (heap w)
              (with_cache_dirty (self w) (<[order:=true]> (_cache_dirty (self w))))
              order) with (grid_values (heap w) (self w) order).
    rewrite Hv. mrun. rewrite lookup_insert_eq. mrun.
    destruct (decide _) as [Hne|_]; [done|]. mrun. rewrite lookup_insert_eq.
    eexists. split; [reflexivity|]. cbn. rewrite !lookup_insert_eq. by repeat split.
Qed.

(** X2.  On a standard template [get_cache(order)] returns a grid of
    [ncache + 1] values, whatever the cache held; once it has, the same
    call is answered from the cache alone: it returns the same grid and
    changes nothing, whatever has become of the primitives meanwhile. *)
Theorem get_cache_hit_ignores_primitives w (order : Z) :
  has_bridge (self w) = false → (0 ≤ ncache (self w))%Z → cache_wf (self w) →
  ∃ grid w1,
    get_cache order w = (Ok grid, w1)
    ∧ Z.of_nat (length grid) = (ncache (self w) + 1)%Z
    ∧ ∀ (h' : loc → P) (nl : nat) (g : G) (out : list message),
        get_cache order (mkWorld (self w1) h' nl g out)
        = (Ok grid, mkWorld (self w1) h' nl g out).
Proof.
  intros Hstd Hn Hwf.
  destruct (get_cache_standard w order Hstd Hn Hwf)
    as (grid & w1 & Hget & Hlen & Hc & Hd & _ & _ & _ & _ & _ & _ & Hnc & _).
  exists grid, w1. split; [done|]. split; [done|].
  intros h' nl g out. apply get_cache_clean; cbn [self]; [done|done|].
  by rewrite Hnc.
Qed.

(** X3.  After [set_parameters(p)] on a standard template, [get_cache]
    recomputes: the grid it returns is the one evaluated from the
    primitives and the norm map as [set_parameters] left them. *)
Theorem set_parameters_then_get_cache w (p : list R) (free : bool) (order : Z) :
  has_bridge (self w) = false → (0 ≤ ncache (self w))%Z →
  ∃ (b : bool) w1 grid w2,
    set_parameters p free w = (Ok b, w1)
    ∧ get_cache order w1 = (Ok grid, w2)
    ∧ grid_values (heap w1) (self w1) order = Ok grid
    ∧ Z.of_nat (length grid) = (ncache (self w) + 1)%Z.
Proof.
  intros Hstd Hn.
  pose proof (set_parameters_dirty w p free order) as Hd.
  unfold set_parameters, mark_cache_dirty in *. revert Hd. mrun.
  destruct (set_parameters_loop_self p free (primitives (self w)) w 0%nat true)
    as ([start b] & w0 & -> & Hself).
  mrun. intros Hd. cbn [snd self] in Hd.
  match goal with
  | |- context [(Ok b, ?w1)] =>
      destruct (get_cache_dirty w1 order) as (v & w2 & Hget & Hv & Hlen & _);
        [done|done|exact Hd|];
      exists b, w1, v, w2
  end.
  by repeat split.
Qed.

(** The grid of [np.linspace(0, 1, n + 1)]. *)
Lemma linspace01_grid (n : Z) :
  (0 < n)%Z →
  linspace01 (n + 1)
  = Ok (map (λ i : nat, INR i / IZR n)%R (seq 0 (Z.to_nat (n + 1)))).
Proof.
  intros Hn. unfold linspace01.
  destruct (decide (n + 1 < 0)%Z) as [|_]; [lia|].
  destruct (decide (n + 1 = 1)%Z) as [|_]; [lia|].
  by replace (n + 1 - 1)%Z with n by lia.
Qed.

(** Half a bin is added and the cast truncates: a phase on the grid finds
    its own index. *)
Lemma nearest_indices_grid (n : Z) (ks : list nat) :
  (0 < n < 2 ^ 63)%Z →
  Forall (λ k, Z.of_nat k ≤ n)%Z ks →
  nearest_indices n (fin <$> map (λ k, INR k / IZR n)%R ks) = Z.of_nat <$> ks.
Proof.
  intros Hn Hks. unfold nearest_indices.
  induction Hks as [|k ks Hk _ IH]; [done|].
  cbn [map fmap list_fmap]. f_equal; [|exact IH].
  cbn [np_mul np_add np_lift2 astype_int].
  assert (Hx : (INR k / IZR n * IZR n + 1 / 2 = IZR (Z.of_nat k) + 1 / 2)%R).
  { rewrite <- INR_IZR_INZ. field. apply not_0_IZR. lia. }
  rewrite Hx.
  assert (Ht : trunc (IZR (Z.of_nat k) + 1 / 2) = Z.of_nat k).
  { apply trunc_nonneg; [lra|].
    assert (0 <= IZR (Z.of_nat k))%R by (apply IZR_le; lia). lra. }
  rewrite Ht. destruct (decide _) as [_|]; [done|lia].
Qed.

Lemma np_take_tab {A} (g : nat → A) (n : nat) (ks : list nat) :
  Forall (λ k, k < n) ks →
  np_take (map g (seq 0 n)) (Z.of_nat <$> ks) = Ok (map g ks).
Proof.
  induction 1 as [|k ks Hk _ IH]; [done|].
  rewrite fmap_cons, np_take_cons, IH.
  rewrite (py_index_nat _ k (g k)); [done|].
  rewrite lookup_map. by rewrite (proj2 (lookup_seq 0 n k k)).
Qed.

(** X4.  Nearest-point evaluation from the cache, at phases on the grid
    [k / ncache]: [self(phases, log10_ens, suppress_bg, use_cache=True)]
    returns what the direct evaluation returns at the energy 3 and with the
    background, whatever [log10_ens] and [suppress_bg] are. *)
Theorem cached_call_on_grid w (ks : list nat) (e : R) (suppress_bg : bool) :
  has_bridge (self w) = false →
  interpolation (self w) = 0%Z →
  (0 < ncache (self w) < 2 ^ 63)%Z →
  is_dirty (self w) 0 = true →
  Forall (λ k, Z.of_nat k ≤ ncache (self w))%Z ks →
  let phases := map (λ k, INR k / IZR (ncache (self w)))%R ks in
  ∃ v w1,
    __call__ phases e suppress_bg true w = (Ok (fin <$> v), w1)
    ∧ call_direct (heap w) (self w) phases 3 false = Ok v.
Proof.
  intros Hstd Hint Hn Hd Hks phases.
  destruct (get_cache_dirty w 0 Hstd) as (grid & w1 & Hget & Hgrid & _);
    [lia|done|].
  unfold grid_values in Hgrid. rewrite linspace01_grid in Hgrid by lia.
  revert Hgrid. rrun. destruct (decide (0 = 0)%Z) as [_|]; [|done].
  rewrite !call_direct_standard by done. rewrite map_map. intros [= <-].
  exists (map (λ k,
            weighted_sum (heap w) (norms_call (norms (self w)) 3)
              (primitives (self w)) (INR k / IZR (ncache (self w))) 3
            + (1 - np_sum (norms_call (norms (self w)) 3)))%R ks), w1.
  split; [|unfold phases; by rewrite map_map].
  unfold __call__.
  rewrite (eval_cache_nearest_run w _ 0 _ w1 Hint Hget). cbv zeta.
  unfold phases. rewrite nearest_indices_grid by done.
  rewrite np_take_tab; [done|].
  eapply Forall_impl; [exact Hks|]. cbn. intros k Hk. lia.
Qed.

(** *** Linear interpolation *)

Lemma np_take_nth {A} (d : A) (a : list A) (idx : list nat) :
  Forall (λ i, i < length a) idx →
  np_take a (Z.of_nat <$> idx) = Ok (map (λ i, nth i a d) idx).
Proof.
  induction 1 as [|i idx Hi _ IH]; [done|].
  rewrite fmap_cons, np_take_cons, IH.
  rewrite (py_index_nat _ i (nth i a d)); [done|].
  destruct (nth_lookup_or_length a i d) as [->|]; [done|lia].
Qed.

Lemma Int_part_bounds (r : R) (n : Z) :
  (0 <= r < IZR n)%R → (0 ≤ Int_part r < n)%Z.
Proof.
  intros [H0 Hn]. destruct (base_Int_part r) as [Hle Hgt].
  assert (-1 < Int_part r)%Z by (apply lt_IZR; lra).
  assert (Int_part r < n)%Z by (apply lt_IZR; lra). lia.
Qed.

(** The lower index of a phase in [0, 1). *)
Lemma astype_int_scaled (n : Z) (x : R) :
  (0 < n < 2 ^ 63)%Z → (0 <= x < 1)%R →
  astype_int (np_mul (fin x) (fin (IZR n))) = Int_part (x * IZR n)
  ∧ (0 ≤ Int_part (x * IZR n) < n)%Z.
Proof.
  intros Hn Hx. assert (0 < IZR n)%R by (apply IZR_lt; lia).
  assert (Hr : (0 <= x * IZR n < IZR n)%R) by nra.
  pose proof (Int_part_bounds _ _ Hr) as Hb. split; [|done].
  cbn [np_mul np_lift2 astype_int]. unfold trunc.
  destruct (decide (0 <= x * IZR n)%R) as [_|]; [|lra].
  destruct (decide _) as [_|]; [done|lia].
Qed.

Lemma eval_cache_linear_run w (phases : list npfloat) (order : Z)
    (grid : list R) w1 :
  interpolation (self w) = 1%Z →
  get_cache order w = (Ok grid, w1) →
  let indices := map (λ x, np_mul x (fin (IZR (ncache (self w))))) phases in
  let indices_lo := astype_int <$> indices in
  let dhi := zip_with (λ i lo, np_sub i (fin (IZR lo))) indices indices_lo in
  let dlo := map (np_sub (fin 1)) dhi in
  eval_cache phases order w
  = match np_take grid indices_lo with
    | Ok lo =>
        match np_take grid ((λ i, i + 1)%Z <$> indices_lo) with
        | Ok hi =>
            (Ok (zip_with np_add (zip_with np_mul (fin <$> lo) dlo)
                   (zip_with np_mul (fin <$> hi) dhi)), w1)
        | Raise e => (Raise e, w1)
        end
    | Raise e => (Raise e, w1)
    end.
Proof.
  intros Hint Hget. cbv zeta. unfold eval_cache. mrun. rewrite Hget, Hint. mrun.
  destruct (decide (1 = 0)%Z) as [|_]; [done|].
  destruct (decide (1 = 1)%Z) as [_|]; [|done]. mrun.
  destruct (np_take grid _) as [lo|]; [|done].
  by destruct (np_take grid _) as [hi|].
Qed.

(** X5.  Linear interpolation from the cache on a standard template: for
    phases in [0, 1) the value is the mix of the two neighbouring grid
    values, [c[lo] * (1 - d) + c[lo + 1] * d] with [lo = floor(x * ncache)]
    and [d = x * ncache - lo], both inside the grid; at the phase 1.0 the
    upper neighbour [c[ncache + 1]] does not exist and IndexError is
    raised. *)
Theorem eval_cache_linear w (xs : list R) (order : Z) :
  has_bridge (self w) = false →
  interpolation (self w) = 1%Z →
  (0 < ncache (self w) < 2 ^ 63)%Z →
  cache_wf (self w) →
  Forall (λ x, 0 <= x < 1)%R xs →
  ∃ grid w1,
    get_cache order w = (Ok grid, w1)
    ∧ eval_cache (fin <$> xs) order w
      = (Ok (fin <$> map (lerp grid (ncache (self w))) xs), w1)
    ∧ Forall (λ x, S (Z.to_nat (Int_part (x * IZR (ncache (self w)))))
                   < length grid) xs
    ∧ eval_cache [fin 1] order w = (Raise IndexError, w1).
Proof.
  intros Hstd Hint Hn Hwf Hxs.
  destruct (get_cache_standard w order Hstd) as (grid & w1 & Hget & Hlen & _);
    [lia|done|].
  exists grid, w1. split; [done|].
  set (n := ncache (self w)) in *.
  assert (Hlo : ∀ x, (0 <= x < 1)%R →
            S (Z.to_nat (Int_part (x * IZR n))) < length grid).
  { intros x Hx. destruct (astype_int_scaled n x Hn Hx) as [_ Hb]. lia. }
  split; [|split].
  - rewrite (eval_cache_linear_run w _ order grid w1 Hint Hget). cbv zeta.
    fold n.
    assert (Hidx : astype_int <$> map (λ x, np_mul x (fin (IZR n))) (fin <$> xs)
                   = Z.of_nat <$> map (λ x, Z.to_nat (Int_part (x * IZR n))) xs).
    { clear Hlo. induction Hxs as [|x xs Hx _ IH]; [done|].
      cbn [map fmap list_fmap] in *. f_equal; [|exact IH].
      destruct (astype_int_scaled n x Hn Hx) as [-> Hb]. lia. }
    rewrite Hidx.
    rewrite (np_take_nth 0%R).
    2:{ rewrite Forall_forall. intros i Hi. apply list_elem_of_fmap in Hi as (x & -> & Hx).
        rewrite Forall_forall in Hxs. specialize (Hlo x (Hxs x Hx)). lia. }
    assert (Hidx1 : (λ i, i + 1)%Z <$> (Z.of_nat <$> map (λ x, Z.to_nat (Int_part (x * IZR n))) xs)
                    = Z.of_nat <$> map (λ x, S (Z.to_nat (Int_part (x * IZR n)))) xs).
    { clear. induction xs as [|x xs IH]; [done|].
      cbn [map fmap list_fmap] in *. f_equal; [lia|exact IH]. }
    rewrite Hidx1.
    rewrite (np_take_nth 0%R).
    2:{ rewrite Forall_forall. intros i Hi. apply list_elem_of_fmap in Hi as (x & -> & Hx).
        rewrite Forall_forall in Hxs. exact (Hlo x (Hxs x Hx)). }
    do 2 f_equal. clear Hlo Hidx Hidx1.
    induction Hxs as [|x xs Hx _ IH]; [done|].
    cbn [map fmap list_fmap zip_with] in *. f_equal; [|exact IH].
    destruct (astype_int_scaled n x Hn Hx) as [Ha Hb].
    rewrite Z2Nat.id by lia.
    cbn [np_sub np_mul np_add np_lift2]. reflexivity.
  - rewrite Forall_forall in Hxs. rewrite Forall_forall. intros x Hx.
    by apply Hlo, Hxs.
  - rewrite (eval_cache_linear_run w _ order grid w1 Hint Hget). cbv zeta.
    fold n. cbn [map fmap list_fmap zip_with np_mul np_lift2 astype_int].
    assert (Ht : trunc (1 * IZR n) = n).
    { apply trunc_nonneg; [lra|]. assert (0 < IZR n)%R by (apply IZR_lt; lia). lra. }
    rewrite Ht. destruct (decide _) as [_|]; [|lia].
    rewrite !np_take_cons.
    assert (Hin : ∃ c, py_index grid n = Ok c).
    { unfold py_index. destruct (decide (n < 0)%Z) as [|_]; [lia|].
      destruct (decide _) as [_|]; [|lia].
      destruct (lookup_lt_is_Some_2 grid (Z.to_nat n)) as [c ->]; [lia|]. by exists c. }
    destruct Hin as [c ->].
    change (np_take grid []) with (Ok [] : result (list R)). cbv beta iota.
    assert (Hout : py_index grid (n + 1) = Raise IndexError).
    { unfold py_index. destruct (decide (n + 1 < 0)%Z) as [|_]; [lia|].
      destruct (decide _) as [|_]; [lia|done]. }
    by rewrite Hout.
Qed.

(** ** Phase shifts *)

(** The loop over the primitives moves each one once, by the same shift. *)
Lemma shift_locations_spec (shift : R) (prims : list loc) :
  ∀ w, NoDup prims →
    ∃ w', shift_locations prims shift w = (Ok (), w')
          ∧ self w' = self w ∧ next_loc w' = next_loc w
          ∧ np_random w' = np_random w ∧ stdout w' = stdout w
          ∧ (∀ l, l ∈ prims →
                  heap w' l
                  = set_location (heap w l) (mod1 (get_location (heap w l) + shift)))
          ∧ (∀ l, l ∉ prims → heap w' l = heap w l).
Proof.
  induction prims as [|l prims IH]; intros w Hnd.
  - exists w. repeat split; try done. by intros l ?%elem_of_nil.
  - apply NoDup_cons in Hnd as [Hl Hnd]. cbn [shift_locations]. mrun.
    set (w1 := mkWorld (self w)
                 (<[l:=set_location (heap w l) (mod1 (get_location (heap w l) + shift))]>
                    (heap w))
                 (next_loc w) (np_random w) (stdout w)).
    destruct (IH w1 Hnd) as (w' & Hrun & Hself & Hnext & Hrng & Hout & Hin & Hframe).
    exists w'. rewrite Hrun. repeat split; try done.
    + intros l' [->|Hl']%elem_of_cons.
      * rewrite Hframe by done. unfold w1. cbn. by rewrite fn_lookup_insert.
      * rewrite (Hin l' Hl'). unfold w1. cbn.
        rewrite fn_lookup_insert_ne; [done|]. by intros ->.
    + intros l' [Hne Hl']%not_elem_of_cons.
      rewrite Hframe by done. unfold w1. cbn. by apply fn_lookup_insert_ne.
Qed.

(** X6.  [set_overall_phase(ph)] on a template of distinct primitives.  In
    shift mode only the first primitive is written, [p[0] = ph].  Otherwise
    every primitive is moved by the same shift [ph - l0], [l0] the location
    of the first one, modulo 1, and no other object is touched; when
    [set_location] sets what [get_location] reads, the first primitive ends
    at [ph % 1]. *)
Theorem set_overall_phase_moves_all w (ph : R) (l0 : loc) (rest : list loc) :
  primitives (self w) = l0 :: rest →
  NoDup (l0 :: rest) →
  let shift := (ph - get_location (heap w l0))%R in
  ∃ w',
    set_overall_phase ph w = (Ok (), w')
    ∧ primitives (self w') = l0 :: rest
    ∧ norms (self w') = norms (self w)
    ∧ (∀ l, l ∉ l0 :: rest → heap w' l = heap w l)
    ∧ (if shift_mode (self w)
       then heap w' l0 = prim_set_p0 (heap w l0) ph
            ∧ ∀ l, l ∈ rest → heap w' l = heap w l
       else (∀ l, l ∈ l0 :: rest →
                  heap w' l
                  = set_location (heap w l) (mod1 (get_location (heap w l) + shift)))
            ∧ ((∀ (p : P) (x : R), get_location (set_location p x) = x) →
               get_location (heap w' l0) = mod1 ph)).
Proof.
  intros Hprims Hnd shift. unfold set_overall_phase, mark_cache_dirty. mrun.
  change (primitives (mark_cache_dirty_of (self w))) with (primitives (self w)).
  change (shift_mode (mark_cache_dirty_of (self w))) with (shift_mode (self w)).
  rewrite Hprims. change (py_index (l0 :: rest) 0) with (Ok l0 : result loc).
  cbv beta iota. destruct (shift_mode (self w)) eqn:Hmode.
  - eexists. split; [reflexivity|]. cbn.
    apply NoDup_cons in Hnd as [Hl0 _]. repeat split; try done.
    + intros l [Hne _]%not_elem_of_cons. by apply fn_lookup_insert_ne.
    + by rewrite fn_lookup_insert.
    + intros l Hl. apply fn_lookup_insert_ne. by intros ->.
  - match goal with
    | |- context [shift_locations ?ps ?s ?w0] =>
        destruct (shift_locations_spec s ps w0 Hnd)
          as (w' & Hrun & Hself & _ & _ & _ & Hin & Hframe)
    end.
    cbn [heap] in *. exists w'. split; [exact Hrun|]. rewrite Hself. cbn.
    repeat split; try done.
    intros Hloc. rewrite Hin by (apply elem_of_cons; by left).
    rewrite Hloc. f_equal. unfold shift. lra.
Qed.

(** X7.  [align_peak(phi, dphi)] does not use [phi], and [dphi] only in
    [int(1.0 / dphi)], whose value is dropped.  Out of shift mode: where
    that expression raises, ZeroDivisionError for a zero [dphi] and
    OverflowError for a quotient that overflows to an infinity, the cache
    has been marked dirty and no primitive has been moved; otherwise the
    call does to the template and its primitives what [set_overall_phase(0)]
    does (the line it logs is not part of the state). *)
Theorem align_peak_ignores_phi w (phi dphi : R) :
  shift_mode (self w) = false →
  align_peak phi dphi w
  = if decide (dphi = 0%R)
    then (Raise ZeroDivisionError, (mark_cache_dirty w).2)
    else if decide (overflow_bound <= Rabs (1 / dphi))%R
         then (Raise OverflowError, (mark_cache_dirty w).2)
         else set_overall_phase 0 w.
Proof.
  intros Hmode. unfold align_peak, set_overall_phase, mark_cache_dirty. mrun.
  destruct (decide (dphi = 0%R)) as [|_]; [done|].
  destruct (decide (overflow_bound <= Rabs (1 / dphi))%R) as [|_]; [done|]. mrun.
  change (primitives (mark_cache_dirty_of (self w))) with (primitives (self w)).
  change (shift_mode (mark_cache_dirty_of (self w))) with (shift_mode (self w)).
  destruct (py_index (primitives (self w)) 0) as [l0|]; [|done].
  rewrite Hmode.
  by replace (-1 * get_location (heap w l0))%R
    with (0 - get_location (heap w l0))%R by lra.
Qed.

(** ** Structural edits: the edges *)

Lemma py_norm_index_in_range (n : nat) (i : Z) :
  in_range n i → py_norm_index n i = Ok (Z.to_nat (normalized n i)).
Proof.
  unfold in_range, py_norm_index, normalized. intros Hi.
  destruct (decide (i < 0)%Z); (destruct (decide _) as [_|]; [done|lia]).
Qed.

Lemma py_norm_index_out_of_range (n : nat) (i : Z) :
  ¬ in_range n i → py_norm_index n i = Raise IndexError.
Proof.
  unfold in_range, py_norm_index. intros Hi.
  destruct (decide (i < 0)%Z); (destruct (decide _) as [|_]; [lia|done]).
Qed.

Lemma py_index_normalized {A} (a : list A) (i : Z) :
  in_range (length a) i →
  ∃ x, a !! Z.to_nat (normalized (length a) i) = Some x ∧ py_index a i = Ok x.
Proof.
  unfold in_range, py_index, normalized. intros Hi.
  destruct (decide (i < 0)%Z); (destruct (decide _) as [_|]; [|lia]).
  - destruct (lookup_lt_is_Some_2 a (Z.to_nat (i + Z.of_nat (length a)))) as [x Hx];
      [lia|].
    exists x. by rewrite Hx.
  - destruct (lookup_lt_is_Some_2 a (Z.to_nat i)) as [x Hx]; [lia|].
    exists x. by rewrite Hx.
Qed.

(** X8.  [swap_primitive(index, ptype)] with an index of the list replaces
    that entry by a new object, the conversion of the old one; the old
    object and every other object stay as they were, and so do the norms.
    With an index outside the list it raises IndexError and changes
    nothing. *)
Theorem swap_primitive_replaces_one w (index : Z) (ty : ptype) :
  let prims := primitives (self w) in
  let i := Z.to_nat (normalized (length prims) index) in
  (in_range (length prims) index
   ∧ ∃ l w',
       prims !! i = Some l
       ∧ swap_primitive index ty w = (Ok (), w')
       ∧ primitives (self w') = <[i := next_loc w]> prims
       ∧ heap w' (next_loc w) = convert_primitive (heap w l) ty
       ∧ (∀ l', l' ≠ next_loc w → heap w' l' = heap w l')
       ∧ norms (self w') = norms (self w))
  ∨ (¬ in_range (length prims) index
     ∧ swap_primitive index ty w = (Raise IndexError, w)).
Proof.
  intros prims i.
  destruct (decide (- Z.of_nat (length prims) ≤ index < Z.of_nat (length prims))%Z)
    as [Hin|Hout].
  - left. split; [done|].
    destruct (py_index_normalized prims index Hin) as (l & Hl & Hidx).
    exists l. eexists. split; [exact Hl|].
    unfold swap_primitive. mrun. fold prims.
    rewrite (py_norm_index_in_range _ _ Hin), Hidx. mrun.
    split; [reflexivity|]. cbn. repeat split; try done.
    + by rewrite fn_lookup_insert.
    + intros l' Hne. by apply fn_lookup_insert_ne.
  - right. split; [done|]. unfold swap_primitive. mrun. fold prims.
    by rewrite (py_norm_index_out_of_range _ _ Hout).
Qed.

Lemma retained_all (prims : list loc) (idx : Z) :
  ¬ (0 ≤ idx < Z.of_nat (length prims))%Z → retained prims idx = prims.
Proof.
  intros Hout. unfold retained.
  change (imap (λ ip l, (ip, l)) prims)
    with (imap (λ ip l, ((0 + ip)%nat, l)) prims).
  rewrite retained_from. destruct (decide _) as [|_]; [lia|done].
Qed.

(** X9.  [delete_primitive(index, inplace=True)] with an index outside the
    list, on a template that has not exactly one primitive: nothing raises
    in the method itself; no primitive is dropped, the receiver gets copies
    of all of them, and its norm map becomes what [delete_component]
    returned for that index. *)
Theorem delete_primitive_out_of_range w (index : Z) :
  length (primitives (self w)) ≠ 1 →
  ¬ in_range (length (primitives (self w))) index →
  Forall (λ l, l < next_loc w) (primitives (self w)) →
  let idx := normalized (length (primitives (self w))) index in
  ∃ w',
    delete_primitive index true w = (Ok None, w')
    ∧ deep_copies w w' (primitives (self w)) (primitives (self w'))
    ∧ length (primitives (self w')) = length (primitives (self w))
    ∧ norms (self w') = delete_component (norms (self w)) idx.
Proof.
  intros Hlen Hout Hwf idx. unfold delete_primitive. mrun.
  destruct (decide (length (primitives (self w)) = 1)); [done|].
  fold (normalized (length (primitives (self w))) index). fold idx.
  rewrite retained_all.
  2:{ unfold idx, normalized, in_range in *. destruct (decide (index < 0)%Z); lia. }
  destruct (deepcopy_list_spec (primitives (self w)) w Hwf)
    as (w' & Hrun & Hself & Hnext & Hrng & Hout' & Hframe & Hcopy).
  rewrite Hrun. mrun. eexists. split; [reflexivity|]. cbn.
  rewrite Hself. repeat split; try done. by rewrite length_seq.
Qed.

(** ** The random sampler: what it leaves alone *)

Lemma only_draws_ret {A} (a : A) : only_draws (mret a : M P NM G A).
Proof. by intros w. Qed.

Lemma only_draws_lift {A} (r : result A) : only_draws (lift r : M P NM G A).
Proof. by intros w. Qed.

Lemma only_draws_raise {A} (e : exn) : only_draws (raise e : M P NM G A).
Proof. by intros w. Qed.

Lemma only_draws_get_self : only_draws (get_self : M P NM G (LCTemplate NM)).
Proof. by intros w. Qed.

Lemma only_draws_rand (n : nat) : only_draws (rand n : M P NM G (list R)).
Proof. intros w. unfold rand. by destruct (np_random_rand n (np_random w)). Qed.

Lemma only_draws_random_of (l : loc) (n : nat) (ens : list R) :
  only_draws (random_of l n ens : M P NM G (list R)).
Proof. intros w. unfold random_of. by destruct (prim_random _ _ _ _). Qed.

Lemma only_draws_bind {A B} (m : M P NM G A) (k : A → M P NM G B) :
  only_draws m → (∀ a, only_draws (k a)) → only_draws (m ≫= k).
Proof.
  intros Hm Hk w. unfold mbind, M_bind.
  destruct (Hm w) as (H1 & H2 & H3 & H4).
  destruct (m w) as [[a|e] w1]; cbn [snd] in *.
  - destruct (Hk a w1) as (K1 & K2 & K3 & K4). repeat split; congruence.
  - done.
Qed.

Lemma only_draws_sample_loop (iprims : list (nat * loc)) (comps : list Z)
    (log10_ens : list R) :
  ∀ rvals, only_draws (sample_loop iprims comps log10_ens rvals
                       : M P NM G (list npfloat)).
Proof.
  induction iprims as [|[iprim l] iprims IH]; intros rvals; cbn [sample_loop].
  - apply only_draws_ret.
  - apply only_draws_bind; [apply only_draws_random_of|]. intros v.
    apply only_draws_bind; [apply only_draws_lift|]. intros rvals'. apply IH.
Qed.

(** X10.  [LCTemplate.random] changes neither the template nor any primitive, and
    prints nothing, whatever its outcome: the one thing it can change is
    the state of the random generator. *)
Theorem random_only_draws (n : nat) (weights : option (list R))
    (log10_ens : energies) (return_partition : bool) :
  only_draws (random n weights log10_ens return_partition
              : M P NM G (list R * option (list Z))).
Proof.
  unfold random.
  apply only_draws_bind; [apply only_draws_get_self|]. intros t. cbv zeta.
  destruct (decide (length (primitives t) = 0)).
  { apply only_draws_bind; [apply only_draws_rand|]. intros v.
    apply only_draws_ret. }
  apply only_draws_bind.
  { destruct weights as [ws|]; [|apply only_draws_ret].
    destruct (decide _); [apply only_draws_raise|apply only_draws_ret]. }
  intros ws. apply only_draws_bind.
  { destruct log10_ens as [e|es]; [apply only_draws_ret|].
    destruct (decide _); [apply only_draws_raise|apply only_draws_ret]. }
  intros ens.
  apply only_draws_bind; [apply only_draws_lift|]. intros last_row.
  apply only_draws_bind.
  { destruct (allclose1 last_row); [apply only_draws_ret|apply only_draws_raise]. }
  intros _.
  apply only_draws_bind; [apply only_draws_rand|]. intros Q.
  apply only_draws_bind; [apply only_draws_lift|]. intros comps.
  apply only_draws_bind; [apply only_draws_sample_loop|]. intros rvals.
  apply only_draws_bind; [apply only_draws_rand|]. intros v.
  apply only_draws_bind; [apply only_draws_lift|]. intros rvals'.
  apply only_draws_bind; [apply only_draws_lift|]. intros rs.
  apply only_draws_ret.
Qed.

(** X11.  [LCTemplate.random] on a template with primitives checks its vectors before
    it draws: weights, or else energies given as a vector, whose length is
    not [n] raise ValueError, and the random generator has not been used. *)
Theorem random_checks_lengths w (n : nat) (weights : option (list R))
    (log10_ens : energies) (return_partition : bool) :
  primitives (self w) ≠ [] →
  (∃ ws, weights = Some ws ∧ length ws ≠ n)
  ∨ (length (weights_of n weights) = n
     ∧ ∃ es, log10_ens = EnVector es ∧ length es ≠ n) →
  random n weights log10_ens return_partition w = (Raise ValueError, w).
Proof.
  intros Hprims Hbad. unfold random. mrun.
  destruct (decide (length (primitives (self w)) = 0)) as [Hz|_].
  { by destruct (primitives (self w)). }
  destruct Hbad as [(ws & -> & Hws)|(Hws & es & -> & Hes)].
  - by destruct (decide (length ws ≠ n)).
  - destruct weights as [ws|]; cbn in Hws.
    + destruct (decide (length ws ≠ n)); [done|].
      by destruct (decide (length es ≠ n)).
    + by destruct (decide (length es ≠ n)).
Qed.

(** ** The bridge *)

(** X12.  The pedestal and the rescaled parts of p1 and p2 carry the
    pedestal weight: with [k], [dn1], [dn2] the scales that [_get_scales]
    applies inside the interval and [i1], [i2] the integrals of p1 and p2
    over it, [k + dn1*i1 + dn2*i2] is [nped], the first norm. *)
Theorem bridge_scales_carry_pedestal h t (phases : list R) (e : R) (a b : loc)
    (nped n1 n2 : R) (wfront : list R) :
  p1p2 t = Some (a, b) →
  norms_call (norms t) e = nped :: wfront ++ [n1; n2] →
  determinant h a b e ≠ 0%R →
  interval_length h a b ≠ 0%R →
  pedestal_denominator h a b e ≠ 0%R →
  let mask := bridge_mask (get_location (h a)) (get_location (h b)) in
  ∃ k dn1 dn2 : R,
    LCBridgeTemplate_get_scales h t phases e
    = Ok (map (λ ph, k / interval_length h a b * of_bool (mask ph))%R phases,
          (Scalar <$> wfront)
          ++ [Arr (map (λ ph, n1 + dn1 * of_bool (mask ph))%R phases);
              Arr (map (λ ph, n2 + dn2 * of_bool (mask ph))%R phases)],
          np_sum (nped :: wfront ++ [n1; n2]))
    ∧ (k + dn1 * bridge_integral h a b e a + dn2 * bridge_integral h a b e b
       = nped)%R.
Proof.
  intros Hp Hn Hd Hl Hden mask.
  exists (pedestal_scale h a b e nped), (rescale1 h a b e nped),
    (rescale2 h a b e nped).
  split; [by apply bridge_get_scales_run|].
  unfold rescale1, rescale2, pedestal_scale.
  unfold pedestal_denominator, integral_term in *.
  unfold bridge_integral. cbv zeta in *.
  set (i1 := if decide (get_location (h b) > get_location (h a))%R
             then prim_integrate (h a) (get_location (h a)) (get_location (h b)) e
             else (1 - prim_integrate (h a) (get_location (h b)) (get_location (h a)) e)%R)
    in *.
  set (i2 := if decide (get_location (h b) > get_location (h a))%R
             then prim_integrate (h b) (get_location (h a)) (get_location (h b)) e
             else (1 - prim_integrate (h b) (get_location (h b)) (get_location (h a)) e)%R)
    in *.
  set (d := determinant h a b e) in *. set (dl := interval_length h a b) in *.
  set (f11 := prim_call (h a) (get_location (h a)) e) in *.
  set (f12 := prim_call (h a) (get_location (h b)) e) in *.
  set (f21 := prim_call (h b) (get_location (h a)) e) in *.
  set (f22 := prim_call (h b) (get_location (h b)) e) in *.
  assert (Hq : (d * dl - (i1 * (f22 - f21) + i2 * (f11 - f12)) ≠ 0)%R).
  { intros Hz. apply Hden.
    replace (i1 * (f22 - f21) + i2 * (f11 - f12))%R with (d * dl)%R by lra.
    field. by split. }
  field. repeat split; try done.
Qed.

(** X13.  A bridge template whose pedestal weight is zero evaluates as the
    plain mixture of its primitives with the other norms, on top of the
    background [1 - sum]. *)
Theorem bridge_without_pedestal h t (phases : list R) (e : R) (a b : loc)
    (front : list loc) (n1 n2 : R) (wfront : list R) :
  has_bridge t = true →
  p1p2 t = Some (a, b) →
  primitives t = front ++ [a; b] →
  norms_call (norms t) e = 0%R :: wfront ++ [n1; n2] →
  length wfront = length front →
  determinant h a b e ≠ 0%R →
  interval_length h a b ≠ 0%R →
  pedestal_denominator h a b e ≠ 0%R →
  call_direct h t phases e false
  = Ok (map (λ ph,
          (1 - np_sum (wfront ++ [n1; n2]))
          + weighted_sum h (wfront ++ [n1; n2]) (primitives t) ph e)%R phases).
Proof.
  intros Hb Hp Hprims Hn Hlen Hd Hl Hden.
  rewrite (bridge_call_direct h t phases e a b front 0 n1 n2 wfront) by done.
  rewrite Hn. cbn [drop]. rewrite drop_0. f_equal. apply map_ext. intros ph.
  rewrite np_sum_cons.
  assert (Hz : bridge_correction h a b e 0 ph = 0%R).
  { unfold bridge_correction, rescale1, rescale2, pedestal_scale. cbv zeta.
    unfold Rdiv. ring. }
  rewrite Hz. lra.
Qed.

End more_properties.

(** * The rest of the methods *)

Section extended_properties.
Context {P NM G : Type}
  `{!NumpyRandom G, !LCPrimitive P G, !NormMap NM,
    !LCPrimitiveMore P, !NormMapMore NM}.
Implicit Types (w : world P NM G) (t : LCTemplate NM) (h : loc → P).

(** ** Derivatives and integrals *)

Lemma derivative_loop h (phases : list R) (e : R) (order : Z) (ws : list R) :
  ∀ (prims : list loc) (r0 : R → R),
    fold_left
      (λ acc '(n, l),
         vadd acc (map (λ ph, n * prim_derivative (h l) ph e order)%R phases))
      (zip ws prims) (map r0 phases)
    = map (λ ph, r0 ph + weighted_derivative h ws prims ph e order)%R phases.
Proof.
  unfold weighted_derivative.
  induction ws as [|a ws IH]; intros prims r0.
  - simpl. apply map_ext. intros ph. simpl. lra.
  - destruct prims as [|l prims].
    + simpl. apply map_ext. intros ph. simpl. lra.
    + cbn [zip zip_with fold_left]. rewrite vadd_map.
      change (zip_with pair ws prims) with (zip ws prims).
      rewrite (IH prims (λ ph, r0 ph + a * prim_derivative (h l) ph e order)%R).
      apply map_ext. intros ph. rewrite np_sum_cons. lra.
Qed.

(** X14.  [derivative(phases, log10_ens, order)] without the cache returns,
    at every phase, the sum of the primitives' derivatives weighted by the
    norms paired with them by position, and no background term; it does not
    look at the class of the template, so on a bridge template the pedestal
    weight, the first norm, multiplies the first primitive. *)
Theorem derivative_weighted_sum w (phases : list R) (e : R) (order : Z) :
  derivative phases e order false w
  = (Ok (fin <$> map (λ ph,
           weighted_derivative (heap w) (norms_call (norms (self w)) e)
             (primitives (self w)) ph e order) phases), w).
Proof.
  unfold derivative, derivative_direct. mrun. do 3 f_equal.
  unfold zeros_like. rewrite derivative_loop. apply map_ext. intros ph. lra.
Qed.

Lemma integrate_loop h (a b e : R) (ws : list R) :
  ∀ (prims : list loc) (acc : R),
    fold_left (λ acc '(n, l), (acc + n * prim_integrate (h l) a b e)%R)
      (zip ws prims) acc
    = (acc + weighted_integral h ws prims a b e)%R.
Proof.
  unfold weighted_integral.
  induction ws as [|x ws IH]; intros prims acc.
  - simpl. change (np_sum []) with 0%R. lra.
  - destruct prims as [|l prims].
    + simpl. change (np_sum []) with 0%R. lra.
    + cbn [zip zip_with fold_left].
      change (zip_with pair ws prims) with (zip ws prims).
      rewrite IH, np_sum_cons. lra.
Qed.

Lemma integrate_run h t (a b e : R) :
  integrate h t a b e false
  = Ok ((1 - np_sum (norms_call (norms t) e)) * (b - a)
        + weighted_integral h (norms_call (norms t) e) (primitives t) a b e)%R.
Proof.
  unfold integrate. cbv zeta. rewrite integrate_loop. cbn. do 2 f_equal. lra.
Qed.

Lemma weighted_integral_const h (c : R) (a b e : R) :
  ∀ (ws : list R) (prims : list loc),
    length ws = length prims →
    (∀ l, l ∈ prims → prim_integrate (h l) a b e = c) →
    weighted_integral h ws prims a b e = (np_sum ws * c)%R.
Proof.
  unfold weighted_integral.
  induction ws as [|x ws IH]; intros [|l prims] Hlen Hc; try done.
  - change (np_sum []) with 0%R. cbn. change (np_sum []) with 0%R. lra.
  - cbn [zip_with]. rewrite !np_sum_cons, IH.
    + rewrite Hc by (apply elem_of_cons; by left). lra.
    + cbn in Hlen. lia.
    + intros l' Hl'. apply Hc. apply elem_of_cons. by right.
Qed.

(** X15.  A template whose norms pair off with primitives that each
    integrate to 1 over the turn integrates to 1 over the turn: the
    background takes what the norms leave.  So [cdf(1)] is 1, and with
    [suppress_bg=True] and a nonzero total the pulsed part integrates
    to 1 as well. *)
Theorem integrate_full_turn h t (e : R) :
  length (norms_call (norms t) e) = length (primitives t) →
  (∀ l, l ∈ primitives t → prim_integrate (h l) 0 1 e = 1%R) →
  integrate h t 0 1 e false = Ok 1%R
  ∧ cdf h t 1 e = Ok 1%R
  ∧ (np_sum (norms_call (norms t) e) ≠ 0%R → integrate h t 0 1 e true = Ok 1%R).
Proof.
  intros Hlen Hone.
  pose proof (weighted_integral_const h 1 0 1 e _ _ Hlen Hone) as Hw.
  assert (Hrun : integrate h t 0 1 e false = Ok 1%R).
  { rewrite integrate_run, Hw. f_equal. lra. }
  split; [done|]. split; [done|].
  intros Htot. unfold integrate. cbv zeta. rewrite integrate_loop, Hw.
  unfold fdiv. destruct (decide _) as [|_]; [done|]. f_equal. by field.
Qed.

(** X16.  Where the integrals of the primitives add up over adjoining
    intervals, so do those of the template:
    [integrate(a, c) = integrate(a, b) + integrate(b, c)]. *)
Theorem integrate_additive h t (a b c e : R) :
  (∀ l, l ∈ primitives t →
        prim_integrate (h l) a c e
        = (prim_integrate (h l) a b e + prim_integrate (h l) b c e)%R) →
  ∃ x y z : R,
    integrate h t a b e false = Ok x
    ∧ integrate h t b c e false = Ok y
    ∧ integrate h t a c e false = Ok z
    ∧ z = (x + y)%R.
Proof.
  intros Hadd. rewrite !integrate_run. eexists _, _, _.
  split; [reflexivity|]. split; [reflexivity|]. split; [reflexivity|].
  assert (Hw : ∀ (ws : list R) (prims : list loc),
            (∀ l, l ∈ prims →
                  prim_integrate (h l) a c e
                  = (prim_integrate (h l) a b e + prim_integrate (h l) b c e)%R) →
            weighted_integral h ws prims a c e
            = (weighted_integral h ws prims a b e
               + weighted_integral h ws prims b c e)%R).
  { unfold weighted_integral. induction ws as [|x ws IH]; intros [|l prims] Hp;
      try (cbn; change (np_sum []) with 0%R; lra).
    cbn [zip_with]. rewrite !np_sum_cons, IH.
    - rewrite Hp by (apply elem_of_cons; by left). lra.
    - intros l' Hl'. apply Hp. apply elem_of_cons. by right. }
  rewrite (Hw _ _ Hadd). lra.
Qed.

(** ** Peak separation *)

Lemma Delta_loop_spec h (prims : list loc) :
  ∀ p0 p1 : loc,
    let q := Delta_loop h prims p0 p1 in
    (q.1 = p0 ∨ q.1 ∈ prims) ∧ (q.2 = p1 ∨ q.2 ∈ prims)
    ∧ (get_location (h q.1) <= get_location (h p0))%R
    ∧ (get_location (h p1) <= get_location (h q.2))%R
    ∧ ∀ l, l ∈ prims →
           (get_location (h q.1) <= get_location (h l) <= get_location (h q.2))%R.
Proof.
  unfold Delta_loop. induction prims as [|p prims IH]; intros p0 p1.
  - cbn. split; [by left|]. split; [by left|]. split; [lra|]. split; [lra|].
    by intros l ?%elem_of_nil.
  - cbn [fold_left].
    set (p0' := if decide (get_location (h p) < get_location (h p0))%R
                then p else p0).
    set (p1' := if decide (get_location (h p) > get_location (h p1))%R
                then p else p1).
    destruct (IH p0' p1') as (H0 & H1 & Hle0 & Hle1 & Hall). cbv zeta in *.
    set (q := fold_left _ prims (p0', p1')) in *.
    assert (Hp0 : (get_location (h p0') <= get_location (h p0))%R
                  ∧ (get_location (h p0') <= get_location (h p))%R).
    { unfold p0'.
      destruct (decide (get_location (h p) < get_location (h p0))%R); lra. }
    assert (Hp1 : (get_location (h p1) <= get_location (h p1'))%R
                  ∧ (get_location (h p) <= get_location (h p1'))%R).
    { unfold p1'.
      destruct (decide (get_location (h p) > get_location (h p1))%R); lra. }
    split; [|split; [|split; [|split]]].
    + destruct H0 as [->|H0]; [|right; apply elem_of_cons; by right].
      unfold p0'.
      destruct (decide (get_location (h p) < get_location (h p0))%R);
        [right; apply elem_of_cons|]; by left.
    + destruct H1 as [->|H1]; [|right; apply elem_of_cons; by right].
      unfold p1'.
      destruct (decide (get_location (h p) > get_location (h p1))%R);
        [right; apply elem_of_cons|]; by left.
    + lra.
    + lra.
    + intros l [->|Hl]%elem_of_cons; [lra|].
      specialize (Hall l Hl). lra.
Qed.

(** X17.  [Delta()], where [get_location(error=True)] gives the location
    that [get_location()] gives.  Without primitives it raises IndexError;
    with one it returns the pair (-1, 0).  Otherwise it returns the
    distance from a primitive of smallest location to one of largest
    location, which is not negative, with the errors of the two added in
    quadrature; with [delta=True] it returns the smallest location and its
    error. *)
Theorem Delta_is_spread h t :
  (∀ p : P, (get_location_error p).1 = get_location p) →
  match primitives t with
  | [] => ∀ delta, Delta h t delta = Raise IndexError
  | [_] => ∀ delta, Delta h t delta = Ok ((-1)%R, 0%R)
  | _ =>
      ∃ lo hi : loc,
        lo ∈ primitives t ∧ hi ∈ primitives t
        ∧ (∀ l, l ∈ primitives t →
                (get_location (h lo) <= get_location (h l)
                 <= get_location (h hi))%R)
        ∧ Delta h t false
          = Ok ((get_location (h hi) - get_location (h lo))%R,
                sqrt ((get_location_error (h lo)).2 ^ 2
                      + (get_location_error (h hi)).2 ^ 2))
        ∧ Delta h t true
          = Ok (get_location (h lo), (get_location_error (h lo)).2)
  end.
Proof.
  intros Hloc. unfold Delta.
  destruct (primitives t) as [|a [|b rest]] eqn:Hprims; [done|done|].
  set (prims := a :: b :: rest) in *.
  destruct (decide (length prims = 1)) as [|_]; [done|].
  change (py_index prims 0) with (Ok a : result loc).
  assert (Hlast : ∃ z, py_index prims (-1) = Ok z ∧ z ∈ prims).
  { destruct (py_index_normalized prims (-1)) as (z & Hz & ->).
    - unfold in_range, prims. cbn [length]. lia.
    - exists z. split; [done|]. by eapply list_elem_of_lookup_2. }
  destruct Hlast as (z & -> & Hz). rrun.
  pose proof (Delta_loop_spec h prims a z) as Hspec. cbv zeta in Hspec.
  destruct (Delta_loop h prims a z) as [lo hi]. cbn [fst snd] in Hspec.
  destruct Hspec as (H0 & H1 & _ & _ & Hall).
  exists lo, hi.
  assert (Ha : a ∈ prims) by (apply elem_of_cons; by left).
  split; [by destruct H0 as [->|]|]. split; [by destruct H1 as [->|]|].
  split; [done|].
  pose proof (Hloc (h lo)) as Hlo. pose proof (Hloc (h hi)) as Hhi.
  destruct (get_location_error (h lo)) as [p1 e1].
  destruct (get_location_error (h hi)) as [p2 e2]. cbn [fst snd] in *.
  by subst.
Qed.

(** ** Items *)

(** X18.  [template[index]] for every integer: [len(primitives)] and -1
    give the norm map; the indices from 0 up and from -2 down give the
    primitives, counted from the front and from the back; an index below
    [-(len + 1)] is still negative after [len + 1] has been added and
    Python counts it from the end of the list once more, so that
    [template[-(len + 2)]] is the last primitive; IndexError is left for
    the indices above [len] and below [-(2 len + 1)]. *)
Theorem getitem_cases t (index : Z) :
  let n := Z.of_nat (length (primitives t)) in
  __getitem__ t index
  = if decide (index = n ∨ index = -1)%Z then Ok (ItemNorms (norms t))
    else if decide (- (2 * n + 1) ≤ index < n)%Z then
      match primitives t !! Z.to_nat (item_index n index) with
      | Some l => Ok (ItemPrim l)
      | None => Raise IndexError
      end
    else Raise IndexError.
Proof.
  intros n. unfold __getitem__, item_index, py_index. cbv zeta. fold n. rrun.
  repeat match goal with
    | |- context [decide ?Q] =>
        lazymatch Q with
        | context [decide _] => fail
        | _ => destruct (decide Q)
        end
    end; try lia; try done.
  all: by destruct (primitives t !! _).
Qed.

(** ** Copies *)

(** X19.  [copy()] of a template that satisfies the count check of its
    class (and, for a bridge template, has two primitives at least), where
    [norms.copy()] keeps the number of norms: the result is a template of
    the same class on new objects, deep copies of the primitives, with the
    copy of the norm map.  The receiver and the objects that existed are
    unchanged.  The cache is not copied: the new template has an empty
    cache and the default cache properties, 1000 bins and linear
    interpolation, whatever the receiver's are. *)
Theorem copy_is_deep_and_resets_cache w :
  let t := self w in
  (if has_bridge t
   then length (primitives t) + 1 = norms_len (norms t) ∧ 2 ≤ length (primitives t)
   else length (primitives t) = norms_len (norms t)) →
  norms_len (norms_copy (norms t)) = norms_len (norms t) →
  Forall (λ l, l < next_loc w) (primitives t) →
  ∃ nt w',
    copy w = (Ok nt, w')
    ∧ self w' = t
    ∧ deep_copies w w' (primitives t) (primitives nt)
    ∧ norms nt = norms_copy (norms t)
    ∧ has_bridge nt = has_bridge t
    ∧ _cache nt = ∅ ∧ _cache_dirty nt = ∅
    ∧ ncache nt = 1000%Z ∧ interpolation nt = 1%Z.
Proof.
  intros t Hcount Hcopy Hwf. unfold copy. mrun. fold t.
  destruct (deepcopy_list_spec (primitives t) w Hwf)
    as (w' & Hrun & Hself & Hnext & Hrng & Hout & Hframe & Hcp).
  rewrite Hrun. mrun.
  set (copies := seq (next_loc w) (length (primitives t))).
  assert (Hlen : length copies = length (primitives t)) by apply length_seq.
  destruct (has_bridge t) eqn:Hb.
  - destruct Hcount as [Hcount H2].
    destruct (last_two_split copies) as (front & a & b & Hs); [lia|].
    assert (Hfl : length (front ++ [a; b]) + 1
                  = norms_len (norms_copy (norms t)))
      by (rewrite <- Hs, Hlen, Hcopy; lia).
    rewrite Hs, (bridge_init_last_two _ front a b _ Hfl).
    unfold loc. rewrite <- Hs.
    eexists _, w'. split; [reflexivity|]. cbn. by repeat split.
  - rewrite init_ok by (unfold copies; rewrite length_seq, Hcopy; done).
    eexists _, w'. split; [reflexivity|]. cbn. by repeat split.
Qed.

(** ** The parameter vector, there and back *)

Lemma params_len_concat h (prims : list loc) (free : bool) :
  params_len h prims free
  = length (concat (map (λ l, prim_get_parameters (h l) free) prims)).
Proof.
  induction prims as [|l prims IH]; [done|].
  cbn [params_len map concat]. by rewrite length_app, IH.
Qed.

(** The slices that [set_parameters] cuts are the vectors that
    [get_parameters] joined. *)
Lemma param_slices_concat h (free : bool) (rest : list R) (prims : list loc) :
  ∀ pre : list R,
    param_slices h prims
      (pre ++ concat (map (λ l, prim_get_parameters (h l) free) prims) ++ rest)
      free (length pre)
    = map (λ l, prim_get_parameters (h l) free) prims.
Proof.
  induction prims as [|l prims IH]; intros pre; [done|].
  cbn [param_slices map concat]. f_equal.
  - rewrite drop_app_length, <- !app_assoc. by rewrite take_app_length.
  - specialize (IH (pre ++ prim_get_parameters (h l) free)).
    rewrite length_app, <- !app_assoc in IH. by rewrite <- !app_assoc.
Qed.

(** X20.  [set_parameters(get_parameters(free), free)] on a template of
    distinct primitives hands every primitive its own parameter vector and
    the norm map its own: the offsets at which [set_parameters] cuts the
    flat vector are those at which [get_parameters] joined it.  The flat
    vector holds the parameters of the primitives followed by those of the
    norm map. *)
Theorem set_get_parameters_round_trip w (free : bool) :
  let prims := primitives (self w) in
  let nparams := norms_get_parameters (norms (self w)) (Some free) in
  prims ≠ [] →
  NoDup prims →
  ∃ (p : list R) (b : bool) w',
    get_parameters (heap w) (self w) free = Ok p
    ∧ length p = params_len (heap w) prims free + length nparams
    ∧ set_parameters p free w = (Ok b, w')
    ∧ (∀ l, l ∈ prims →
            heap w' l
            = (prim_set_parameters (heap w l)
                 (prim_get_parameters (heap w l) free) free).1)
    ∧ norms (self w') = norms_set_parameters (norms (self w)) nparams free.
Proof.
  intros prims nparams Hne Hnd.
  set (ps := concat (map (λ l, prim_get_parameters (heap w l) free) prims)).
  exists (ps ++ nparams).
  assert (Hget : get_parameters (heap w) (self w) free = Ok (ps ++ nparams)).
  { unfold get_parameters, np_concatenate. fold prims.
    destruct prims; [done|]. reflexivity. }
  destruct (set_parameters_loop_spec (ps ++ nparams) free prims w 0%nat true Hnd)
    as (w1 & b & Hrun & Hb & Hself & Hnext & Hrng & Hout & Hframe & Hwritten).
  unfold set_parameters, mark_cache_dirty. mrun. fold prims. rewrite Hrun.
  exists b. eexists. split; [done|]. split.
  { rewrite length_app. unfold ps. by rewrite params_len_concat. }
  split; [reflexivity|]. cbn [self heap norms with_norms]. split.
  - intros l Hl. apply list_elem_of_lookup_1 in Hl as [i Hi].
    apply (Hwritten i l); [done|].
    pose proof (param_slices_concat (heap w) free nparams prims []) as Hs.
    cbn [app length] in Hs. fold ps in Hs. rewrite Hs, lookup_map, Hi. done.
  - unfold mark_cache_dirty_of, with_cache_dirty. cbn [norms].
    f_equal. cbn [Nat.add]. rewrite params_len_concat. fold ps.
    by rewrite drop_app_length.
Qed.

(** ** The prior of a template *)

Lemma np_concatenate_map {A B} (f : A → list B) (l : list A) :
  l ≠ [] → np_concatenate (map f l) = Ok (concat (map f l)).
Proof. by destruct l. Qed.

Lemma count_true_app (a b : list bool) :
  count_true (a ++ b) = count_true a + count_true b.
Proof. unfold count_true. by rewrite filter_app, length_app. Qed.

Lemma count_true_all_false {A} (l : list A) :
  count_true (map (λ _, false) l) = 0.
Proof. induction l as [|x l IH]; [done|]. cbn [map]. by rewrite count_true_cons, IH. Qed.

(** X21.  [get_gaussian_prior()] on a template with primitives, whose prior
    arrays have one length and no zero width where they are enabled: the
    prior spans the prior parameters of the primitives followed by the
    parameters of the norms; the norms are never enabled, so that [len] of
    the prior counts enabled parameters of primitives only and the gradient
    is zero at every parameter of the norms, the zero widths that stand for
    them dividing nothing. *)
Theorem get_gaussian_prior_spares_norms h t (params : list R) :
  let ps := map (λ l, get_gauss_prior_parameters (h l)) (primitives t) in
  let locs := concat (map (λ '(l, _, _, _), l) ps) in
  let widths := concat (map (λ '(_, w, _, _), w) ps) in
  let mods := concat (map (λ '(_, _, m, _), m) ps) in
  let enables := concat (map (λ '(_, _, _, e), e) ps) in
  let nnorm := length (norms_get_parameters (norms t) None) in
  primitives t ≠ [] →
  length widths = length locs →
  length mods = length locs →
  length enables = length locs →
  (∀ i (x : R), enables !! i = Some true → widths !! i = Some x → x ≠ 0%R) →
  length params = length locs + nnorm →
  ∃ gp g,
    get_gaussian_prior h t = Ok gp
    ∧ GaussianPriorMore.__len__ gp = count_true enables
    ∧ GaussianPrior.gradient gp params = Ok g
    ∧ length g = length locs + nnorm
    ∧ ∀ i, length locs ≤ i < length locs + nnorm → g !! i = Some 0%R.
Proof.
  intros ps locs widths mods enables nnorm Hne Hw Hm He Hnz Hp.
  set (t0 := zeros_like (norms_get_parameters (norms t) None)).
  set (f0 := map (λ _ : R, false) t0).
  assert (Ht0 : length t0 = nnorm) by (unfold t0, zeros_like; by rewrite length_map).
  assert (Hf0 : length f0 = nnorm) by (unfold f0; by rewrite length_map).
  assert (Hps : ps ≠ []) by (unfold ps; by destruct (primitives t)).
  destruct (gradient_entries (locs ++ t0) (widths ++ t0) params (mods ++ f0)
              (Some (enables ++ f0)))
    as (gp & g & Hinit & Hgrad & Hlen & Hentries).
  { rewrite !length_app. lia. }
  { rewrite !length_app. lia. }
  { cbn. rewrite !length_app. lia. }
  { rewrite length_app. lia. }
  { cbn. intros i x Hen Hwi.
    destruct (decide (i < length enables)) as [Hlt|Hge].
    - rewrite lookup_app_l in Hen by done.
      rewrite lookup_app_l in Hwi by lia. by eapply Hnz.
    - rewrite lookup_app_r in Hen by lia. unfold f0 in Hen.
      rewrite lookup_map in Hen. by destruct (t0 !! _). }
  exists gp, g. split.
  { unfold get_gaussian_prior. cbv zeta. fold ps.
    rewrite !np_concatenate_map by done. rrun.
    fold locs widths mods enables t0 f0. exact Hinit. }
  rewrite gaussian_prior_init in Hinit;
    [|cbn; rewrite !length_app; lia..].
  cbn [default from_option id] in Hinit.
  injection Hinit as <-. split.
  { unfold GaussianPriorMore.__len__. cbn [GaussianPrior.mask].
    unfold f0. rewrite count_true_app, count_true_all_false. lia. }
  split; [done|]. split; [by rewrite Hlen|].
  intros i Hi.
  destruct (lookup_lt_is_Some_2 params i) as [p Hpi]; [lia|].
  destruct (lookup_lt_is_Some_2 t0 (i - length locs)) as [z Hz]; [lia|].
  destruct (lookup_lt_is_Some_2 f0 (i - length locs)) as [b Hb]; [lia|].
  assert (b = false) as ->.
  { unfold f0 in Hb. rewrite lookup_map, Hz in Hb. by injection Hb. }
  destruct (Hentries i false false p z z) as [-> _]; try done.
  - cbn. rewrite lookup_app_r by lia. by rewrite He.
  - rewrite lookup_app_r by lia. by rewrite Hm.
  - by rewrite lookup_app_r by lia.
  - rewrite lookup_app_r by lia. by rewrite Hw.
Qed.

(** ** Single components of a bridge template *)

Lemma zip_with_map2 {A B C D} (f : B → C → D) (g : A → B) (k : A → C)
    (l : list A) :
  zip_with f (map g l) (map k l) = map (λ x, f (g x) (k x)) l.
Proof. induction l as [|x l IH]; [done|]. cbn. by rewrite IH. Qed.

Lemma py_index_app_l {A} (a b : list A) (i : nat) (x : A) :
  a !! i = Some x → py_index (a ++ b) (Z.of_nat i) = Ok x.
Proof. intros Hx. apply py_index_nat. by apply lookup_app_l_Some. Qed.

(** X24.  [LCBridgeTemplate.single_component(index, phases)], the three
    denominators of the scale solver nonzero: the pedestal [k/delta] over
    the interval comes with every component.  For an index past the
    primitives it is all there is; for a primitive before p1 and p2 its
    weighted values are added, and for p1 they are added with the weight
    [n1 + dn1] inside the interval and [n1] outside. *)
Theorem bridge_single_component_has_pedestal h t (phases : list R) (e : R)
    (a b : loc) (front : list loc) (nped n1 n2 : R) (wfront : list R) :
  has_bridge t = true →
  p1p2 t = Some (a, b) →
  primitives t = front ++ [a; b] →
  norms_call (norms t) e = nped :: wfront ++ [n1; n2] →
  length wfront = length front →
  determinant h a b e ≠ 0%R →
  interval_length h a b ≠ 0%R →
  pedestal_denominator h a b e ≠ 0%R →
  let mask := bridge_mask (get_location (h a)) (get_location (h b)) in
  let pedestal := λ ph,
    (pedestal_scale h a b e nped / interval_length h a b * of_bool (mask ph))%R in
  (∀ index, (Z.of_nat (length (primitives t)) ≤ index)%Z →
     LCBridgeTemplate_single_component h t index phases e
     = Ok (map pedestal phases))
  ∧ (∀ i wi l, wfront !! i = Some wi → front !! i = Some l →
       LCBridgeTemplate_single_component h t (Z.of_nat i) phases e
       = Ok (map (λ ph, pedestal ph + wi * prim_call (h l) ph e)%R phases))
  ∧ LCBridgeTemplate_single_component h t (Z.of_nat (length front)) phases e
    = Ok (map (λ ph,
            pedestal ph
            + (n1 + rescale1 h a b e nped * of_bool (mask ph))
              * prim_call (h a) ph e)%R phases).
Proof.
  intros Hb Hp Hprims Hn Hlen Hd Hl Hden mask pedestal.
  pose proof (bridge_get_scales_run h t phases e a b nped n1 n2 wfront
                Hp Hn Hd Hl Hden) as Hrun. cbv zeta in Hrun. fold mask in Hrun.
  unfold LCBridgeTemplate_single_component, _get_scales.
  rewrite Hb, Hrun. rrun. clear Hrun.
  assert (Hnp : length (primitives t) = length front + 2).
  { rewrite Hprims, length_app. cbn. lia. }
  split; [|split].
  - intros index Hidx.
    destruct (decide (index < Z.of_nat (length (primitives t)))%Z) as [|_];
      [lia|done].
  - intros i wi l Hwi Hli.
    pose proof (lookup_lt_Some _ _ _ Hli) as Hi.
    destruct (decide (Z.of_nat i < Z.of_nat (length (primitives t)))%Z) as [_|];
      [|lia].
    rewrite (py_index_app_l _ _ i (Scalar wi)) by (by rewrite list_lookup_fmap, Hwi).
    rewrite Hprims, (py_index_app_l _ _ i l) by done. rrun.
    f_equal. unfold prim_eval. cbn [scale_mul]. rewrite map_map, vadd_map. done.
  - destruct (decide (Z.of_nat (length front)
                      < Z.of_nat (length (primitives t)))%Z) as [_|]; [|lia].
    rewrite (py_index_nat _ (length front)
               (Arr (map (λ ph, n1 + rescale1 h a b e nped * of_bool (mask ph))%R
                       phases))).
    2:{ rewrite lookup_app_r by (rewrite length_fmap; lia).
        by rewrite length_fmap, Hlen, Nat.sub_diag. }
    rewrite Hprims, (py_index_nat _ (length front) a).
    2:{ by rewrite lookup_app_r, Nat.sub_diag by lia. }
    rrun. f_equal. unfold prim_eval. cbn [scale_mul].
    rewrite zip_with_map2, vadd_map. apply map_ext. intros ph.
    unfold pedestal. lra.
Qed.

(** ** Reordering *)

#[local] Instance key_le_total : Total (λ a b : R * nat, a.1 <= b.1)%R.
Proof. intros [x i] [y j]. cbn. destruct (Rle_dec x y); [by left|right; lra]. Qed.

(** [np.argsort] returns the indices of the array, each once. *)
Lemma argsort_Permutation (keys : list R) : argsort keys ≡ₚ seq 0 (length keys).
Proof.
  unfold argsort. rewrite merge_sort_Permutation.
  rewrite snd_zip; [done|]. by rewrite length_seq.
Qed.

(** Along them the keys do not decrease. *)
Lemma argsort_Sorted (keys : list R) :
  Sorted Rle (map (λ i, nth i keys 0%R) (argsort keys)).
Proof.
  unfold argsort.
  set (s := merge_sort (λ a b : R * nat, a.1 <= b.1)%R
              (zip keys (seq 0 (length keys)))).
  assert (Hs : Forall (λ ki : R * nat, nth ki.2 keys 0%R = ki.1) s).
  { apply Forall_forall. intros [k i] Hki. cbn.
    unfold s in Hki. rewrite merge_sort_Permutation in Hki.
    apply list_elem_of_lookup_1 in Hki as [j Hj].
    apply lookup_zip_with_Some in Hj as (k' & i' & [= <- <-] & Hk & Hi).
    apply lookup_seq in Hi as [-> _]. cbn. by apply nth_lookup_Some. }
  assert (Heq : map (λ i, nth i keys 0%R) (snd <$> s) = fst <$> s).
  { clear -Hs. induction Hs as [|[k i] s Hki _ IH]; [done|].
    cbn in *. by rewrite Hki, IH. }
  rewrite Heq. apply (Sorted_fmap _ (λ a b : R * nat, a.1 <= b.1)%R); [done|].
  apply Sorted_merge_sort. apply _.
Qed.

Lemma mapM_py_index_nat {A} (d : A) (a : list A) (idx : list nat) :
  Forall (λ i, i < length a) idx →
  mapM (λ i : nat, py_index a (Z.of_nat i)) idx = Ok (map (λ i, nth i a d) idx).
Proof.
  induction 1 as [|i idx Hi _ IH]; [done|].
  cbn [mapM map]. rewrite IH, (py_index_nat _ i (nth i a d)); [done|].
  destruct (nth_lookup_or_length a i d) as [->|]; [done|lia].
Qed.

(** X25.  [order_primitives(0)] sorts by location: the new list of
    primitives is the old one taken along one permutation of its indices,
    the locations along it do not decrease, and the norm map is handed the
    same permutation; no primitive is changed and the cache is left as it
    is.  An order other than 0, 1 and 2 raises NotImplementedError and
    nothing is changed. *)
Theorem order_primitives_sorts w :
  let prims := primitives (self w) in
  (∃ indices w',
     order_primitives 0 w = (Ok (), w')
     ∧ indices ≡ₚ seq 0 (length prims)
     ∧ primitives (self w') = map (λ i, nth i prims 0) indices
     ∧ primitives (self w') ≡ₚ prims
     ∧ Sorted Rle (map (λ l, get_location (heap w l)) (primitives (self w')))
     ∧ norms (self w') = reorder_components (norms (self w)) indices
     ∧ heap w' = heap w
     ∧ _cache (self w') = _cache (self w)
     ∧ _cache_dirty (self w') = _cache_dirty (self w))
  ∧ ∀ order, (order < 0 ∨ 2 < order)%Z →
      order_primitives order w = (Raise NotImplementedError, w).
Proof.
  intros prims. split.
  - set (keys := map (λ l, get_location (heap w l)) prims).
    assert (Hk : length keys = length prims) by (unfold keys; by rewrite length_map).
    exists (argsort keys). unfold order_primitives. mrun. fold prims keys.
    destruct (decide (0 = 0)%Z) as [_|]; [|done]. mrun.
    assert (Hperm : argsort keys ≡ₚ seq 0 (length prims)).
    { rewrite <- Hk. apply argsort_Permutation. }
    rewrite (mapM_py_index_nat (0 : loc)).
    2:{ apply Forall_forall. intros i Hi. rewrite Hperm in Hi.
        apply elem_of_seq in Hi. unfold prims in *. lia. }
    eexists. split; [reflexivity|]. cbn. split; [done|]. split; [done|].
    split.
    { rewrite Hperm. rewrite (tab_eta 0 prims) at 2. done. }
    split; [|done].
    rewrite map_map.
    assert (Hs := argsort_Sorted keys).
    erewrite map_ext_in; [exact Hs|]. intros i Hi. cbn.
    apply list_elem_of_In in Hi. rewrite Hperm in Hi. apply elem_of_seq in Hi.
    unfold keys.
    destruct (nth_lookup_or_length prims i 0) as [Hl|]; [|lia].
    symmetry. apply nth_lookup_Some. by rewrite lookup_map, Hl.
  - intros order Hord. unfold order_primitives. mrun.
    destruct (decide (order = 0)%Z); [lia|].
    destruct (decide (order = 1)%Z); [lia|].
    destruct (decide (order = 2)%Z); [lia|]. done.
Qed.

(** ** Convenience constructors *)

(** X26.  The amplitudes that the convenience constructors hand to the
    norm map add up to the pulsed fraction.  [get_gauss2], for [ratio]
    other than -1 and a bridge fraction that is not negative, builds two
    new primitives, or three when [bridge_frac > 0], and passes [LCTemplate]
    as many amplitudes, the first [ratio] times the last; [get_2pb] passes
    0.3, 0.4 and 0.3 of the pulsed fraction for three new primitives. *)
Theorem convenience_amplitudes w (pulse_frac x1 x2 ratio width1 width2 : R)
    (lorentzian : bool) (bridge_frac skew : R) :
  (1 + ratio ≠ 0)%R →
  (0 <= bridge_frac)%R →
  (∃ (prims : list loc) (amps : list R) w',
     get_gauss2 pulse_frac x1 x2 ratio width1 width2 lorentzian bridge_frac skew w
     = (__init__ false (heap w') prims (NormsTuple amps), w')
     ∧ length prims = (if decide (bridge_frac > 0)%R then 3 else 2)
     ∧ length amps = length prims
     ∧ np_sum amps = pulse_frac
     ∧ (nth 0 amps 0 = ratio * nth (length amps - 1) amps 0)%R
     ∧ prims ≡ₚ seq (next_loc w) (length prims)
     ∧ self w' = self w
     ∧ ∀ l, l < next_loc w → heap w' l = heap w l)
  ∧ (∃ (prims : list loc) (amps : list R) w',
       get_2pb pulse_frac lorentzian w
       = (__init__ false (heap w') prims (NormsTuple amps), w')
       ∧ length prims = 3 ∧ length amps = 3
       ∧ np_sum amps = pulse_frac
       ∧ prims = seq (next_loc w) 3
       ∧ self w' = self w
       ∧ ∀ l, l < next_loc w → heap w' l = heap w l).
Proof.
  intros Hr Hbf. split.
  - unfold get_gauss2. mrun.
    destruct (decide (1 + ratio = 0)%R) as [|_]; [done|]. mrun.
    destruct (decide (skew ≠ 0%R)); [|destruct lorentzian];
      (destruct (decide (bridge_frac > 0)%R); mrun;
       eexists _, _, (mkWorld _ _ _ _ _); (split; [reflexivity|]);
       cbn [length nth Nat.sub self heap seq];
       (split; [done|]); (split; [done|]);
       (split; [rewrite !np_sum_cons; change (np_sum []) with 0%R;
                first [by field
                      |replace bridge_frac with 0%R by lra; by field]|]);
       (split; [by field|]);
       (split; [try done; apply perm_swap|]);
       (split; [done|]);
       intros l Hl; rewrite ?fn_lookup_insert_ne by lia; done).
  - unfold get_2pb. mrun. eexists _, _, (mkWorld _ _ _ _ _).
    split; [reflexivity|]. cbn [length self heap].
    split; [done|]. split; [done|]. split.
    { rewrite !np_sum_cons. change (np_sum []) with 0%R. field. }
    split; [done|]. split; [done|].
    intros l Hl. rewrite ?fn_lookup_insert_ne by lia. done.
Qed.

End extended_properties.

(** ** GaussianPrior: the penalty *)

Section prior_properties.

Lemma np_sum_squares_nonneg (qs : list R) : (0 <= np_sum (map (λ q, q ^ 2) qs))%R.
Proof.
  induction qs as [|q qs IH]; [cbn; lra|].
  cbn [map]. rewrite np_sum_cons. pose proof (pow2_ge_0 q). lra.
Qed.

Lemma penalty_terms_lookup (mods : list bool) (params locations widths : list R)
    (i : nat) (m : bool) (p x w : R) :
  mods !! i = Some m → params !! i = Some p →
  locations !! i = Some x → widths !! i = Some w →
  penalty_terms mods params locations widths !! i
  = Some (((wrap m p - wrap m x) / (w * sqrt 2)) ^ 2)%R.
Proof.
  intros Hm Hp Hx Hw. unfold penalty_terms.
  rewrite lookup_map, lookup_zip_with, lookup_zip_with.
  rewrite (wrapped_lookup _ _ _ _ _ Hm Hp), (wrapped_lookup _ _ _ _ _ Hm Hx).
  cbn. by rewrite lookup_map, Hw.
Qed.

(** The penalty, once the prior is built. *)
Lemma prior_call_run (locations widths params : list R) (mods enabled : list bool) :
  length widths = length locations →
  length mods = length locations →
  length enabled = length locations →
  length params = length locations →
  (∀ i w, enabled !! i = Some true → widths !! i = Some w → w ≠ 0%R) →
  GaussianPriorMore.__call__
    (GaussianPrior.mk
       (select enabled (wrapped mods locations))
       (select enabled (map (λ w, w * sqrt 2)%R widths))
       (select enabled mods)
       enabled) params
  = Ok (np_sum (select enabled (penalty_terms mods params locations widths))).
Proof.
  intros Hw Hm He Hp Hnz. unfold GaussianPriorMore.__call__.
  cbn [GaussianPrior.mask GaussianPrior.x0 GaussianPrior.s0 GaussianPrior.mod_].
  destruct (existsb (λ b : bool, b) enabled) eqn:Hany; cbn [negb].
  2:{ by rewrite existsb_false_select. }
  rewrite np_mask_ok by congruence. rrun.
  rewrite np_where_ok; last first.
  { by rewrite length_fmap. }
  { rewrite length_fmap, !select_length by congruence. done. }
  rewrite select_wrapped. rrun.
  unfold GaussianPrior.vsub.
  destruct (decide _) as [_|Hne]; last first.
  { exfalso. apply Hne. rewrite !select_length; [done|..];
      rewrite wrapped_length; congruence. }
  rrun. rewrite <- select_zip_with.
  unfold GaussianPrior.vdiv.
  destruct (decide _) as [_|Hne]; last first.
  { exfalso. apply Hne. rewrite !select_length; [done|..].
    - rewrite !length_map. congruence.
    - rewrite length_zip_with, !wrapped_length; [lia|congruence..]. }
  destruct (decide _) as [Hex|_].
  { exfalso. apply Exists_exists in Hex as (s & Hs & ->).
    apply elem_of_select in Hs as (i & Hi & Hsi).
    rewrite lookup_map in Hsi.
    destruct (widths !! i) as [w|] eqn:Hwi; [|done]. cbn in Hsi.
    injection Hsi as Hsi. apply (Hnz i w Hi Hwi).
    assert (0 < sqrt 2)%R by (apply sqrt_lt_R0; lra). nra. }
  rrun. rewrite <- select_zip_with, <- select_map. reflexivity.
Qed.

(** X22.  The penalty of a prior, its widths nonzero where it is enabled:
    [GaussianPrior(...)(params)] is the sum, over the enabled entries, of
    [((wrapped_param - target) / (width * sqrt 2)) ^ 2]; it is not
    negative. *)
Theorem prior_penalty_is_sum_of_squares (locations widths params : list R)
    (mods : list bool) (mask : option (list bool)) :
  let enabled := default (replicate (length locations) true) mask in
  length widths = length locations →
  length mods = length locations →
  length enabled = length locations →
  length params = length locations →
  (∀ i w, enabled !! i = Some true → widths !! i = Some w → w ≠ 0%R) →
  ∃ gp v,
    GaussianPrior.__init__ locations widths mods mask = Ok gp
    ∧ GaussianPriorMore.__call__ gp params = Ok v
    ∧ v = np_sum (select enabled (penalty_terms mods params locations widths))
    ∧ (0 <= v)%R
    ∧ GaussianPriorMore.__len__ gp = count_true enabled.
Proof.
  intros enabled Hw Hm He Hp Hnz.
  eexists _, _. split; [by apply gaussian_prior_init|].
  fold enabled. split; [by apply prior_call_run|]. split; [done|]. split.
  - unfold penalty_terms. rewrite select_map. apply np_sum_squares_nonneg.
  - reflexivity.
Qed.

Lemma np_sum_zeros (xs : list R) : Forall (λ x, x = 0%R) xs → np_sum xs = 0%R.
Proof.
  induction 1 as [|x xs -> _ IH]; [done|]. rewrite np_sum_cons, IH. lra.
Qed.

(** X23.  At its own locations the prior vanishes: the penalty is 0 and
    every entry of the gradient is 0. *)
Theorem prior_vanishes_at_target (locations widths : list R)
    (mods : list bool) (mask : option (list bool)) :
  let enabled := default (replicate (length locations) true) mask in
  length widths = length locations →
  length mods = length locations →
  length enabled = length locations →
  (∀ i w, enabled !! i = Some true → widths !! i = Some w → w ≠ 0%R) →
  ∃ gp,
    GaussianPrior.__init__ locations widths mods mask = Ok gp
    ∧ GaussianPriorMore.__call__ gp locations = Ok 0%R
    ∧ GaussianPrior.gradient gp locations
      = Ok (replicate (length locations) 0%R).
Proof.
  intros enabled Hw Hm He Hnz.
  destruct (gradient_entries locations widths locations mods mask)
    as (gp & g & Hinit & Hgrad & Hlen & Hentries); try done.
  exists gp. split; [done|]. split.
  - rewrite gaussian_prior_init in Hinit by done. injection Hinit as <-.
    fold enabled. rewrite prior_call_run by done. f_equal.
    apply np_sum_zeros. apply Forall_forall. intros v Hv.
    apply elem_of_select in Hv as (i & Hi & Hvi).
    assert (Hlt : i < length locations).
    { apply lookup_lt_Some in Hi. lia. }
    destruct (lookup_lt_is_Some_2 locations i Hlt) as [x Hx].
    destruct (lookup_lt_is_Some_2 mods i) as [m Hmi]; [lia|].
    destruct (lookup_lt_is_Some_2 widths i) as [w Hwi]; [lia|].
    rewrite (penalty_terms_lookup _ _ _ _ i m x x w) in Hvi by done.
    injection Hvi as <-. unfold Rdiv. ring.
  - rewrite Hgrad. f_equal. apply list_eq. intros i.
    destruct (decide (i < length locations)) as [Hlt|Hge].
    + destruct (lookup_lt_is_Some_2 locations i Hlt) as [x Hx].
      destruct (lookup_lt_is_Some_2 mods i) as [m Hmi]; [lia|].
      destruct (lookup_lt_is_Some_2 widths i) as [w Hwi]; [lia|].
      destruct (lookup_lt_is_Some_2 enabled i) as [en Hen]; [lia|].
      destruct (Hentries i en m x x w Hen Hmi Hx Hx Hwi) as [-> _].
      rewrite lookup_replicate_2 by done. f_equal.
      unfold gradient_entry. destruct en; [|done]. unfold Rdiv. ring.
    + rewrite !lookup_ge_None_2; [done|rewrite length_replicate; lia|lia].
Qed.

End prior_properties.

(** * The further properties on concrete templates *)

Section more_examples.
Import Fixture FixtureMore.

(** The empty cache holds no grid marked clean. *)
Lemma empty_cache_wf (bridge : bool) (nm : list R) : cache_wf (template bridge nm).
Proof. intros order Hd. cbn in Hd. by rewrite lookup_empty in Hd. Qed.

(** X2, on two polynomial primitives and a cache of 4 bins. *)
Lemma get_cache_hit_ignores_primitives_witness :
  let w := world2 (template false quarter2) parabola line in
  ∃ grid w1,
    get_cache 0 w = (Ok grid, w1)
    ∧ Z.of_nat (length grid) = 5%Z
    ∧ get_cache 0 (mkWorld (self w1) (heap2 line line) 2 () []) = (Ok grid, mkWorld (self w1) (heap2 line line) 2 () []).
Proof.
  intros w.
  destruct (get_cache_hit_ignores_primitives w 0 eq_refl)
    as (grid & w1 & Hget & Hlen & Hhit).
  { done. }
  { apply empty_cache_wf. }
  exists grid, w1. split; [exact Hget|]. split; [exact Hlen|]. apply Hhit.
Defined.

(** X3, on the same template. *)
Lemma set_parameters_then_get_cache_witness :
  let w := world2 (template false quarter2) parabola line in
  ∃ (b : bool) w1 grid w2,
    set_parameters [1; 2; 1 / 4; 1; 2; 3 / 4; 1 / 8; 1 / 8]%R true w = (Ok b, w1)
    ∧ get_cache 0 w1 = (Ok grid, w2)
    ∧ grid_values (heap w1) (self w1) 0 = Ok grid
    ∧ Z.of_nat (length grid) = 5%Z.
Proof.
  intros w.
  apply (set_parameters_then_get_cache w _ true 0 eq_refl). done.
Defined.

(** X4, at the grid phases 0, 1/4 and 1. *)
Lemma cached_call_on_grid_witness :
  let w := world2 (template false quarter2) parabola line in
  ∃ v w1,
    __call__ (map (λ k, INR k / 4)%R [0; 1; 4]) 7 true true w = (Ok (fin <$> v), w1)
    ∧ call_direct (heap w) (self w) (map (λ k, INR k / 4)%R [0; 1; 4]) 3 false = Ok v.
Proof.
  intros w.
  apply (cached_call_on_grid w [0; 1; 4] 7 true eq_refl eq_refl).
  - cbn. lia.
  - reflexivity.
  - repeat constructor; cbn; lia.
Defined.

(** X5, at the phases 0, 1/8 and 7/8. *)
Lemma eval_cache_linear_witness :
  let w := world2 (template_linear quarter2) parabola line in
  ∃ grid w1,
    get_cache 0 w = (Ok grid, w1)
    ∧ eval_cache (fin <$> [0; 1 / 8; 7 / 8]%R) 0 w
      = (Ok (fin <$> map (lerp grid 4) [0; 1 / 8; 7 / 8]%R), w1)
    ∧ eval_cache [fin 1] 0 w = (Raise IndexError, w1).
Proof.
  intros w.
  destruct (eval_cache_linear w [0; 1 / 8; 7 / 8]%R 0 eq_refl eq_refl)
    as (grid & w1 & Hget & Heval & _ & Hone).
  { cbn. lia. }
  { intros order Hd. cbn in Hd. by rewrite lookup_empty in Hd. }
  { repeat constructor; lra. }
  by exists grid, w1.
Defined.

Lemma NoDup_two : NoDup [0; 1].
Proof.
  apply NoDup_cons. split; [|apply NoDup_singleton].
  intros H. apply list_elem_of_singleton in H. done.
Qed.

Lemma two_objects (w : world Poly (list R) unit) :
  next_loc w = 2 → Forall (λ l, l < next_loc w) [0; 1].
Proof. intros ->. repeat constructor. Qed.

(** X6, moving the parabola to the phase 1/3. *)
Lemma set_overall_phase_moves_all_witness :
  let w := world2 (template false quarter2) parabola line in
  ∃ w',
    set_overall_phase (1 / 3) w = (Ok (), w')
    ∧ primitives (self w') = [0; 1]
    ∧ get_location (heap w' 0%nat) = mod1 (1 / 3).
Proof.
  intros w.
  destruct (set_overall_phase_moves_all w (1 / 3) 0 [1] eq_refl NoDup_two)
    as (w' & Hrun & Hprims & _ & _ & Hmoved).
  exists w'. split; [exact Hrun|]. split; [exact Hprims|].
  cbn [shift_mode self world2 template] in Hmoved.
  destruct Hmoved as [_ Hfirst]. apply Hfirst. reflexivity.
Defined.

(** X7, with the default [dphi], whose quotient 1000 does not overflow. *)
Lemma align_peak_ignores_phi_witness :
  let w := world2 (template false quarter2) parabola line in
  align_peak (1 / 2) (1 / 1000) w = set_overall_phase 0 w.
Proof.
  intros w. rewrite (align_peak_ignores_phi w (1 / 2) (1 / 1000) eq_refl).
  destruct (decide (1 / 1000 = 0)%R) as [|_]; [lra|].
  destruct (decide (overflow_bound <= Rabs (1 / (1 / 1000)))%R) as [Hov|_];
    [|reflexivity].
  exfalso. revert Hov.
  replace (1 / (1 / 1000))%R with 1000%R by field.
  rewrite Rabs_pos_eq by lra. unfold overflow_bound.
  intros Hov. apply (Rle_not_lt _ _ Hov). apply IZR_lt. reflexivity.
Defined.

(** X9, with the index 5 on two primitives. *)
Lemma delete_primitive_out_of_range_witness :
  let w := world2 (template false quarter2) parabola line in
  ∃ w',
    delete_primitive 5 true w = (Ok None, w')
    ∧ length (primitives (self w')) = 2
    ∧ norms (self w') = delete_component quarter2 5.
Proof.
  intros w.
  destruct (delete_primitive_out_of_range w 5)
    as (w' & Hrun & _ & Hlen & Hnorms).
  - cbn. lia.
  - unfold in_range. cbn. lia.
  - by apply two_objects.
  - by exists w'.
Defined.

(** X11, with one weight for two photons. *)
Lemma random_checks_lengths_witness :
  let w := world2 (template false quarter2) parabola line in
  random 2 (Some [1%R]) (EnScalar 3) false w = (Raise ValueError, w).
Proof.
  intros w. apply (random_checks_lengths w 2 (Some [1%R]) (EnScalar 3) false).
  - done.
  - left. exists [1%R]. split; [reflexivity|]. cbn. lia.
Defined.

Lemma parabola_line_denominators :
  determinant (heap2 parabola line) 0 1 3 ≠ 0%R
  ∧ interval_length (heap2 parabola line) 0 1 ≠ 0%R
  ∧ pedestal_denominator (heap2 parabola line) 0 1 3 ≠ 0%R.
Proof.
  destruct parabola_line_geometry as (Hd & Hl & Hi).
  unfold pedestal_denominator. rewrite Hd, Hl, Hi.
  replace (1 - 11 / 8 / (3 * (1 / 2)))%R with (1 / 12)%R by field.
  repeat split; lra.
Qed.

(** X12, on the parabola and the line with three weights 1/4. *)
Lemma bridge_scales_carry_pedestal_witness :
  let h := heap2 parabola line in
  ∃ k dn1 dn2 : R,
    (k + dn1 * bridge_integral h 0%nat 1%nat 3 0%nat
     + dn2 * bridge_integral h 0%nat 1%nat 3 1%nat
     = 1 / 4)%R.
Proof.
  intros h.
  destruct parabola_line_denominators as (Hd & Hl & Hden).
  destruct (bridge_scales_carry_pedestal h (template true quarter3) [0%R] 3 0 1
              (1 / 4) (1 / 4) (1 / 4) [])
    as (k & dn1 & dn2 & _ & Hsum); [reflexivity|reflexivity|done|done|done|].
  by exists k, dn1, dn2.
Defined.

(** X13, on the parabola and the line with the weights 0, 1/4 and 1/4. *)
Lemma bridge_without_pedestal_witness :
  let h := heap2 parabola line in
  let t := template true [0; 1 / 4; 1 / 4]%R in
  call_direct h t [0%R] 3 false
  = Ok (map (λ ph,
          (1 - np_sum [1 / 4; 1 / 4])
          + weighted_sum h [1 / 4; 1 / 4] (primitives t) ph 3)%R [0%R]).
Proof.
  intros h t.
  destruct parabola_line_denominators as (Hd & Hl & Hden).
  apply (bridge_without_pedestal h t [0%R] 3 0 1 [] (1 / 4) (1 / 4) []);
    solve [reflexivity | done].
Defined.

(** X24, on the parabola and the line with three weights 1/4. *)
Lemma bridge_single_component_has_pedestal_witness :
  let h := heap2 parabola line in
  let t := template true quarter3 in
  LCBridgeTemplate_single_component h t 2 [0%R] 3
  = Ok (map (λ ph,
          pedestal_scale h 0%nat 1%nat 3 (1 / 4)
          / interval_length h 0%nat 1%nat
          * of_bool (bridge_mask (get_location (h 0%nat))
                       (get_location (h 1%nat)) ph))%R [0%R]).
Proof.
  intros h t.
  destruct parabola_line_denominators as (Hd & Hl & Hden).
  destruct (bridge_single_component_has_pedestal h t [0%R] 3 0 1 []
              (1 / 4) (1 / 4) (1 / 4) []) as (Hpast & _ & _);
    [reflexivity|reflexivity|reflexivity|reflexivity|reflexivity
    |done|done|done|].
  apply Hpast. cbn. lia.
Defined.

(** X15, on the parabola and the line with the weights 1/4 and 1/4. *)
Lemma integrate_full_turn_witness :
  let h := heap2 parabola line in
  let t := template false quarter2 in
  integrate h t 0 1 3 false = Ok 1%R ∧ cdf h t 1 3 = Ok 1%R.
Proof.
  intros h t. destruct (integrate_full_turn h t 3) as (Hint & Hcdf & _).
  - reflexivity.
  - intros l _. cbn [prim_integrate poly_prim]. unfold poly_integrate. field.
  - by split.
Defined.

(** X16, over the intervals from 0 to 1/4 and from 1/4 to 1/2. *)
Lemma integrate_additive_witness :
  let h := heap2 parabola line in
  let t := template false quarter2 in
  ∃ x y z : R,
    integrate h t 0 (1 / 4) 3 false = Ok x
    ∧ integrate h t (1 / 4) (1 / 2) 3 false = Ok y
    ∧ integrate h t 0 (1 / 2) 3 false = Ok z
    ∧ z = (x + y)%R.
Proof.
  intros h t. apply (integrate_additive h t 0 (1 / 4) (1 / 2) 3).
  intros l _. cbn [prim_integrate poly_prim]. unfold poly_integrate. field.
Defined.

(** X17, on the parabola at 0 and the line at 1/2. *)
Lemma Delta_is_spread_witness :
  let h := heap2 parabola line in
  let t := template false quarter2 in
  ∃ lo hi : loc,
    lo ∈ primitives t ∧ hi ∈ primitives t
    ∧ Delta h t false
      = Ok ((get_location (h hi) - get_location (h lo))%R,
            sqrt ((get_location_error (h lo)).2 ^ 2
                  + (get_location_error (h hi)).2 ^ 2))
    ∧ Delta h t true
      = Ok (get_location (h lo), (get_location_error (h lo)).2).
Proof.
  intros h t.
  assert (Hloc : ∀ p : Poly, (get_location_error p).1 = get_location p)
    by (intros p; reflexivity).
  destruct (Delta_is_spread h t Hloc)
    as (lo & hi & Hlo & Hhi & _ & Hspread & Hleft).
  by exists lo, hi.
Defined.

(** X19, on two polynomial primitives. *)
Lemma copy_is_deep_and_resets_cache_witness :
  let w := world2 (template false quarter2) parabola line in
  ∃ nt w',
    copy w = (Ok nt, w')
    ∧ self w' = self w
    ∧ norms nt = quarter2
    ∧ _cache nt = ∅ ∧ ncache nt = 1000%Z ∧ interpolation nt = 1%Z.
Proof.
  intros w.
  destruct (copy_is_deep_and_resets_cache w)
    as (nt & w' & Hrun & Hself & _ & Hnorms & _ & Hcache & _ & Hn & Hi).
  - reflexivity.
  - reflexivity.
  - by apply two_objects.
  - by exists nt, w'.
Defined.

(** X20, with the free parameters of the parabola and the line. *)
Lemma set_get_parameters_round_trip_witness :
  let w := world2 (template false quarter2) parabola line in
  ∃ (p : list R) (b : bool) w',
    get_parameters (heap w) (self w) true = Ok p
    ∧ set_parameters p true w = (Ok b, w')
    ∧ norms (self w') = quarter2.
Proof.
  intros w.
  destruct (set_get_parameters_round_trip w true)
    as (p & b & w' & Hget & _ & Hset & _ & Hnorms).
  - done.
  - apply NoDup_two.
  - by exists p, b, w'.
Defined.

(** X21, on the parabola and the line: two prior parameters of primitives
    and two norms. *)
Lemma get_gaussian_prior_spares_norms_witness :
  let h := heap2 parabola line in
  let t := template false quarter2 in
  ∃ gp g,
    get_gaussian_prior h t = Ok gp
    ∧ GaussianPriorMore.__len__ gp = 2
    ∧ GaussianPrior.gradient gp [0; 1 / 2; 1 / 4; 1 / 4]%R = Ok g
    ∧ g !! 2 = Some 0%R ∧ g !! 3 = Some 0%R.
Proof.
  intros h t.
  destruct (get_gaussian_prior_spares_norms h t [0; 1 / 2; 1 / 4; 1 / 4]%R)
    as (gp & g & Hgp & Hlen & Hgrad & _ & Hzero).
  - done.
  - reflexivity.
  - reflexivity.
  - reflexivity.
  - intros [|[|i]] x Hi Hx; cbn in Hx; [| |done]; injection Hx as <-; lra.
  - reflexivity.
  - exists gp, g. split; [exact Hgp|]. split; [exact Hlen|].
    split; [exact Hgrad|]. split; apply Hzero; cbn; lia.
Defined.

(** X22, with a periodic parameter and a plain one. *)
Lemma prior_penalty_is_sum_of_squares_witness :
  ∃ gp v,
    GaussianPrior.__init__ [0; 1 / 2]%R [1 / 10; 1 / 5]%R [true; false] None
    = Ok gp
    ∧ GaussianPriorMore.__call__ gp [1 / 4; 3 / 4]%R = Ok v
    ∧ (0 <= v)%R.
Proof.
  destruct (prior_penalty_is_sum_of_squares [0; 1 / 2]%R [1 / 10; 1 / 5]%R
              [1 / 4; 3 / 4]%R [true; false] None)
    as (gp & v & Hinit & Hcall & _ & Hpos & _).
  - reflexivity.
  - reflexivity.
  - reflexivity.
  - reflexivity.
  - intros [|[|i]] x Hi Hx; cbn in Hx; [| |done]; injection Hx as <-; lra.
  - by exists gp, v.
Defined.

(** X23, on the same prior. *)
Lemma prior_vanishes_at_target_witness :
  ∃ gp,
    GaussianPrior.__init__ [0; 1 / 2]%R [1 / 10; 1 / 5]%R [true; false] None
    = Ok gp
    ∧ GaussianPriorMore.__call__ gp [0; 1 / 2]%R = Ok 0%R
    ∧ GaussianPrior.gradient gp [0; 1 / 2]%R = Ok [0; 0]%R.
Proof.
  apply (prior_vanishes_at_target [0; 1 / 2]%R [1 / 10; 1 / 5]%R
           [true; false] None).
  - reflexivity.
  - reflexivity.
  - reflexivity.
  - intros [|[|i]] x Hi Hx; cbn in Hx; [| |done]; injection Hx as <-; lra.
Defined.

(** X26, two Gaussians of equal amplitudes for a pulsed fraction 1/2. *)
Lemma convenience_amplitudes_witness :
  let w := world2 (template false quarter2) parabola line in
  ∃ (prims : list loc) (amps : list R) w',
    get_gauss2 (1 / 2) (1 / 10) (11 / 20) 1 (1 / 100) (1 / 100) false 0 0 w
    = (__init__ false (heap w') prims (NormsTuple amps), w')
    ∧ length prims = 2
    ∧ np_sum amps = (1 / 2)%R
    ∧ self w' = self w.
Proof.
  intros w.
  destruct (convenience_amplitudes w (1 / 2) (1 / 10) (11 / 20) 1 (1 / 100)
              (1 / 100) false 0 0)
    as [(prims & amps & w' & Hrun & Hlen & _ & Hsum & _ & _ & Hself & _) _].
  - lra.
  - lra.
  - exists prims, amps, w'. split; [exact Hrun|]. split; [|by split].
    rewrite Hlen. destruct (decide (0 > 0)%R); [lra|reflexivity].
Defined.

End more_examples.
